(** * ImageUtil: statistics, histograms, percentiles and conversion for save

    A shallow embedding of the numeric core of [src/ImageUtil.cpp]
    (namespace [CppOpenCVUtil::ImageUtil]): [imgMinMax], [imgTo8u],
    [histInt], [histFloat], [histPercentilesInt], [histPercentiles32f],
    [histPercentiles] and [convertForSave]; then [imgToRgb],
    [convertAfterLoad], [zeroOutsideRoi], [addKernelToImage],
    [checkSupportedExtension] with its table, [getImageTypeString] and
    [computeTextColor].

    Conventions.
    - A C++ [float] is an IEEE binary32 value and a [double] a binary64
      value, both carried by [spec_float] with the operations of
      [SpecFloat] at precision 24/128 and 53/1024.
      Where a proof needs the value of a float, it is the real number
      [m * 2^e] of its mantissa and exponent.
    - A C++ [int] is a [Z]; counters that the code increments wrap at 32
      bits ([wrap_int]).
    - A call that can fail returns an [outcome]: a value, a call of
      [bail], a C++ exception, or undefined behaviour (an out-of-range
      [operator[]], an oversized shift).
    - OpenCV itself is not part of the repository.  The primitives the
      code calls are modelled after their documentation in module [cv];
      [cv::minMaxLoc], whose answer on data that holds NaN depends on
      the platform (see the comment in [imgMinMax]), is a parameter. *)

From Stdlib Require Import Rbase Rfunctions Lra.
From stdpp Require Import base numbers list strings gmap.
From Stdlib Require Import Strings.Ascii Floats.SpecFloat.

Local Open Scope Z_scope.

(** ** Outcomes of a call *)

Inductive outcome (A : Type) : Type :=
| Ok (a : A)
| Bailed (msg : string)
| Thrown (msg : string)
| Undefined (what : string).

Arguments Ok {A} a.
Arguments Bailed {A} msg.
Arguments Thrown {A} msg.
Arguments Undefined {A} what.

Definition outcome_bind {A B} (k : A → outcome B) (c : outcome A) : outcome B :=
  match c with
  | Ok a => k a
  | Bailed msg => Bailed msg
  | Thrown msg => Thrown msg
  | Undefined what => Undefined what
  end.

#[export] Instance outcome_ret : MRet outcome := λ A a, Ok a.
#[export] Instance outcome_mbind : MBind outcome := λ A B k c, outcome_bind k c.

Definition returns {A} (c : outcome A) : bool :=
  match c with Ok _ => true | _ => false end.

(** A loop [for (x : xs) body] that threads a state and stops at the
    first failure. *)
Fixpoint for_each {A S} (body : S → A → outcome S) (xs : list A) (s : S)
  : outcome S :=
  match xs with
  | [] => Ok s
  | x :: xs' => s' ← body s x; for_each body xs' s'
  end.

(** ** Machine integers *)

Definition INT_MIN : Z := -2147483648.
Definition INT_MAX : Z := 2147483647.

(** Two's complement wrap-around of a 32-bit [int]. *)
Definition wrap_int (z : Z) : Z := (z + 2 ^ 31) `mod` 2 ^ 32 - 2 ^ 31.

(** [a >> s] on [int]: undefined for a negative count or one that
    reaches the width of the type. *)
Definition shr_int (a s : Z) : outcome Z :=
  if bool_decide (0 ≤ s < 32) then Ok (a ≫ s)
  else Undefined "shift count out of range".

Definition clamp (lo hi z : Z) : Z := Z.max lo (Z.min hi z).

(** ** Floating point *)

Definition float32 : Type := spec_float.
Definition float64 : Type := spec_float.

Definition NAN : spec_float := S754_nan.

Definition isnan (f : spec_float) : bool :=
  match f with S754_nan => true | _ => false end.

(** Rounding of an arbitrary float to a format, to nearest even. *)
Definition round_to (prec emax : Z) (f : spec_float) : spec_float :=
  match f with
  | S754_finite s m e => binary_normalize prec emax (cond_Zopp s (Zpos m)) e s
  | _ => f
  end.

Module F32.
Definition prec : Z := 24.
Definition emax : Z := 128.
Definition add : float32 → float32 → float32 := SFadd prec emax.
Definition sub : float32 → float32 → float32 := SFsub prec emax.
Definition mul : float32 → float32 → float32 := SFmul prec emax.
Definition div : float32 → float32 → float32 := SFdiv prec emax.
Definition of_Z (z : Z) : float32 := binary_normalize prec emax z 0 false.
(** [(float)d] for a double [d]. *)
Definition of_f64 (d : float64) : float32 := round_to prec emax d.
Definition zero : float32 := S754_zero false.
Definition FLT_MAX : float32 := SFmax_float prec emax.
(** The literal [0.1f]. *)
Definition tenth : float32 := div (of_Z 1) (of_Z 10).
End F32.

Module F64.
Definition prec : Z := 53.
Definition emax : Z := 1024.
Definition add : float64 → float64 → float64 := SFadd prec emax.
Definition sub : float64 → float64 → float64 := SFsub prec emax.
Definition mul : float64 → float64 → float64 := SFmul prec emax.
Definition div : float64 → float64 → float64 := SFdiv prec emax.
Definition of_Z (z : Z) : float64 := binary_normalize prec emax z 0 false.
(** The implicit promotion of a [float] to [double]; it is exact. *)
Definition of_f32 (f : float32) : float64 := round_to prec emax f.
End F64.

(** [std::min(a, b)] and [std::max(a, b)] as the standard library defines
    them, with [operator<]. *)
Definition std_min (a b : float32) : float32 := if SFltb b a then b else a.
Definition std_max (a b : float32) : float32 := if SFltb a b then b else a.

(** The integer a finite float rounds to, to nearest with ties to even,
    and the integer below it.  [None] for NaN and the infinities. *)
Definition rint (f : spec_float) : option Z :=
  match f with
  | S754_zero _ => Some 0
  | S754_finite s m e =>
      let x := cond_Zopp s (Zpos m) in
      if 0 <=? e then Some (x ≪ e)
      else
        let q := x ≫ (- e) in
        let r := x - q ≪ (- e) in
        Some match 2 * r ?= 1 ≪ (- e) with
             | Lt => q
             | Gt => q + 1
             | Eq => if Z.even q then q else q + 1
             end
  | _ => None
  end.

Definition floor (f : spec_float) : option Z :=
  match f with
  | S754_zero _ => Some 0
  | S754_finite s m e =>
      let x := cond_Zopp s (Zpos m) in
      if 0 <=? e then Some (x ≪ e) else Some (x ≫ (- e))
  | _ => None
  end.

(** [cvRound] and [cvFloor] return an [int].  Where the value does not
    fit, or is NaN, the SSE conversion they compile to yields [INT_MIN]. *)
Definition to_int (r : option Z) : Z :=
  match r with
  | Some z => if bool_decide (INT_MIN ≤ z ≤ INT_MAX) then z else INT_MIN
  | None => INT_MIN
  end.

Definition cvRound (f : spec_float) : Z := to_int (rint f).
Definition cvFloor (f : spec_float) : Z := to_int (floor f).

(** ** Matrices

    A [cv::Mat] as this file uses it: an element depth, a number of
    channels and rows of samples, the channels of a pixel interleaved.
    Integer depths hold their samples as [Z], floating depths as
    [spec_float].  The depth codes and [CV_MAKETYPE] are those of
    OpenCV's [interface.h]. *)

Inductive IntDepth := I8U | I8S | I16U | I16S | I32S.
Inductive FltDepth := F32F | F64F | F16F.

Inductive Mat :=
| MatI (d : IntDepth) (cn : positive) (rws : list (list Z))
| MatF (d : FltDepth) (cn : positive) (rws : list (list spec_float)).

Definition CV_8U : Z := 0.
Definition CV_8S : Z := 1.
Definition CV_16U : Z := 2.
Definition CV_16S : Z := 3.
Definition CV_32S : Z := 4.
Definition CV_32F : Z := 5.
Definition CV_64F : Z := 6.
Definition CV_16F : Z := 7.

Definition CV_MAKETYPE (depth cn : Z) : Z := depth + (cn - 1) ≪ 3.

Definition CV_8UC1 : Z := CV_MAKETYPE CV_8U 1.
Definition CV_8UC3 : Z := CV_MAKETYPE CV_8U 3.
Definition CV_8UC4 : Z := CV_MAKETYPE CV_8U 4.
Definition CV_32FC1 : Z := CV_MAKETYPE CV_32F 1.

Definition int_depth_code (d : IntDepth) : Z :=
  match d with
  | I8U => CV_8U | I8S => CV_8S | I16U => CV_16U | I16S => CV_16S
  | I32S => CV_32S
  end.

Definition flt_depth_code (d : FltDepth) : Z :=
  match d with F32F => CV_32F | F64F => CV_64F | F16F => CV_16F end.

Definition depth (img : Mat) : Z :=
  match img with
  | MatI d _ _ => int_depth_code d
  | MatF d _ _ => flt_depth_code d
  end.

Definition channels (img : Mat) : Z :=
  match img with MatI _ cn _ | MatF _ cn _ => Zpos cn end.

(** [img.type()] *)
Definition type (img : Mat) : Z := CV_MAKETYPE (depth img) (channels img).

(** [img.rows] and [img.cols] *)
Definition rows (img : Mat) : Z :=
  match img with
  | MatI _ _ rws => Z.of_nat (length rws)
  | MatF _ _ rws => Z.of_nat (length rws)
  end.

Definition cols (img : Mat) : Z :=
  match img with
  | MatI _ cn rws => Z.of_nat (length (default [] (head rws))) `div` Zpos cn
  | MatF _ cn rws => Z.of_nat (length (default [] (head rws))) `div` Zpos cn
  end.

(** Value range of an integer depth. *)
Definition int_min (d : IntDepth) : Z :=
  match d with
  | I8U | I16U => 0 | I8S => -128 | I16S => -32768 | I32S => INT_MIN
  end.

Definition int_max (d : IntDepth) : Z :=
  match d with
  | I8U => 255 | I8S => 127 | I16U => 65535 | I16S => 32767
  | I32S => INT_MAX
  end.

Definition in_range (d : IntDepth) (v : Z) : bool :=
  bool_decide (int_min d ≤ v ≤ int_max d).

Definition rectangular {A} (cn : positive) (rws : list (list A)) : bool :=
  let w := length (default [] (head rws)) in
  forallb (λ r, bool_decide (length r = w)) rws
  && bool_decide ((Z.of_nat w `mod` Zpos cn) = 0).

(** A matrix is well formed when its rows have one length, a multiple of
    the channel count, and every integer sample fits its depth. *)
Definition wf_mat (img : Mat) : bool :=
  match img with
  | MatI d cn rws => rectangular cn rws && forallb (forallb (in_range d)) rws
  | MatF _ cn rws => rectangular cn rws
  end.

(** [img.ptr<uint8_t>(y)], [img.ptr<uint16_t>(y)] and [img.ptr<float>(y)]
    for every row [y].  The code reads through them only after it has
    checked the type. *)
Definition ptr_int (img : Mat) : list (list Z) :=
  match img with MatI _ _ rws => rws | MatF _ _ _ => [] end.

Definition ptr_float (img : Mat) : list (list float32) :=
  match img with MatF _ _ rws => rws | MatI _ _ _ => [] end.

(** Number of samples of a matrix that are not NaN. *)
Definition count_non_nan (img : Mat) : Z :=
  match img with
  | MatI _ _ rws => Z.of_nat (length (concat rws))
  | MatF _ _ rws =>
      Z.of_nat (length (filter (λ v, isnan v = false) (concat rws)))
  end.

(** [std::vector]: [v[i]] and [v[i]++] are undefined out of range. *)
Definition vec_get {A} (v : list A) (i : Z) : outcome A :=
  if bool_decide (0 ≤ i) then
    match v !! Z.to_nat i with
    | Some x => Ok x
    | None => Undefined "vector index out of range"
    end
  else Undefined "vector index out of range".

Definition vec_incr (counts : list Z) (i : Z) : outcome (list Z) :=
  c ← vec_get counts i;
  Ok (<[Z.to_nat i := wrap_int (c + 1)]> counts).

(** [v.resize(n)]: a negative [int] converts to a huge [size_t] and
    [resize] throws. *)
Definition vec_resize {A} (n : Z) (fill : A) (v : list A) : outcome (list A) :=
  if bool_decide (0 ≤ n) then Ok (resize (Z.to_nat n) fill v)
  else Thrown "std::length_error".

(** ** The OpenCV primitives the file calls

    None of these is defined in the repository.  Each is modelled after
    its OpenCV documentation, on the sample representation above. *)

Module cv.

(** [saturate_cast<T>(int)] for an integer element type. *)
Definition saturate (d : IntDepth) (z : Z) : Z :=
  clamp (int_min d) (int_max d) z.

Definition flt_prec (d : FltDepth) : Z :=
  match d with F32F => 24 | F64F => 53 | F16F => 11 end.

Definition flt_emax (d : FltDepth) : Z :=
  match d with F32F => 128 | F64F => 1024 | F16F => 16 end.

(** *** [convertScaleAbs]

    [dst(I) = saturate_cast<uchar>(|src(I) * alpha + beta|)], computed
    in [float]; the result has depth [CV_8U] and the channels of the
    source.  The parameters are declared [double] and used as [float];
    the caller passes two [float]s, which this round trip leaves as
    they are, so the model takes them as [float]. *)
Definition scale_abs (a b : float32) (v : float32) : Z :=
  saturate I8U (cvRound (SFabs (F32.add (F32.mul v a) b))).

Definition as_float (d : FltDepth) (v : spec_float) : float32 :=
  match d with F32F => v | _ => F32.of_f64 v end.

Definition convertScaleAbs (img : Mat) (a b : float32) : Mat :=
  match img with
  | MatI _ cn rws =>
      MatI I8U cn (map (map (λ v, scale_abs a b (F32.of_Z v))) rws)
  | MatF d cn rws =>
      MatI I8U cn (map (map (λ v, scale_abs a b (as_float d v))) rws)
  end.

(** *** [Mat::convertTo]

    [dst(I) = saturate_cast<rtype>(src(I))]; only the depth of [rtype]
    counts, the channels are those of the source, and a negative
    [rtype] keeps the depth. *)
Inductive DepthTag := IntD (d : IntDepth) | FltD (d : FltDepth).

Definition depth_tag (code : Z) : DepthTag :=
  match code with
  | 0 => IntD I8U | 1 => IntD I8S | 2 => IntD I16U | 3 => IntD I16S
  | 4 => IntD I32S | 5 => FltD F32F | 6 => FltD F64F | _ => FltD F16F
  end.

Definition convertTo (img : Mat) (rtype : Z) : Mat :=
  let ddepth := if rtype <? 0 then depth img else Z.land rtype 7 in
  match img, depth_tag ddepth with
  | MatI _ cn rws, IntD d => MatI d cn (map (map (saturate d)) rws)
  | MatI _ cn rws, FltD d =>
      MatF d cn
        (map (map (λ v, binary_normalize (flt_prec d) (flt_emax d) v 0 false))
           rws)
  | MatF _ cn rws, IntD d =>
      MatI d cn (map (map (λ v, saturate d (cvRound v))) rws)
  | MatF _ cn rws, FltD d =>
      MatF d cn (map (map (round_to (flt_prec d) (flt_emax d))) rws)
  end.

(** *** [cvtColor]

    The four conversion codes [convertForSave] uses.  A [dstCn] that is
    not positive lets the code choose the channel count.  An empty
    source, depths other than 8U, 16U and 32F, and sources with the
    wrong channel count are refused with an exception; the source is
    tested first, with [CV_Assert(!_src.empty())]. *)
Inductive ColorCode :=
| COLOR_BGRA2BGR | COLOR_BGR2GRAY | COLOR_GRAY2BGR | COLOR_BGRA2GRAY.

(** [Mat::empty()]: the matrix has no element. *)
Definition empty (img : Mat) : bool := (rows img =? 0) || (cols img =? 0).

Definition to_gray (code : ColorCode) : bool :=
  match code with COLOR_BGR2GRAY | COLOR_BGRA2GRAY => true | _ => false end.

Definition dstChannels (code : ColorCode) : Z :=
  if to_gray code then 1 else 3.

Fixpoint pixels_aux {A} (fuel n : nat) (l : list A) : list (list A) :=
  match fuel with
  | O => []
  | S fuel' =>
      match l with
      | [] => []
      | _ => take n l :: pixels_aux fuel' n (drop n l)
      end
  end.

(** A row cut into pixels of [n] channels. *)
Definition pixels {A} (n : nat) (l : list A) : list (list A) :=
  pixels_aux (length l) n l.

Definition cvt_pixel {A} (opaque : A) (luma : A → A → A → A)
    (code : ColorCode) (dcn : Z) (p : list A) : list A :=
  match code, p with
  | COLOR_GRAY2BGR, [v] =>
      [v; v; v] ++ (if dcn =? 4 then [opaque] else [])
  | COLOR_BGRA2BGR, b :: g :: r :: rest =>
      [b; g; r] ++ (if dcn =? 4 then [default opaque (head rest)] else [])
  | (COLOR_BGR2GRAY | COLOR_BGRA2GRAY), b :: g :: r :: _ => [luma b g r]
  | _, _ => []
  end.

(** Y = 0.299 R + 0.587 G + 0.114 B, in 15-bit fixed point for the
    integer depths and in [float] for 32F. *)
Definition luma_int (b g r : Z) : Z :=
  (b * 3735 + g * 19235 + r * 9798 + 1 ≪ 14) ≫ 15.

Definition luma_flt (b g r : float32) : float32 :=
  let c (n : Z) := F32.div (F32.of_Z n) (F32.of_Z 1000) in
  F32.add (F32.add (F32.mul b (c 114)) (F32.mul g (c 587))) (F32.mul r (c 299)).

Definition cvtColor (img : Mat) (code : ColorCode) (dstCn : Z)
  : outcome Mat :=
  let scn := channels img in
  let dcn :=
    if to_gray code then 1
    else if 0 <? dstCn then dstCn else dstChannels code in
  let depth_ok :=
    bool_decide (depth img = CV_8U ∨ depth img = CV_16U ∨ depth img = CV_32F) in
  let channels_ok :=
    match code with
    | COLOR_GRAY2BGR => bool_decide (scn = 1 ∧ (dcn = 3 ∨ dcn = 4))
    | COLOR_BGRA2BGR =>
        bool_decide ((scn = 3 ∨ scn = 4) ∧ (dcn = 3 ∨ dcn = 4))
    | COLOR_BGR2GRAY | COLOR_BGRA2GRAY => bool_decide (scn = 3 ∨ scn = 4)
    end in
  if empty img then Thrown "cvtColor: !_src.empty()"
  else if negb depth_ok then Thrown "cvtColor: unsupported depth"
  else if negb channels_ok then Thrown "cvtColor: invalid number of channels"
  else
    Ok match img with
       | MatI d cn rws =>
           MatI d (Z.to_pos dcn)
             (map (λ row, concat (map (cvt_pixel (int_max d) luma_int code dcn)
                                    (pixels (Pos.to_nat cn) row))) rws)
       | MatF d cn rws =>
           MatF d (Z.to_pos dcn)
             (map (λ row, concat (map (cvt_pixel (F32.of_Z 1) luma_flt code dcn)
                                    (pixels (Pos.to_nat cn) row))) rws)
       end.

(** *** [calcHist]

    One image, channel 0, no mask, one dimension, uniform bins over
    [[lo, hi)].  OpenCV computes [a = histSize / (hi - lo)] and
    [b = -a * lo] in [double] and counts a sample [v] in bin
    [cvFloor(v * a + b)] when that index is inside the histogram.  The
    result is a [histSize x 1] matrix of depth 32F. *)
Definition channel0 {A} (cn : positive) (rws : list (list A)) : list A :=
  concat (map (λ row, omap head (pixels (Pos.to_nat cn) row)) rws).

Definition samples64 (img : Mat) : list float64 :=
  match img with
  | MatI _ cn rws => F64.of_Z <$> channel0 cn rws
  | MatF _ cn rws => F64.of_f32 <$> channel0 cn rws
  end.

(** The pair [(a, b)] for [histSize] bins over [[lo, hi)]. *)
Definition uniranges (histSize : Z) (lo hi : float32) : float64 * float64 :=
  let low := F64.of_f32 lo in
  let high := F64.of_f32 hi in
  let t := F64.div (F64.of_Z histSize) (F64.sub high low) in
  (t, F64.mul (SFopp t) low).

Definition bin_index (u : float64 * float64) (v : float64) : Z :=
  cvFloor (F64.add (F64.mul v u.1) u.2).

(** The sample falls in one of the [histSize] bins. *)
Definition counted (u : float64 * float64) (histSize : Z) (v : float64)
  : bool :=
  bool_decide (0 ≤ bin_index u v < histSize).

Definition count_sample (u : float64 * float64) (histSize : Z) (H : list Z)
    (v : float64) : list Z :=
  if counted u histSize v
  then alter (λ c, wrap_int (c + 1)) (Z.to_nat (bin_index u v)) H
  else H.

Definition calcHist (img : Mat) (histSize : Z) (lo hi : float32)
  : outcome Mat :=
  if negb (bool_decide (depth img = CV_8U ∨ depth img = CV_16U
                        ∨ depth img = CV_32F))
  then Thrown "calcHist: unsupported depth"
  else if histSize <=? 0 then Thrown "calcHist: histSize"
  else if negb (SFltb lo hi) then Thrown "calcHist: ranges"
  else
    let u := uniranges histSize lo hi in
    let H := foldl (count_sample u histSize)
               (replicate (Z.to_nat histSize) 0) (samples64 img) in
    Ok (MatF F32F 1 ((λ c, [F32.of_Z c]) <$> H)).

(** *** [minMaxLoc]

    Two behaviours of the reduction on single-channel data.  Both give
    the exact extremes of data without NaN, and [(0, 0)] for an empty
    matrix.  [minMaxLoc_ordered] compares every sample with the running
    extremes, so that a NaN never replaces them; [minMaxLoc_nan]
    answers NaN as soon as one sample is NaN, which is what the comment
    in [imgMinMax] reports for mac os. *)
Definition scan_minmax (vs : list float64) : float64 * float64 :=
  foldl (λ acc v,
           ((if SFltb v acc.1 then v else acc.1),
            (if SFltb acc.2 v then v else acc.2)))
    (S754_infinity false, S754_infinity true) vs.

Definition minMaxLoc_ordered (img : Mat) : outcome (float64 * float64) :=
  if negb (channels img =? 1) then Thrown "minMaxLoc: channels"
  else
    match samples64 img with
    | [] => Ok (S754_zero false, S754_zero false)
    | vs => Ok (scan_minmax vs)
    end.

Definition minMaxLoc_nan (img : Mat) : outcome (float64 * float64) :=
  if existsb isnan (samples64 img) then Ok (NAN, NAN)
  else minMaxLoc_ordered img.
End cv.

(** ** What the file takes from CppBaseUtil and OpenCV

    [bail] (MiscUtil.h), [findPercentileInHist] (MathUtil.h) and
    [getNormalizedExt] (StringUtil.h) are declared outside
    [ImageUtil.cpp]; [cv::minMaxLoc] is OpenCV's.  The last three are
    parameters of the development. *)

(** Modelled from the spec: [bail], of MiscUtil.h, is not in the source
    file.  Sections 4.1, 4.3 and 7 of the spec make every call of it a
    failure of the operation, and each call site is followed by a
    [return] whose comment says it only silences a compiler warning. *)
Definition bail {A} (msg : string) : outcome A := Bailed msg.

Class Externals := {
  (** [cv::minMaxLoc(img, &minVal, &maxVal, ...)] *)
  minMaxLoc : Mat → outcome (float64 * float64);
  (** [findPercentileInHist(counts, pct)] *)
  findPercentileInHist : list Z → float32 → outcome Z;
  (** [getNormalizedExt(inputExt)] *)
  getNormalizedExt : string → string
}.

(** Modelled from the spec: [findPercentileInHist], of MathUtil.h, is not
    in the source file.  Section 4.3: the target is
    [percentile / 100 * sum(counts)]; the bins are walked in order with a
    running sum, and the answer is the index of the first bin where the
    running sum reaches or exceeds the target; an empty [counts] fails
    with InvalidArgument.  Section 8 adds that percentile 100 gives the
    last index at the latest, which is also what the walk answers here
    when no bin reaches the target. *)
Fixpoint walk_bins (target : float32) (running : Z) (i : Z) (counts : list Z)
  : Z :=
  match counts with
  | [] => i - 1
  | c :: rest =>
      let running := running + c in
      if SFleb target (F32.of_Z running) then i
      else walk_bins target running (i + 1) rest
  end.

Definition findPercentileInHist_spec (counts : list Z) (pct : float32)
  : outcome Z :=
  match counts with
  | [] => Thrown "InvalidArgument"
  | _ =>
      let total := foldl Z.add 0 counts in
      let target := F32.mul (F32.div pct (F32.of_Z 100)) (F32.of_Z total) in
      Ok (walk_bins target 0 0 counts)
  end.

(** Modelled from the spec: [getNormalizedExt], of StringUtil.h, is not in
    the source file.  The spec treats format identifiers as opaque
    tokens; the parameter documentation of [convertForSave] says the
    extension comes with or without the period, so the period is
    dropped. *)
Definition getNormalizedExt_spec (inputExt : string) : string :=
  match inputExt with
  | String "."%char rest => rest
  | _ => inputExt
  end.

(** The struct [FloatHist] of ImageUtil.h, from the fields the source
    reads and writes. *)
Record FloatHist := mkFloatHist {
  minVal : float32;
  maxVal : float32;
  bins : list float32;
  counts : list Z
}.

(** The arms of the conditional chain of [convertForSave]. *)
Inductive SaveAction :=
| AutoRange8u
| TiffTo32F
| PpmGray2Bgr | PpmNoOp | PpmBgra2Bgr | PpmUnhandled
| PgmTo8UC1 | PgmBgr2Gray | PgmBgra2Gray | PgmUnhandled
| PassThrough.

(** ** The functions of [ImageUtil.cpp] *)

Section ImageUtil.
Context `{E : Externals}.

(** One step of the fallback scan of [imgMinMax]. *)
Definition minmax_step (acc : float32 * float32) (val : float32)
  : float32 * float32 :=
  if negb (isnan val) then (std_min acc.1 val, std_max acc.2 val) else acc.

Definition imgMinMax (img : Mat) : outcome (float32 * float32) :=
  mm ← minMaxLoc img;
  let lowVal := F32.of_f64 mm.1 in
  let highVal := F32.of_f64 mm.2 in
  if isnan lowVal || isnan highVal then
    (* happens on mac os when any nan's in the image *)
    if negb (type img =? CV_32F) then bail "minmax gave nan on non-32f image"
    else
      let scan :=
        foldl (λ acc p, foldl minmax_step acc p)
          (F32.FLT_MAX, SFopp F32.FLT_MAX) (ptr_float img) in
      (* handle all nan *)
      if SFltb scan.2 scan.1 then Ok (NAN, NAN) else Ok scan
  else Ok (lowVal, highVal).

Definition imgTo8u (img : Mat) (lowVal highVal : float32) : outcome Mat :=
  range ← (if SFleb highVal lowVal then imgMinMax img
           else Ok (lowVal, highVal));
  let lowVal := range.1 in
  let highVal := range.2 in
  let alpha :=
    F32.of_f64 (F64.div (F64.of_Z 255) (F64.of_f32 (F32.sub highVal lowVal))) in
  let beta := F32.mul (SFopp alpha) lowVal in
  Ok (cv.convertScaleAbs img alpha beta).

(** The two nested loops of [histInt] over rows and columns. *)
Definition count_rows (index : Z → outcome Z) (rws : list (list Z))
    (counts : list Z) : outcome (list Z) :=
  for_each (λ counts ps,
              for_each (λ counts v, i ← index v; vec_incr counts i) ps counts)
    rws counts.

Definition histInt (img : Mat) : outcome (list Z) :=
  if type img =? CV_8U then
    counts ← vec_resize 256 0 [];
    count_rows Ok (ptr_int img) counts
  else if type img =? CV_16U then
    counts ← vec_resize 65536 0 [];
    count_rows Ok (ptr_int img) counts
  else bail "histInt: Type not handled yet.".

(** [histInt(img, binShift)] *)
Definition histInt_shift (img : Mat) (binShift : Z) : outcome (list Z) :=
  if type img =? CV_8U then
    n ← shr_int 256 binShift;
    counts ← vec_resize n 0 [];
    count_rows (λ v, shr_int v binShift) (ptr_int img) counts
  else if type img =? CV_16U then
    n ← shr_int 65536 binShift;
    counts ← vec_resize n 0 [];
    count_rows (λ v, shr_int v binShift) (ptr_int img) counts
  else bail "histInt: Type not handled yet.".

(** [histFloat(img, binCount, minVal, maxVal, bins, hist)]: the four
    references are the fields of the [FloatHist] that goes in and comes
    out. *)
Definition histFloat (img : Mat) (binCount : Z) (h : FloatHist)
  : outcome FloatHist :=
  let minVal' := if isnan (minVal h) then F32.zero else minVal h in
  maxVal' ← (if isnan (maxVal h)
             then minMax ← imgMinMax img; Ok minMax.2
             else Ok (maxVal h));
  (* no non-nan values in image *)
  if isnan maxVal' then mret (mkFloatHist minVal' maxVal' [] [])
  else if SFleb maxVal' minVal' then
    mret (mkFloatHist minVal' maxVal'
            (<[0%nat := minVal']> (resize 1 F32.zero (bins h)))
            (<[0%nat := 0]> (resize 1 0 (counts h))))
  else
    bins' ← vec_resize binCount F32.zero (bins h);
    let binSize := F32.div (F32.sub maxVal' minVal') (F32.of_Z binCount) in
    let bins' :=
      foldl (λ bins' i,
               <[Z.to_nat i := F32.add minVal' (F32.mul (F32.of_Z i) binSize)]>
                 bins')
        bins' (seqZ 0 binCount) in
    let maxVal' := F32.add maxVal' (F32.mul F32.tenth binSize) in
    floatHist ← cv.calcHist img binCount minVal' maxVal';
    mret (mkFloatHist minVal' maxVal' bins'
            (concat (ptr_int (cv.convertTo floatHist CV_32S)))).

(** [FloatHist histFloat(img, binCount, minVal, maxVal)] *)
Definition histFloat_new (img : Mat) (binCount : Z) (minVal maxVal : float32)
  : outcome FloatHist :=
  histFloat img binCount (mkFloatHist minVal maxVal [] []).

Definition histPercentilesInt (img : Mat) (lowPct highPct : float32)
  : outcome (Z * Z) :=
  if (type img =? CV_8U) || (type img =? CV_16U) then
    counts ← histInt img;
    lowIdx ← findPercentileInHist counts lowPct;
    highIdx ← findPercentileInHist counts highPct;
    mret (lowIdx, highIdx)
  else bail "histPercentiles: Unsupported image type".

Definition histPercentiles32f (img : Mat) (lowPct highPct : float32)
  : outcome (float32 * float32) :=
  if type img =? CV_32F then
    h ← histFloat img 256 (mkFloatHist NAN NAN [] []);
    lowIdx ← findPercentileInHist (counts h) lowPct;
    highIdx ← findPercentileInHist (counts h) highPct;
    lowValue ← vec_get (bins h) lowIdx;
    highValue ← vec_get (bins h) highIdx;
    mret (lowValue, highValue)
  else bail "histPercentiles32f: Unsupported image type".

Definition histPercentiles (img : Mat) (lowPct highPct : float32)
  : outcome (float32 * float32) :=
  if (type img =? CV_8U) || (type img =? CV_16U) then
    t ← histPercentilesInt img lowPct highPct;
    mret (F32.of_Z t.1, F32.of_Z t.2)
  else if type img =? CV_32F then histPercentiles32f img lowPct highPct
  else bail "histPercentiles: Unsupported image type".

(** The conditions of [convertForSave], in the order of the source. *)
Definition save_action (type : Z) (ext : string) : SaveAction :=
  let isTiff := bool_decide (ext = "tif") || bool_decide (ext = "tiff") in
  let gray := (type =? CV_8U) || (type =? CV_16U) || (type =? CV_32S)
              || (type =? CV_32F) in
  (* for 16U, 32F, 32S to non-tiff, auto-range to 8u *)
  if ((type =? CV_16U) || (type =? CV_32S) || (type =? CV_32F))
     && negb isTiff then AutoRange8u
  (* for 32S to tiff, convert to 32F *)
  else if (type =? CV_32S) && isTiff then TiffTo32F
  else if bool_decide (ext = "ppm") then
    if gray then PpmGray2Bgr
    else if type =? CV_8UC3 then PpmNoOp
    else if type =? CV_8UC4 then PpmBgra2Bgr
    else PpmUnhandled
  else if bool_decide (ext = "pbm") || bool_decide (ext = "pgm") then
    if gray then PgmTo8UC1
    else if type =? CV_8UC3 then PgmBgr2Gray
    else if type =? CV_8UC4 then PgmBgra2Gray
    else PgmUnhandled
  else PassThrough.

(** [convertForSave(img, inputExt, dst)]: the result is [dst] and the
    returned flag [isChanged]. *)
Definition convertForSave (img : Mat) (inputExt : string)
  : outcome (Mat * bool) :=
  let ext := getNormalizedExt inputExt in
  match save_action (type img) ext with
  | AutoRange8u =>
      t ← histPercentiles img (F32.of_Z 1) (F32.of_Z 99);
      dst ← imgTo8u img t.1 t.2;
      mret (dst, true)
  | TiffTo32F => mret (cv.convertTo img CV_32F, true)
  | PpmGray2Bgr =>
      dst ← cv.cvtColor img cv.COLOR_GRAY2BGR 0; mret (dst, true)
  | PpmNoOp => mret (img, false)
  | PpmBgra2Bgr =>
      dst ← cv.cvtColor img cv.COLOR_BGRA2BGR CV_8UC1; mret (dst, true)
  | PpmUnhandled => Thrown "Unhandled input image type for ppm output."
  | PgmTo8UC1 => mret (cv.convertTo img CV_8UC1, true)
  | PgmBgr2Gray =>
      dst ← cv.cvtColor img cv.COLOR_BGR2GRAY CV_8UC1; mret (dst, true)
  | PgmBgra2Gray =>
      dst ← cv.cvtColor img cv.COLOR_BGRA2GRAY CV_8UC1; mret (dst, true)
  | PgmUnhandled => Thrown "Unhandled input image type for pbm output."
  | PassThrough => mret (img, false)
  end.
End ImageUtil.

(** The two platforms used in examples: the same helpers, with the
    reduction that skips NaN and with the one that reports it. *)
Definition ordered_platform : Externals :=
  {| minMaxLoc := cv.minMaxLoc_ordered;
     findPercentileInHist := findPercentileInHist_spec;
     getNormalizedExt := getNormalizedExt_spec |}.

Definition nan_platform : Externals :=
  {| minMaxLoc := cv.minMaxLoc_nan;
     findPercentileInHist := findPercentileInHist_spec;
     getNormalizedExt := getNormalizedExt_spec |}.

(** ** Vocabulary of the statements *)

Definition wide (ext : string) : bool :=
  bool_decide (ext = "tif") || bool_decide (ext = "tiff").

(** Number of samples that fall in slot [k]. *)
Definition occurrences (g : Z → Z) (k : Z) (vs : list Z) : Z :=
  Z.of_nat (length (filter (λ v, g v = k) vs)).

Definition is_int (c : Z) : Prop := INT_MIN ≤ c ≤ INT_MAX.

Definition sum_counts (l : list Z) : Z := foldr Z.add 0 l.

Definition samples_int (img : Mat) : list Z := concat (ptr_int img).

(** Number of levels of the two depths [histInt] accepts. *)
Definition levels (img : Mat) : Z := if type img =? CV_8U then 256 else 65536.

(** The reduction reported NaN: the test of [imgMinMax]. *)
Definition reports_nan (mm : float64 * float64) : bool :=
  isnan (F32.of_f64 mm.1) || isnan (F32.of_f64 mm.2).

(** Every sample of a 32F matrix is NaN. *)
Definition all_nan (img : Mat) : bool :=
  forallb (forallb isnan) (ptr_float img).

(** The lower edges [histFloat] writes: [minVal + i * binSize]. *)
Definition bin_edge (lo binSize : float32) (i : Z) : float32 :=
  F32.add lo (F32.mul (F32.of_Z i) binSize).

(** Samples of the matrix that [calcHist] puts in a bin. *)
Definition counted_samples (img : Mat) (histSize : Z) (lo hi : float32)
  : list float64 :=
  filter (λ v, cv.counted (cv.uniranges histSize lo hi) histSize v = true)
    (cv.samples64 img).

(** The counters [calcHist] accumulates. *)
Definition bin_counters (img : Mat) (histSize : Z) (lo hi : float32) : list Z :=
  foldl (cv.count_sample (cv.uniranges histSize lo hi) histSize)
    (replicate (Z.to_nat histSize) 0) (cv.samples64 img).

(** [floatHist.convertTo(hist, CV_32S)] into a [vector<int>]. *)
Definition hist_ints (floatHist : Mat) : list Z :=
  concat (ptr_int (cv.convertTo floatHist CV_32S)).

(** The lower bound [histFloat] works with. *)
Definition resolved_min (h : FloatHist) : float32 :=
  if isnan (minVal h) then F32.zero else minVal h.

(** The upper bound after [maxVal += 0.1f * binSize]. *)
Definition bin_size (lo hi : float32) (binCount : Z) : float32 :=
  F32.div (F32.sub hi lo) (F32.of_Z binCount).

Definition widened (lo hi : float32) (binCount : Z) : float32 :=
  F32.add hi (F32.mul F32.tenth (bin_size lo hi binCount)).

(** [scale = 255 / (highVal - lowVal)] and [offset = -scale * lowVal], as
    [imgTo8u] computes [alpha] and [beta]. *)
Definition scale (lowVal highVal : float32) : float32 :=
  F32.of_f64 (F64.div (F64.of_Z 255) (F64.of_f32 (F32.sub highVal lowVal))).

Definition offset (lowVal highVal : float32) : float32 :=
  F32.mul (SFopp (scale lowVal highVal)) lowVal.


(** [clamp(round(|scale * input + offset|), 0, 255)] *)
Definition rescale_abs (s o : float32) (v : float32) : Z :=
  clamp 0 255 (cvRound (SFabs (F32.add (F32.mul v s) o))).



(** The samples of a matrix as [convertScaleAbs] reads them. *)
Definition samples32 (img : Mat) : list (list float32) :=
  match img with
  | MatI _ _ rws => map (map F32.of_Z) rws
  | MatF d _ rws => map (map (cv.as_float d)) rws
  end.

(** The power of two [2^e], as a real number. *)
Definition bpow (e : Z) : R := powerRZ 2 e.

(** The float is a value of the binary32 format. *)
Definition valid32 (f : float32) : bool := valid_binary 24 128 f.

(** The float is a value of binary32 and, unless it is NaN, at most
    [hi]. *)
Definition sample_upto (hi : float32) (v : float32) : bool :=
  valid32 v && (isnan v || SFleb v hi).

(** Number of samples of a 32F matrix that are at least [lo]; a NaN is
    not. *)
Definition count_from (lo : float32) (img : Mat) : Z :=
  Z.of_nat (length (filter (λ v, SFleb lo v = true) (concat (ptr_float img)))).

(** A positive float from [2^-98] up to, and not including, [2^125]. *)
Definition mid_range32 (f : float32) : bool :=
  match f with
  | S754_finite false _ e => (-121 <=? e) && (e <=? 101)
  | _ => false
  end.

Section vocabulary.
Context `{E : Externals}.

(** The upper bound [histFloat] works with: the caller's, or the
    maximum of the image. *)
Definition resolved_max (img : Mat) (h : FloatHist) : outcome float32 :=
  if isnan (maxVal h) then minMax ← imgMinMax img; Ok minMax.2
  else Ok (maxVal h).

(** The range [imgTo8u] rescales from. *)
Definition resolved_range (img : Mat) (lowVal highVal : float32)
  : outcome (float32 * float32) :=
  if SFleb highVal lowVal then imgMinMax img else Ok (lowVal, highVal).

End vocabulary.

(** ** More of [ImageUtil.cpp]

    [imgToRgb], [convertAfterLoad], [zeroOutsideRoi], [addKernelToImage],
    the table of extensions behind [checkSupportedExtension],
    [getImageTypeString] and [computeTextColor].  They read and write
    single elements, which the model does with [elem_at], [put] and
    [ptr_store]; an [int] that the code computes is checked with
    [int_of]. *)

(** *** Elements, buffers and machine integers *)

(** An [int] computed by the code: signed overflow is undefined. *)
Definition int_of (z : Z) : outcome Z :=
  if bool_decide (INT_MIN ≤ z ≤ INT_MAX) then Ok z
  else Undefined "signed integer overflow".

(** [img.at<T>(y, x)] on the rows of a matrix.  Release builds do not
    check the indices; outside the matrix the access is undefined. *)
Definition elem_at {A} (rws : list (list A)) (y x : Z) : outcome A :=
  if bool_decide (0 ≤ y ∧ 0 ≤ x) then
    match rws !! Z.to_nat y ≫= (.!! Z.to_nat x) with
    | Some v => Ok v
    | None => Undefined "element outside the matrix"
    end
  else Undefined "element outside the matrix".

(** [dst[i] = v] through a raw pointer to a buffer of [length buf]
    bytes. *)
Definition ptr_store (buf : list Z) (i v : Z) : outcome (list Z) :=
  if bool_decide (0 ≤ i < Z.of_nat (length buf))
  then Ok (<[Z.to_nat i := v]> buf)
  else Undefined "store outside the buffer".

(** [static_cast<uint8_t>(f)] for a [float]: the value is truncated
    toward zero; the conversion is undefined when the truncated value
    is not a value of [uint8_t]. *)
Definition trunc (f : spec_float) : option Z :=
  match f with
  | S754_zero _ => Some 0
  | S754_finite s m e =>
      Some (cond_Zopp s (if 0 <=? e then Zpos m ≪ e else Zpos m ≫ (- e)))
  | _ => None
  end.

Definition float_to_uint8 (f : float32) : outcome Z :=
  match trunc f with
  | Some z =>
      if bool_decide (0 ≤ z ≤ 255) then Ok z
      else Undefined "float outside the range of uint8_t"
  | None => Undefined "float outside the range of uint8_t"
  end.

(** [m.at<float>(y, x)] and [m.at<uint8_t>(y, x)]: the element [x] of row
    [y], read with the type named; with a matrix of another depth the
    bytes read are not those of an element. *)
Definition at_float (m : Mat) (y x : Z) : outcome float32 :=
  match m with
  | MatF F32F _ rws => elem_at rws y x
  | _ => Undefined "at<float> on a matrix of another depth"
  end.

Definition at_uint8 (m : Mat) (y x : Z) : outcome Z :=
  match m with
  | MatI I8U _ rws => elem_at rws y x
  | _ => Undefined "at<uint8_t> on a matrix of another depth"
  end.

(** The rows with the element [x] of row [y] replaced. *)
Definition put {A} (rws : list (list A)) (y x : Z) (v : A) : list (list A) :=
  alter (<[Z.to_nat x := v]>) (Z.to_nat y) rws.

Definition put_float (m : Mat) (y x : Z) (v : float32) : Mat :=
  match m with
  | MatF d cn rws => MatF d cn (put rws y x v)
  | _ => m
  end.

Definition put_uint8 (m : Mat) (y x : Z) (v : Z) : Mat :=
  match m with
  | MatI d cn rws => MatI d cn (put rws y x v)
  | _ => m
  end.

(** *** Further OpenCV primitives *)

Module cvx.

(** *** [cvtColor] with [COLOR_BGR2RGB]

    The first and the third channel change places and a fourth channel
    is dropped; the result has three channels.  The source must not be
    empty, and the depths and channel counts accepted are those of
    [COLOR_BGRA2BGR]. *)
Definition swap_rb {A} (p : list A) : list A :=
  match p with
  | b :: g :: r :: _ => [r; g; b]
  | _ => []
  end.

Definition cvtColor_BGR2RGB (img : Mat) : outcome Mat :=
  let scn := channels img in
  if cv.empty img then Thrown "cvtColor: !_src.empty()"
  else if negb (bool_decide (depth img = CV_8U ∨ depth img = CV_16U
                             ∨ depth img = CV_32F))
  then Thrown "cvtColor: unsupported depth"
  else if negb (bool_decide (scn = 3 ∨ scn = 4))
  then Thrown "cvtColor: invalid number of channels"
  else
    Ok match img with
       | MatI d cn rws =>
           MatI d 3
             (map (λ row, concat (map swap_rb (cv.pixels (Pos.to_nat cn) row)))
                rws)
       | MatF d cn rws =>
           MatF d 3
             (map (λ row, concat (map swap_rb (cv.pixels (Pos.to_nat cn) row)))
                rws)
       end.
End cvx.

(** [cv::Rect] *)
Module Rect.
Record t := mk { x : Z; y : Z; width : Z; height : Z }.
End Rect.

(** Masks.  A mask is the data of a single-channel 8U matrix, a list of
    rows of bytes. *)
Module mask.

(** [cv::Mat(size, CV_8U, cv::Scalar(v))] for the size [rows x cols]. *)
Definition filled (rows cols v : Z) : list (list Z) :=
  replicate (Z.to_nat rows) (replicate (Z.to_nat cols) (cv.saturate I8U v)).

(** The element in row [r] and column [c] lies in the rectangle. *)
Definition in_rect (roi : Rect.t) (r c : Z) : bool :=
  bool_decide (Rect.x roi ≤ c < Rect.x roi + Rect.width roi
               ∧ Rect.y roi ≤ r < Rect.y roi + Rect.height roi).

(** [m(roi) = v]: the sub-matrix constructor asserts
    [0 <= roi.x && 0 <= roi.width && roi.x + roi.width <= m.cols &&
     0 <= roi.y && 0 <= roi.height && roi.y + roi.height <= m.rows],
    then every element of the sub-matrix is set. *)
Definition set_roi (m : list (list Z)) (roi : Rect.t) (v : Z)
  : outcome (list (list Z)) :=
  let mrows := Z.of_nat (length m) in
  let mcols := Z.of_nat (length (default [] (head m))) in
  if (0 <=? Rect.x roi) && (0 <=? Rect.width roi) then
    right ← int_of (Rect.x roi + Rect.width roi);
    if (right <=? mcols) && (0 <=? Rect.y roi) && (0 <=? Rect.height roi)
    then
      bottom ← int_of (Rect.y roi + Rect.height roi);
      if bottom <=? mrows then
        Ok (imap (λ r row,
                    imap (λ c old,
                            if in_rect roi (Z.of_nat r) (Z.of_nat c)
                            then cv.saturate I8U v else old) row) m)
      else Thrown "Mat: the roi is outside the matrix"
    else Thrown "Mat: the roi is outside the matrix"
  else Thrown "Mat: the roi is outside the matrix".

(** [~m] *)
Definition bitwise_not (m : list (list Z)) : list (list Z) :=
  map (map (λ v, Z.lxor v 255)) m.

(** The mask selects the pixel in row [r] and column [c]. *)
Definition selects (m : list (list Z)) (r c : nat) : bool :=
  match m !! r ≫= (.!! c) with
  | Some v => negb (v =? 0)
  | None => false
  end.

(** [mat.setTo(value, m)]: the mask has the size of the matrix, and the
    pixels it selects get [value] in every channel. *)
Definition setTo (mat : Mat) (value : Z) (m : list (list Z)) : outcome Mat :=
  if negb (bool_decide (Z.of_nat (length m) = rows mat
                        ∧ Z.of_nat (length (default [] (head m))) = cols mat))
  then Thrown "setTo: the mask has another size"
  else
    Ok match mat with
       | MatI d cn rws =>
           MatI d cn
             (imap (λ r row,
                      imap (λ c old,
                              if selects m r (c / Pos.to_nat cn)
                              then cv.saturate d value else old) row) rws)
       | MatF d cn rws =>
           MatF d cn
             (imap (λ r row,
                      imap (λ c old,
                              if selects m r (c / Pos.to_nat cn)
                              then binary_normalize (cv.flt_prec d)
                                     (cv.flt_emax d) value 0 false
                              else old) row) rws)
       end.
End mask.

(** [cv::Point] *)
Module Point.
Record t := mk { x : Z; y : Z }.
End Point.

(** [cv::Scalar]: four [double]s, the ones not given being 0. *)
Definition Scalar : Type := float64 * float64 * float64 * float64.

Definition Scalar3 (v0 v1 v2 : Z) : Scalar :=
  (F64.of_Z v0, F64.of_Z v1, F64.of_Z v2, F64.of_Z 0).

(** [img.at<cv::Vec3b>(y, x)]: the three bytes at the offset [3 x] of
    row [y], which for an 8UC3 matrix are the pixel [x]. *)
Definition at_Vec3b (img : Mat) (y x : Z) : outcome (list Z) :=
  match img with
  | MatI I8U _ rws =>
      if bool_decide (0 ≤ y ∧ 0 ≤ x) then
        match rws !! Z.to_nat y with
        | Some row =>
            let p := take 3 (drop (3 * Z.to_nat x) row) in
            if bool_decide (length p = 3%nat) then Ok p
            else Undefined "element outside the matrix"
        | None => Undefined "element outside the matrix"
        end
      else Undefined "element outside the matrix"
  | _ => Undefined "at<Vec3b> on a matrix of another depth"
  end.

(** *** [imgToRgb] *)

(** The body of the inner loop of [imgToRgb], for the pixel [(y, x)]. *)
Definition imgToRgb_step (img8u : Mat) (y : Z) (dst : list Z) (x : Z)
  : outcome (list Z) :=
  val ← elem_at (ptr_int img8u) y x;
  yc ← int_of (y * cols img8u);
  yx ← int_of (yc + x);
  i ← int_of (yx * 3);
  dst ← ptr_store dst i val;
  i1 ← int_of (i + 1);
  dst ← ptr_store dst i1 val;
  i2 ← int_of (i + 2);
  ptr_store dst i2 val.

(** [imgToRgb(img8u, dst)]: the result is the buffer behind [dst]. *)
Definition imgToRgb (img8u : Mat) (dst : list Z) : outcome (list Z) :=
  if type img8u =? CV_8U then
    for_each (λ dst y,
                for_each (imgToRgb_step img8u y) (seqZ 0 (cols img8u)) dst)
      (seqZ 0 (rows img8u)) dst
  else bail "imgToRgb wrong input image type.".

(** *** [convertAfterLoad] *)

Section ImageUtil_load.
Context `{E : Externals}.

(** [convertAfterLoad(img, inputExt, dst)]: the result is [dst], which
    the code leaves alone when it converts nothing, and the returned
    flag [isChanged]. *)
Definition convertAfterLoad (img : Mat) (inputExt : string) (dst : Mat)
  : outcome (Mat * bool) :=
  let ext := getNormalizedExt inputExt in
  (* TIF coming in swapped *)
  if bool_decide (ext = "tif") || bool_decide (ext = "tiff") then
    if type img =? CV_8UC3 then
      dst ← cvx.cvtColor_BGR2RGB img; mret (dst, true)
    else if type img =? CV_8UC4 then
      dst ← cv.cvtColor img cv.COLOR_BGRA2BGR 0; mret (dst, true)
    else mret (dst, false)
  else mret (dst, false).
End ImageUtil_load.

(** *** [zeroOutsideRoi] *)

(** [zeroOutsideRoi(mat, roi)]: the result is [mat].  A [CV_Assert] that
    fails throws. *)
Definition zeroOutsideRoi (mat : Mat) (roi : Rect.t) : outcome Mat :=
  if negb (type mat =? CV_32F) then Thrown "CV_Assert: mat.type() == CV_32F"
  else
    inside ←
      (if (0 <=? Rect.x roi) && (0 <=? Rect.y roi) then
         right ← int_of (Rect.x roi + Rect.width roi);
         if right <=? cols mat then
           bottom ← int_of (Rect.y roi + Rect.height roi);
           Ok (bottom <=? rows mat)
         else Ok false
       else Ok false);
    if negb inside then Thrown "CV_Assert: roi inside mat"
    else
      (* Create a mask with the same size as the input mat, initialized
         with zeros *)
      let m := mask.filled (rows mat) (cols mat) 0 in
      (* Set the ROI region in the mask to white (255) *)
      m ← mask.set_roi m roi 255;
      (* Set the elements outside the ROI to zero using the mask *)
      mask.setTo mat 0 (mask.bitwise_not m).

(** *** [addKernelToImage] *)

(** The body of the inner loop of [addKernelToImage], for the kernel
    element [(j, i)]. *)
Definition addKernelToImage_step (kernel : Mat) (x y : Z) (j : Z)
    (image : Mat) (i : Z) : outcome Mat :=
  xi ← int_of (x + i);
  (* Add kernel value to the corresponding image pixel (if within image
     bounds) *)
  if (0 <=? xi) && (xi <? cols image) then
    yj ← int_of (y + j);
    if (0 <=? yj) && (yj <? rows image) then
      if type image =? CV_32F then
        k ← at_float kernel j i;
        old ← at_float image yj xi;
        Ok (put_float image yj xi (F32.add old k))
      else if type image =? CV_8UC1 then
        k ← at_float kernel j i;
        k8 ← float_to_uint8 k;
        old ← at_uint8 image yj xi;
        Ok (put_uint8 image yj xi ((old + k8) `mod` 256))
      else Thrown "The specified image type is not implemented."
    else Ok image
  else Ok image.

(** [addKernelToImage(image, kernel, x, y)]: the result is [image]. *)
Definition addKernelToImage (image kernel : Mat) (x y : Z) : outcome Mat :=
  for_each (λ image j,
              for_each (addKernelToImage_step kernel x y j)
                (seqZ 0 (cols kernel)) image)
    (seqZ 0 (rows kernel)) image.

(** *** The table of extensions

    [allImageExtensions] is a constant of the file; the static map
    [allExtensionsToFilterStrings], empty when the program starts, is
    the state that [initImageExtensions] fills. *)

(** all possible extensions, but all platforms do not support all image
    types *)
Definition allImageExtensions : list string :=
  ["jpg"; "jpeg"; "tif"; "tiff"; "png"; "bmp"; "jpe"; "ppm"; "pgm"; "pnm";
   "ras"; "dib"; "pxm"; "jp2"; "webp";
   "exr";
   "hdr"; "pfm"; "sr"; "pic";
   "pbm"].

(** [fmt::format("{0}|*.{0}", ext)] *)
Definition filter_string (ext : string) : string := ext +:+ "|*." +:+ ext.

Definition initImageExtensions (allExtensionsToFilterStrings : gmap string string)
  : gmap string string :=
  if bool_decide (allExtensionsToFilterStrings = ∅) then
    foldl (λ m ext, <[ext := filter_string ext]> m)
      allExtensionsToFilterStrings allImageExtensions
  else allExtensionsToFilterStrings.

Definition getAllExtensionsToFilterStrings
    (allExtensionsToFilterStrings : gmap string string) : gmap string string :=
  allExtensionsToFilterStrings.

Definition getAllExtensions : list string := allImageExtensions.

Section ImageUtil_extensions.
Context `{E : Externals}.

(** [checkSupportedExtension(inputExt)]: the state of the static map
    after the call, and the answer. *)
Definition checkSupportedExtension
    (allExtensionsToFilterStrings : gmap string string) (inputExt : string)
  : gmap string string * bool :=
  let m := initImageExtensions allExtensionsToFilterStrings in
  let ext := getNormalizedExt inputExt in
  (m, bool_decide (ext ∈ allImageExtensions)).
End ImageUtil_extensions.

(** *** Names of the types *)

Definition CV_32FC3 : Z := CV_MAKETYPE CV_32F 3.

(** [getImageTypeString(int type)] *)
Definition getImageTypeString (type : Z) : string :=
  if type =? CV_16U then "16U"
  else if type =? CV_8U then "8U"
  else if (type =? CV_32F) || (type =? CV_32FC1) then "32F"
  else if type =? CV_32FC3 then "32FC3"
  else if type =? CV_32S then "32S"
  else if type =? CV_8UC3 then "8UC3"
  else if type =? CV_8UC4 then
    (* or BGRA *)
    "ARGB"
  else "UNKNOWN".

(** [getImageTypeString(cv::Mat& img)] *)
Definition getImageTypeString_Mat (img : Mat) : string :=
  getImageTypeString (type img).

(** *** The colour of a text *)

(** The literals [0.05] and [1.05], the [double]s nearest to them. *)
Definition d0_05 : float64 := F64.div (F64.of_Z 5) (F64.of_Z 100).
Definition d1_05 : float64 := F64.div (F64.of_Z 105) (F64.of_Z 100).

(** The test [contrast_with_black > contrast_with_white] of
    [computeTextColor], for a gray level. *)
Definition black_contrasts_more (gray : Z) : bool :=
  (* Compute the luminance of the pixel color *)
  let pixel_luminance := F64.div (F64.of_Z gray) (F64.of_Z 255) in
  (* Compute the contrast ratio with black and white text *)
  let contrast_with_black := F64.div (F64.add pixel_luminance d0_05) d0_05 in
  let contrast_with_white := F64.div (F64.sub d1_05 pixel_luminance) d0_05 in
  SFltb contrast_with_white contrast_with_black.

(** [computeTextColor(img, pixel)] *)
Definition computeTextColor (img : Mat) (pixel : Point.t) : outcome Scalar :=
  (* Get the color of the given pixel *)
  pixel_color ← at_Vec3b img (Point.y pixel) (Point.x pixel);
  (* Convert the pixel color to grayscale *)
  gray ← cv.cvtColor (MatI I8U 3 [pixel_color]) cv.COLOR_BGR2GRAY 0;
  g ← at_uint8 gray 0 0;
  (* Choose the text color that maximizes the contrast *)
  if black_contrasts_more g then Ok (Scalar3 0 0 0)
  else Ok (Scalar3 255 255 255).

(** ** Vocabulary of the further statements *)

(** The float is a number: neither NaN nor an infinity. *)
Definition finite (f : spec_float) : bool :=
  match f with
  | S754_zero _ | S754_finite _ _ _ => true
  | _ => false
  end.

(** The range [(c, c)] of a constant 8U image gives an infinite scale,
    the scaled sample is NaN and saturates to 0. *)
Definition constant_to_zero (c : Z) : bool :=
  let f := F32.of_f64 (F64.of_Z c) in
  negb (isnan f)
  && (cv.scale_abs (scale f f) (offset f f) (F32.of_Z c) =? 0).

(** The three bytes [imgToRgb] writes for a sample. *)
Definition rgb_triple (v : Z) : list Z := [v; v; v].

(** What [zeroOutsideRoi] leaves of a matrix of floats. *)
Definition keep_roi (roi : Rect.t) (rws : list (list float32))
  : list (list float32) :=
  imap (λ r row,
          imap (λ c v, if mask.in_rect roi (Z.of_nat r) (Z.of_nat c)
                       then v else F32.zero) row) rws.

(** The rectangle lies inside a matrix of [rows x cols]. *)
Definition roi_inside (roi : Rect.t) (rows cols : Z) : Prop :=
  0 ≤ Rect.x roi ∧ 0 ≤ Rect.width roi ∧ Rect.x roi + Rect.width roi ≤ cols
  ∧ 0 ≤ Rect.y roi ∧ 0 ≤ Rect.height roi
  ∧ Rect.y roi + Rect.height roi ≤ rows.

(** The element [(j, i)] of a kernel. *)
Definition cell_at {K} (krows : list (list K)) (j i : Z) : option K :=
  if bool_decide (0 ≤ j ∧ 0 ≤ i)
  then krows !! Z.to_nat j ≫= (.!! Z.to_nat i)
  else None.

(** The rows of an image with the kernel elements selected by [sel]
    added: the element in row [r] and column [c] meets the kernel
    element [(r - y, c - x)]. *)
Definition added {A K} (op : A → K → A) (krows : list (list K)) (x y : Z)
    (sel : Z → Z → bool) (rws : list (list A)) : list (list A) :=
  imap (λ r row,
          imap (λ c v,
                  let j := Z.of_nat r - y in
                  let i := Z.of_nat c - x in
                  match cell_at krows j i with
                  | Some k => if sel j i then op v k else v
                  | None => v
                  end) row) rws.

(** The kernel elements the loops have reached before [(j, i)]. *)
Definition before (j i : Z) (dj di : Z) : bool :=
  (dj <? j) || ((dj =? j) && (di <? i)).

(** The loop body on the rows of an image, for a conversion [conv] of
    the kernel element and an addition [op]. *)
Definition add_cell {A K} (conv : float32 → outcome K) (op : A → K → A)
    (kernel : Mat) (x y : Z) (j : Z) (rws : list (list A)) (i : Z)
  : outcome (list (list A)) :=
  xi ← int_of (x + i);
  if (0 <=? xi) && (xi <? Z.of_nat (length (default [] (head rws)))) then
    yj ← int_of (y + j);
    if (0 <=? yj) && (yj <? Z.of_nat (length rws)) then
      k ← at_float kernel j i;
      k' ← conv k;
      old ← elem_at rws yj xi;
      Ok (put rws yj xi (op old k'))
    else Ok rws
  else Ok rws.

(** The addition of [uint8_t]: the sum wraps around. *)
Definition add_uint8 (old k8 : Z) : Z := (old + k8) `mod` 256.

(** The kernel position [(x, y)] keeps the index arithmetic of the
    loops inside [int]. *)
Definition kernel_fits (kernel : Mat) (x y : Z) : Prop :=
  INT_MIN ≤ x ∧ x + cols kernel ≤ INT_MAX + 1
  ∧ INT_MIN ≤ y ∧ y + rows kernel ≤ INT_MAX + 1.

(** Some element of the kernel meets a pixel of the image. *)
Definition meets (image kernel : Mat) (x y : Z) : bool :=
  bool_decide (0 < rows kernel ∧ 0 < cols kernel
               ∧ 0 < rows image ∧ 0 < cols image
               ∧ - cols kernel < x < cols image
               ∧ - rows kernel < y < rows image).

(** The rows with every kernel element added. *)
Definition with_kernel {A K} (op : A → K → A) (krows : list (list K))
    (x y : Z) (rws : list (list A)) : list (list A) :=
  added op krows x y (λ _ _, true) rws.

(** The byte a kernel element is converted to. *)
Definition trunc8 (k : float32) : Z := default 0 (trunc k).

(** * Properties *)

Ltac unfold_codes :=
  unfold CV_8UC1, CV_8UC3, CV_8UC4, CV_32FC1, int_depth_code, flt_depth_code,
    CV_8U, CV_8S, CV_16U, CV_16S, CV_32S, CV_32F, CV_64F, CV_16F in *.

Ltac fold_pos_compare :=
  repeat match goal with
         | |- context [PosDef.Pos.compare_cont Eq ?a ?b] =>
             change (PosDef.Pos.compare_cont Eq a b) with (Pos.compare a b)
         end.

(** ** Types *)

Lemma depth_bounds img : 0 ≤ depth img < 8.
Proof. destruct img as [[] ? ?|[] ? ?]; cbn; unfold_codes; lia. Qed.

Lemma CV_MAKETYPE_eq d c : CV_MAKETYPE d c = d + 8 * (c - 1).
Proof. unfold CV_MAKETYPE. rewrite Z.shiftl_mul_pow2 by lia. lia. Qed.

Lemma type_eq img : type img = depth img + 8 * (channels img - 1).
Proof. apply CV_MAKETYPE_eq. Qed.

Lemma channels_pos img : 1 ≤ channels img.
Proof. destruct img; cbn; lia. Qed.

(** A type code fixes the depth and the number of channels. *)
Lemma type_inv img d c :
  0 ≤ d < 8 → type img = CV_MAKETYPE d c → depth img = d ∧ channels img = c.
Proof.
  intros Hd. rewrite type_eq, CV_MAKETYPE_eq.
  pose proof (depth_bounds img). lia.
Qed.

Lemma type_single img d :
  0 ≤ d < 8 → type img = d → depth img = d ∧ channels img = 1.
Proof. intros Hd Ht. apply type_inv; [done|]. rewrite CV_MAKETYPE_eq. lia. Qed.

Lemma type_8U img : type img = CV_8U → ∃ rws, img = MatI I8U 1 rws.
Proof.
  intros H. destruct (type_inv img 0 1) as [Hd Hc]; [lia|done|].
  destruct img as [[] cn rws|[] cn rws]; cbn in Hd, Hc; unfold_codes;
    try discriminate.
  exists rws. f_equal. lia.
Qed.

Lemma type_16U img : type img = CV_16U → ∃ rws, img = MatI I16U 1 rws.
Proof.
  intros H. destruct (type_inv img 2 1) as [Hd Hc]; [lia|done|].
  destruct img as [[] cn rws|[] cn rws]; cbn in Hd, Hc; unfold_codes;
    try discriminate.
  exists rws. f_equal. lia.
Qed.

Lemma type_32S img : type img = CV_32S → ∃ rws, img = MatI I32S 1 rws.
Proof.
  intros H. destruct (type_inv img 4 1) as [Hd Hc]; [lia|done|].
  destruct img as [[] cn rws|[] cn rws]; cbn in Hd, Hc; unfold_codes;
    try discriminate.
  exists rws. f_equal. lia.
Qed.

Lemma type_32F img : type img = CV_32F → ∃ rws, img = MatF F32F 1 rws.
Proof.
  intros H. destruct (type_inv img 5 1) as [Hd Hc]; [lia|done|].
  destruct img as [[] cn rws|[] cn rws]; cbn in Hd, Hc; unfold_codes;
    try discriminate.
  exists rws. f_equal. lia.
Qed.

(** ** The conditional chain of [convertForSave] *)

Lemma save_action_auto t ext :
  t = CV_16U ∨ t = CV_32S ∨ t = CV_32F → wide ext = false →
  save_action t ext = AutoRange8u.
Proof.
  unfold wide, save_action. intros Ht ->.
  destruct Ht as [-> | [-> | ->]]; reflexivity.
Qed.

Lemma save_action_gray t ext :
  save_action t ext = PpmGray2Bgr ∨ save_action t ext = PgmTo8UC1 → t = CV_8U.
Proof.
  unfold save_action.
  destruct (t =? CV_8U) eqn:H8; [apply Z.eqb_eq in H8; done|].
  destruct (decide (ext = "tif")) as [-> | ?];
    [|destruct (decide (ext = "tiff")) as [-> | ?]];
    destruct (t =? CV_16U), (t =? CV_32S), (t =? CV_32F); cbn;
    repeat (case_bool_decide; try done; cbn); repeat case_match;
    intros [? | ?]; discriminate.
Qed.

Lemma histPercentiles_32S `{E : Externals} img lowPct highPct :
  type img = CV_32S →
  histPercentiles img lowPct highPct
  = Bailed "histPercentiles: Unsupported image type".
Proof. unfold histPercentiles. intros ->. reflexivity. Qed.

(** ** Types of the results of the OpenCV primitives *)

Lemma type_convertScaleAbs img a b :
  type (cv.convertScaleAbs img a b) = CV_MAKETYPE CV_8U (channels img).
Proof. destruct img; reflexivity. Qed.

Lemma type_convertTo img rtype :
  0 ≤ rtype < 8 →
  type (cv.convertTo img rtype) = CV_MAKETYPE rtype (channels img).
Proof.
  intros Hr. unfold cv.convertTo.
  replace (rtype <? 0) with false by (symmetry; apply Z.ltb_ge; lia).
  assert (rtype = 0 ∨ rtype = 1 ∨ rtype = 2 ∨ rtype = 3 ∨ rtype = 4
          ∨ rtype = 5 ∨ rtype = 6 ∨ rtype = 7) as Hcases by lia.
  destruct img; destruct_or!; subst rtype; reflexivity.
Qed.

Lemma channels_cvtColor img code dstCn dst :
  cv.cvtColor img code dstCn = Ok dst →
  depth dst = depth img
  ∧ channels dst = (if cv.to_gray code then 1
                    else if 0 <? dstCn then dstCn else cv.dstChannels code).
Proof.
  unfold cv.cvtColor. repeat case_match; try discriminate.
  all: intros [= <-]; split; try reflexivity.
  all: cbn [channels]; repeat case_bool_decide; try done.
  all: destruct code; cbn in *; try discriminate; try lia.
  all: destruct_and?; destruct_or?; lia.
Qed.

Lemma cvtColor_auto img code dst :
  cv.cvtColor img code 0 = Ok dst →
  depth dst = depth img ∧ channels dst = cv.dstChannels code.
Proof.
  intros H. apply channels_cvtColor in H as [? ->]. split; [done|].
  by destruct code.
Qed.

(** What each arm of the chain knows about the type and the extension. *)
Lemma save_action_spec t ext :
  match save_action t ext with
  | AutoRange8u => (t = CV_16U ∨ t = CV_32S ∨ t = CV_32F) ∧ wide ext = false
  | TiffTo32F => t = CV_32S ∧ wide ext = true
  | PpmGray2Bgr => t = CV_8U ∧ ext = "ppm"
  | PpmNoOp => t = CV_8UC3 ∧ ext = "ppm"
  | PpmBgra2Bgr => t = CV_8UC4 ∧ ext = "ppm"
  | PgmTo8UC1 => t = CV_8U ∧ (ext = "pbm" ∨ ext = "pgm")
  | PgmBgr2Gray => t = CV_8UC3 ∧ (ext = "pbm" ∨ ext = "pgm")
  | PgmBgra2Gray => t = CV_8UC4 ∧ (ext = "pbm" ∨ ext = "pgm")
  | PpmUnhandled | PgmUnhandled | PassThrough => True
  end.
Proof.
  unfold save_action, wide.
  destruct (Z.eqb_spec t CV_8U) as [-> | ?];
    [|destruct (Z.eqb_spec t CV_16U) as [-> | ?];
      [|destruct (Z.eqb_spec t CV_32S) as [-> | ?];
        [|destruct (Z.eqb_spec t CV_32F) as [-> | ?];
          [|destruct (Z.eqb_spec t CV_8UC3) as [-> | ?];
            [|destruct (Z.eqb_spec t CV_8UC4) as [-> | ?]]]]]];
    (destruct (decide (ext = "tif")) as [-> | ?];
     [|destruct (decide (ext = "tiff")) as [-> | ?];
       [|destruct (decide (ext = "ppm")) as [-> | ?];
         [|destruct (decide (ext = "pbm")) as [-> | ?];
           [|destruct (decide (ext = "pgm")) as [-> | ?]]]]]);
    cbn; repeat (case_bool_decide; try done; cbn); auto.
Qed.

(** ** Machine integers *)

Lemma wrap_int_id z : INT_MIN ≤ z ≤ INT_MAX → wrap_int z = z.
Proof.
  unfold wrap_int, INT_MIN, INT_MAX. intros H.
  rewrite Z.mod_small by lia. lia.
Qed.

Lemma wrap_int_succ a b : wrap_int (wrap_int a + b) = wrap_int (a + b).
Proof.
  unfold wrap_int. f_equal.
  replace ((a + 2 ^ 31) `mod` 2 ^ 32 - 2 ^ 31 + b + 2 ^ 31)
    with ((a + 2 ^ 31) `mod` 2 ^ 32 + b) by lia.
  rewrite Zplus_mod_idemp_l. f_equal. lia.
Qed.

(** ** Loops *)

Lemma for_each_app {A S} (body : S → A → outcome S) xs ys s :
  for_each body (xs ++ ys) s = (s' ← for_each body xs s; for_each body ys s').
Proof.
  revert s. induction xs as [|x xs IH]; intros s; [done|].
  cbn. destruct (body s x); cbn; [apply IH|done..].
Qed.

(** The nested loops of [histInt] visit the samples in row-major order. *)
Lemma count_rows_concat index rws counts :
  count_rows index rws counts
  = for_each (λ counts v, i ← index v; vec_incr counts i) (concat rws) counts.
Proof.
  unfold count_rows. revert counts.
  induction rws as [|ps rws IH]; intros counts; [done|].
  cbn [for_each concat]. rewrite for_each_app.
  destruct (for_each _ ps counts); cbn; [apply IH|done..].
Qed.

Lemma occurrences_cons g k v vs :
  occurrences g k (v :: vs)
  = (if decide (g v = k) then 1 else 0) + occurrences g k vs.
Proof.
  unfold occurrences. rewrite filter_cons.
  destruct (decide (g v = k)); cbn [length]; lia.
Qed.

Lemma occurrences_bounds g k vs :
  0 ≤ occurrences g k vs ≤ Z.of_nat (length vs).
Proof.
  unfold occurrences. pose proof (length_filter (λ v, g v = k) vs). lia.
Qed.

Lemma vec_incr_ok counts i c :
  0 ≤ i → counts !! Z.to_nat i = Some c →
  vec_incr counts i = Ok (<[Z.to_nat i := wrap_int (c + 1)]> counts).
Proof.
  intros Hi Hc. unfold vec_incr, vec_get.
  rewrite bool_decide_true by done. rewrite Hc. reflexivity.
Qed.

Lemma wrap_int_range z : INT_MIN ≤ wrap_int z ≤ INT_MAX.
Proof.
  unfold wrap_int, INT_MIN, INT_MAX.
  pose proof (Z.mod_pos_bound (z + 2 ^ 31) (2 ^ 32)). lia.
Qed.

Lemma counting_loop index g vs : ∀ counts,
  Forall is_int counts →
  Forall (λ v, index v = Ok (g v) ∧ 0 ≤ g v < Z.of_nat (length counts)) vs →
  ∃ counts',
    for_each (λ counts v, i ← index v; vec_incr counts i) vs counts = Ok counts'
    ∧ length counts' = length counts
    ∧ ∀ k c, counts !! k = Some c →
        counts' !! k = Some (wrap_int (c + occurrences g (Z.of_nat k) vs)).
Proof.
  induction vs as [|v vs IH]; intros counts Hint Hvs.
  - exists counts. split_and!; [done..|].
    intros k c Hk. rewrite Hk. f_equal.
    unfold occurrences. cbn. rewrite Z.add_0_r. symmetry. apply wrap_int_id.
    eapply Forall_lookup_1 in Hint; [|done]. done.
  - apply Forall_cons in Hvs as [[Hidx [Hlo Hhi]] Hvs].
    destruct (lookup_lt_is_Some_2 counts (Z.to_nat (g v))) as [c0 Hc0]; [lia|].
    cbn [for_each]. rewrite Hidx. cbn.
    rewrite (vec_incr_ok _ _ c0) by done. cbn.
    destruct (IH (<[Z.to_nat (g v) := wrap_int (c0 + 1)]> counts))
      as (counts' & Hrun & Hlen & Hslots).
    + apply Forall_insert; [done|]. apply wrap_int_range.
    + rewrite length_insert. done.
    + exists counts'. rewrite length_insert in Hlen. split_and!; [done..|].
      intros k c Hk. rewrite occurrences_cons.
      destruct (decide (g v = Z.of_nat k)) as [Heq | Hne].
      * assert (Z.to_nat (g v) = k) as Hk' by lia. subst k.
        assert (c = c0) as -> by congruence.
        erewrite Hslots; [|apply list_lookup_insert_eq; by eapply lookup_lt_Some].
        f_equal. rewrite wrap_int_succ. f_equal. lia.
      * erewrite Hslots; [|rewrite list_lookup_insert_ne; [done|lia]].
        f_equal.
Qed.

(** A fresh vector of counters. *)
Lemma vec_resize_zeros n :
  0 ≤ n → vec_resize n 0 [] = Ok (replicate (Z.to_nat n) 0).
Proof.
  intros Hn. unfold vec_resize. rewrite bool_decide_true by done.
  by rewrite resize_nil.
Qed.

(** The counting loop from a fresh vector of [n] counters. *)
Lemma count_rows_fresh index g rws n :
  0 ≤ n →
  Forall (λ v, index v = Ok (g v) ∧ 0 ≤ g v < n) (concat rws) →
  ∃ counts,
    count_rows index rws (replicate (Z.to_nat n) 0) = Ok counts
    ∧ Z.of_nat (length counts) = n
    ∧ ∀ k, 0 ≤ k < n →
        counts !! Z.to_nat k = Some (wrap_int (occurrences g k (concat rws))).
Proof.
  intros Hn Hvs. rewrite count_rows_concat.
  destruct (counting_loop index g (concat rws) (replicate (Z.to_nat n) 0))
    as (counts & Hrun & Hlen & Hslots).
  - apply Forall_replicate. unfold is_int, INT_MIN, INT_MAX. lia.
  - rewrite length_replicate, Z2Nat.id by done. done.
  - exists counts. rewrite length_replicate in Hlen. split_and!; [done|lia|].
    intros k Hk. erewrite Hslots; [|apply lookup_replicate_2; lia].
    rewrite Z2Nat.id by lia. done.
Qed.

(** ** Sums of counters *)

Lemma sum_counts_insert l i c x :
  l !! i = Some c → sum_counts (<[i := x]> l) = sum_counts l - c + x.
Proof.
  unfold sum_counts.
  revert i. induction l as [|y l IH]; intros [|i] Hi; try done.
  - injection Hi as ->. cbn. lia.
  - change (<[S i := x]> (y :: l)) with (y :: <[i := x]> l).
    cbn [foldr]. rewrite (IH i Hi). lia.
Qed.

Lemma lookup_le_sum_counts l i c :
  Forall (λ c, 0 ≤ c) l → l !! i = Some c → 0 ≤ c ≤ sum_counts l.
Proof.
  unfold sum_counts.
  intros Hl. revert i. induction Hl as [|y l Hy Hl IH]; intros i Hi; [done|].
  assert (0 ≤ foldr Z.add 0 l) by (clear -Hl; induction Hl; cbn; lia).
  cbn [foldr]. destruct i as [|i]; simplify_eq/=.
  - lia.
  - specialize (IH i Hi). lia.
Qed.

Lemma sum_counts_replicate n : sum_counts (replicate n 0) = 0.
Proof. unfold sum_counts. induction n; cbn [replicate foldr]; lia. Qed.

(** Without overflow every sample adds one to the sum of the counters. *)
Lemma counting_loop_sum (index : Z → outcome Z) (g : Z → Z) vs : ∀ counts,
  Forall (λ c, 0 ≤ c) counts →
  sum_counts counts + Z.of_nat (length vs) ≤ INT_MAX →
  Forall (λ v, index v = Ok (g v) ∧ 0 ≤ g v < Z.of_nat (length counts)) vs →
  ∃ counts',
    for_each (λ counts v, i ← index v; vec_incr counts i) vs counts = Ok counts'
    ∧ sum_counts counts' = sum_counts counts + Z.of_nat (length vs).
Proof.
  induction vs as [|v vs IH]; intros counts Hpos Hsum Hvs.
  - exists counts. cbn. split; [done|lia].
  - apply Forall_cons in Hvs as [[Hidx [Hlo Hhi]] Hvs].
    destruct (lookup_lt_is_Some_2 counts (Z.to_nat (g v))) as [c0 Hc0]; [lia|].
    pose proof (lookup_le_sum_counts _ _ _ Hpos Hc0) as Hc0s.
    cbn [for_each length] in *. rewrite Hidx. cbn.
    rewrite (vec_incr_ok _ _ c0) by done. cbn.
    rewrite wrap_int_id by (unfold INT_MIN, INT_MAX in *; lia).
    destruct (IH (<[Z.to_nat (g v) := c0 + 1]> counts))
      as (counts' & Hrun & Hsum').
    + apply Forall_insert; [done|lia].
    + rewrite (sum_counts_insert _ _ c0) by done. lia.
    + by rewrite length_insert.
    + exists counts'. split; [done|].
      rewrite Hsum', (sum_counts_insert _ _ c0) by done. lia.
Qed.

(** ** The integer histograms *)

Lemma wf_samples d cn rws :
  wf_mat (MatI d cn rws) = true →
  Forall (λ v, int_min d ≤ v ≤ int_max d) (concat rws).
Proof.
  cbn. intros [_ H]%andb_prop. induction rws as [|r rws IH]; cbn in *; [done|].
  apply andb_prop in H as [Hr Hrws]. apply Forall_app. split; [|by apply IH].
  clear -Hr. induction r as [|v r IH]; cbn in *; [done|].
  apply andb_prop in Hr as [Hv Hr]. constructor; [|by apply IH].
  unfold in_range in Hv. by apply bool_decide_eq_true in Hv.
Qed.

Lemma shr_int_ok a s : 0 ≤ s < 32 → shr_int a s = Ok (a ≫ s).
Proof. intros H. unfold shr_int. by rewrite bool_decide_true. Qed.

Lemma shiftr_range v s n :
  0 ≤ s ≤ n → 0 ≤ v < 2 ^ n → 0 ≤ v ≫ s < 2 ^ n ≫ s.
Proof.
  intros Hs Hv. rewrite !Z.shiftr_div_pow2 by lia.
  replace (2 ^ n) with (2 ^ (n - s) * 2 ^ s) in *
    by (rewrite <- Z.pow_add_r by lia; f_equal; lia).
  rewrite Z.div_mul by lia. split.
  - apply Z.div_pos; lia.
  - apply Z.div_lt_upper_bound; lia.
Qed.

Lemma count_rows_shift rws s n :
  0 ≤ s ≤ n → n < 32 →
  Forall (λ v, 0 ≤ v < 2 ^ n) (concat rws) →
  ∃ counts,
    (m ← shr_int (2 ^ n) s; counts ← vec_resize m 0 [];
     count_rows (λ v, shr_int v s) rws counts) = Ok counts
    ∧ Z.of_nat (length counts) = 2 ^ n ≫ s
    ∧ ∀ k, 0 ≤ k < 2 ^ n ≫ s →
        counts !! Z.to_nat k
        = Some (wrap_int (occurrences (λ v, v ≫ s) k (concat rws))).
Proof.
  intros Hs Hn Hvs. rewrite shr_int_ok by lia. cbn.
  assert (0 ≤ 2 ^ n ≫ s) as Hm by (apply Z.shiftr_nonneg; lia).
  rewrite vec_resize_zeros by done. cbn.
  apply count_rows_fresh; [done|].
  eapply Forall_impl; [done|]. cbn. intros v Hv.
  rewrite shr_int_ok by lia. split; [done|]. by apply shiftr_range.
Qed.

Lemma histInt_shift_slots img s :
  wf_mat img = true →
  (type img = CV_8U ∧ 0 ≤ s ≤ 8) ∨ (type img = CV_16U ∧ 0 ≤ s ≤ 16) →
  ∃ counts,
    histInt_shift img s = Ok counts
    ∧ Z.of_nat (length counts) = levels img ≫ s
    ∧ ∀ k, 0 ≤ k < levels img ≫ s →
        counts !! Z.to_nat k
        = Some (wrap_int (occurrences (λ v, v ≫ s) k (samples_int img))).
Proof.
  intros Hwf [[Ht Hs] | [Ht Hs]].
  - destruct (type_8U img Ht) as [rws ->].
    apply (count_rows_shift rws s 8); [lia..|].
    eapply Forall_impl; [by apply (wf_samples I8U 1)|]. cbn. lia.
  - destruct (type_16U img Ht) as [rws ->].
    apply (count_rows_shift rws s 16); [lia..|].
    eapply Forall_impl; [by apply (wf_samples I16U 1)|]. cbn. lia.
Qed.

Lemma occurrences_int g k vs :
  Z.of_nat (length vs) ≤ INT_MAX →
  wrap_int (occurrences g k vs) = occurrences g k vs.
Proof.
  intros H. apply wrap_int_id. pose proof (occurrences_bounds g k vs).
  unfold INT_MIN. lia.
Qed.

(** [histInt(img)] *)
Lemma histInt_sum img :
  wf_mat img = true →
  type img = CV_8U ∨ type img = CV_16U →
  Z.of_nat (length (samples_int img)) ≤ INT_MAX →
  ∃ counts,
    histInt img = Ok counts
    ∧ Z.of_nat (length counts) = levels img
    ∧ sum_counts counts = Z.of_nat (length (samples_int img)).
Proof.
  intros Hwf Ht Hlen.
  assert (∀ rws n, 0 ≤ n →
            Forall (λ v, 0 ≤ v < n) (concat rws) →
            Z.of_nat (length (concat rws)) ≤ INT_MAX →
            ∃ counts,
              (counts ← vec_resize n 0 []; count_rows Ok rws counts) = Ok counts
              ∧ Z.of_nat (length counts) = n
              ∧ sum_counts counts = Z.of_nat (length (concat rws))) as Hloop.
  { intros rws n Hn Hvs Hmax. rewrite vec_resize_zeros by done. cbn.
    destruct (count_rows_fresh Ok id rws n) as (counts & Hrun & Hl & _);
      [done| |].
    { eapply Forall_impl; [done|]. cbn. done. }
    exists counts. split_and!; [done..|].
    rewrite count_rows_concat in Hrun.
    destruct (counting_loop_sum Ok id (concat rws) (replicate (Z.to_nat n) 0))
      as (counts' & Hrun' & Hsum).
    - apply Forall_replicate. done.
    - rewrite sum_counts_replicate. lia.
    - rewrite length_replicate, Z2Nat.id by done.
      eapply Forall_impl; [done|]. cbn. done.
    - rewrite Hrun in Hrun'. injection Hrun' as <-.
      rewrite Hsum, sum_counts_replicate. lia. }
  destruct Ht as [Ht | Ht].
  - destruct (type_8U img Ht) as [rws ->].
    apply (Hloop rws 256); [lia| |done].
    eapply Forall_impl; [by apply (wf_samples I8U 1)|]. cbn. lia.
  - destruct (type_16U img Ht) as [rws ->].
    apply (Hloop rws 65536); [lia| |done].
    eapply Forall_impl; [by apply (wf_samples I16U 1)|]. cbn. lia.
Qed.

(** ** [imgMinMax] and [histFloat] on degenerate data *)

Lemma insert_resize_one {A} (x y : A) l : <[0%nat := x]> (resize 1 y l) = [x].
Proof. destruct l as [|a l]; [done|]. cbn. by rewrite resize_0. Qed.

Lemma minmax_scan_all_nan rws acc :
  forallb (forallb isnan) rws = true →
  foldl (λ acc p, foldl minmax_step acc p) acc rws = acc.
Proof.
  induction rws as [|p rws IH]; [done|]. cbn [forallb foldl].
  intros [Hp Hrws]%andb_prop.
  replace (foldl minmax_step acc p) with acc; [by apply IH|].
  clear -Hp. induction p as [|v p IH]; [done|]. cbn [forallb foldl] in *.
  apply andb_prop in Hp as [Hv Hp].
  unfold minmax_step at 2. rewrite Hv. by apply IH.
Qed.

Section degenerate.
Context `{E : Externals}.

Lemma imgMinMax_reported img mm :
  minMaxLoc img = Ok mm → reports_nan mm = false →
  imgMinMax img = Ok (F32.of_f64 mm.1, F32.of_f64 mm.2).
Proof.
  unfold imgMinMax, reports_nan. intros -> Hn. cbn. by rewrite Hn.
Qed.

Lemma imgMinMax_all_nan img mm :
  type img = CV_32F → all_nan img = true →
  minMaxLoc img = Ok mm → reports_nan mm = true →
  imgMinMax img = Ok (NAN, NAN).
Proof.
  unfold imgMinMax, reports_nan, all_nan. intros Ht Hall -> Hn. cbn.
  rewrite Hn, Ht. cbn. by rewrite minmax_scan_all_nan.
Qed.

End degenerate.

(** ** Counters through [float]

    [calcHist] hands its counters over as [float]s and [convertTo] turns
    them back into [int]s; below [2^24] nothing is lost. *)

Lemma digits2_pos_size p : digits2_pos p = Pos.size p.
Proof. induction p; cbn; congruence. Qed.

Lemma digits2_pos_le p n :
  0 ≤ n → Zpos p < 2 ^ n → Zpos (digits2_pos p) ≤ n.
Proof.
  intros Hn Hp. rewrite digits2_pos_size.
  pose proof (Pos.size_le p) as Hle.
  destruct (decide (Zpos (Pos.size p) ≤ n)) as [|Hgt]; [done|exfalso].
  assert (2 ^ (n + 1) ≤ 2 ^ Zpos (Pos.size p)) by (apply Z.pow_le_mono_r; lia).
  assert (Zpos (2 ^ Pos.size p) = 2 ^ Zpos (Pos.size p)) as Hpow
    by (by rewrite Pos2Z.inj_pow).
  assert (Zpos (2 ^ Pos.size p) ≤ Zpos p~0) by (apply Pos2Z.pos_le_pos; done).
  rewrite Z.pow_add_r in * by lia. lia.
Qed.

Lemma digits2_pos_iter p k :
  digits2_pos (Pos.iter xO p k) = (digits2_pos p + k)%positive.
Proof.
  induction k as [|k IH] using Pos.peano_ind.
  - cbn. lia.
  - rewrite Pos.iter_succ. cbn. rewrite IH. lia.
Qed.

Lemma Zpos_iter_xO p k : Zpos (Pos.iter xO p k) = Zpos p * 2 ^ Zpos k.
Proof.
  induction k as [|k IH] using Pos.peano_ind.
  - cbn. lia.
  - rewrite Pos.iter_succ, Pos2Z.inj_xO, IH, Pos2Z.inj_succ, Z.pow_succ_r by lia.
    lia.
Qed.

Lemma binary_round_aux_exact mz ez :
  Zpos (digits2_pos mz) = 24 → -149 ≤ ez ≤ 104 →
  binary_round_aux 24 128 false (Zpos mz) ez loc_Exact = S754_finite false mz ez.
Proof.
  intros Hd He. unfold binary_round_aux, shr_fexp, fexp, emin. cbn [Zdigits2].
  rewrite Hd. replace (Z.max (24 + ez - 24) (3 - 128 - 24) - ez) with 0 by lia.
  cbn. rewrite Hd.
  replace (Z.max (24 + ez - 24) (3 - 128 - 24) - ez) with 0 by lia.
  cbn. replace (ez <=? 128 - 24) with true by (symmetry; apply Z.leb_le; lia).
  done.
Qed.

Lemma rint_of_Z c : 0 ≤ c < 2 ^ 24 → rint (F32.of_Z c) = Some c.
Proof.
  intros Hc. destruct c as [|p|p]; [done| |lia].
  unfold F32.of_Z, binary_normalize, binary_round, F32.prec, F32.emax.
  pose proof (digits2_pos_le p 24 ltac:(lia) ltac:(lia)) as Hd.
  unfold fexp, emin, shl_align.
  replace (Z.max (Zpos (digits2_pos p) + 0 - 24) (3 - 128 - 24))
    with (Zpos (digits2_pos p) - 24) by lia.
  destruct (Zpos (digits2_pos p) - 24 - 0) as [|q|q] eqn:Hk; [|lia|].
  - rewrite binary_round_aux_exact by lia. cbn. by rewrite Z.shiftl_0_r.
  - rewrite binary_round_aux_exact.
    + unfold rint. cbn [cond_Zopp].
      replace (0 <=? Zpos (digits2_pos p) - 24) with false
        by (symmetry; apply Z.leb_gt; lia).
      replace (- (Zpos (digits2_pos p) - 24)) with (Zpos q) by lia.
      rewrite Zpos_iter_xO, Z.shiftr_div_pow2, Z.div_mul by lia.
      rewrite Z.shiftl_mul_pow2, Z.sub_diag by lia. cbn [Z.mul].
      rewrite Z.shiftl_mul_pow2 by lia.
      assert (0 < 2 ^ Zpos q) by (apply Z.pow_pos_nonneg; lia).
      replace (2 * 0 ?= 1 * 2 ^ Zpos q) with Lt; [done|].
      symmetry. apply Z.compare_lt_iff. lia.
    + rewrite digits2_pos_iter. lia.
    + lia.
Qed.

Lemma counter_roundtrip c :
  0 ≤ c < 2 ^ 24 → cv.saturate I32S (cvRound (F32.of_Z c)) = c.
Proof.
  intros Hc. unfold cvRound. rewrite rint_of_Z by done. cbn.
  rewrite bool_decide_true by (unfold INT_MIN, INT_MAX; lia).
  unfold cv.saturate, clamp. cbn. unfold INT_MIN, INT_MAX. lia.
Qed.

(** ** Rounding to a format

    [binary_round_aux] shifts a mantissa to its place in the format and
    rounds it.  The lemmas give its result on integers, then the
    relative error of a rounding, a product, a quotient and a sum in the
    normal range, over the real numbers. *)

Lemma Zdigits2_bounds m :
  0 < m → 2 ^ (Zdigits2 m - 1) ≤ m < 2 ^ Zdigits2 m.
Proof.
  intros Hm. destruct m as [|p|p]; try lia. cbn [Zdigits2].
  rewrite digits2_pos_size.
  pose proof (Pos.size_le p) as Hle. pose proof (Pos.size_gt p) as Hgt.
  apply Pos2Z.pos_le_pos in Hle. apply Pos2Z.pos_lt_pos in Hgt.
  rewrite Pos2Z.inj_pow in Hle, Hgt.
  change (Z.pos p~0) with (2 * Z.pos p) in Hle.
  replace (Z.pos (Pos.size p)) with (Z.succ (Z.pos (Pos.size p) - 1)) in Hle
    by lia.
  rewrite Z.pow_succ_r in Hle by lia. lia.
Qed.

Lemma Zdigits2_unique m d :
  2 ^ (d - 1) ≤ m < 2 ^ d → 0 < m → Zdigits2 m = d.
Proof.
  intros Hd Hm. pose proof (Zdigits2_bounds m Hm) as Hb.
  assert (0 < Zdigits2 m) by (destruct m; cbn; lia).
  assert (0 < d).
  { destruct (decide (0 < d)); [done|].
    assert (2 ^ d ≤ 2 ^ 0) by (apply Z.pow_le_mono_r; lia). lia. }
  destruct (Z.lt_trichotomy (Zdigits2 m) d) as [Hlt | [? | Hgt]]; [|done|].
  - assert (2 ^ Zdigits2 m ≤ 2 ^ (d - 1)) by (apply Z.pow_le_mono_r; lia). lia.
  - assert (2 ^ d ≤ 2 ^ (Zdigits2 m - 1)) by (apply Z.pow_le_mono_r; lia). lia.
Qed.

Lemma shr_1_m mrs : 0 ≤ shr_m mrs → shr_m (shr_1 mrs) = shr_m mrs / 2.
Proof.
  destruct mrs as [m r s]. cbn [shr_m]. intros Hm.
  destruct m as [|[p|p|]|p]; cbn [shr_1 shr_m]; try lia.
  - done.
  - apply Z.div_unique with 1; lia.
  - apply Z.div_unique with 0; lia.
  - done.
Qed.

Lemma iter_pos_shr_1 p : ∀ mrs,
  0 ≤ shr_m mrs →
  shr_m (iter_pos shr_1 p mrs) = shr_m mrs / 2 ^ Zpos p.
Proof.
  assert (∀ mrs, 0 ≤ shr_m mrs → 0 ≤ shr_m (shr_1 mrs)) as Hpos.
  { intros mrs Hm. rewrite shr_1_m by done. apply Z.div_pos; lia. }
  induction p as [p IH|p IH|]; intros mrs Hm; cbn [iter_pos].
  - assert (0 ≤ shr_m (iter_pos shr_1 p (shr_1 mrs))) as H1.
    { rewrite IH by auto. apply Z.div_pos; [auto|]. apply Z.pow_pos_nonneg; lia. }
    rewrite IH, IH, shr_1_m by auto.
    rewrite !Z.div_div by (try apply Z.pow_pos_nonneg; lia).
    f_equal. replace (Z.pos p~1) with (1 + Z.pos p + Z.pos p) by lia.
    rewrite !Z.pow_add_r by lia. lia.
  - assert (0 ≤ shr_m (iter_pos shr_1 p mrs)) as H1.
    { rewrite IH by auto. apply Z.div_pos; [auto|]. apply Z.pow_pos_nonneg; lia. }
    rewrite IH, IH by auto.
    rewrite !Z.div_div by (try apply Z.pow_pos_nonneg; lia).
    f_equal. replace (Z.pos p~0) with (Z.pos p + Z.pos p) by lia.
    rewrite !Z.pow_add_r by lia. lia.
  - by rewrite shr_1_m.
Qed.

Lemma shr_spec mrs e k :
  0 ≤ shr_m mrs → 0 ≤ k →
  shr_m (shr mrs e k).1 = shr_m mrs / 2 ^ k ∧ (shr mrs e k).2 = e + k.
Proof.
  intros Hm Hk. destruct k as [|p|p]; [| |lia]; cbn [shr fst snd].
  - rewrite Z.div_1_r. lia.
  - by rewrite iter_pos_shr_1.
Qed.

Lemma shr_m_of_loc m l : shr_m (shr_record_of_loc m l) = m.
Proof. by destruct l as [|[]]. Qed.

Lemma round_nearest_even_bounds m l :
  m ≤ round_nearest_even m l ≤ m + 1.
Proof. destruct l as [|[]]; cbn; try case_match; lia. Qed.

Section FloatRound.
Variables prec emax : Z.
Hypothesis Hprec : 0 < prec.

Local Abbreviation fexp := (fexp prec emax).
Local Abbreviation emin := (emin prec emax).

(** The result of [binary_round_aux] on a mantissa that is not below
    its place: the mantissa shifted to its place, or its successor. *)
Lemma binary_round_aux_spec s m e l :
  let k := fexp (Zpos (digits2_pos m) + e) - e in
  0 ≤ k →
  ∃ m1 : Z,
    Zpos m / 2 ^ k ≤ m1 ≤ Zpos m / 2 ^ k + 1
    ∧ (l = loc_Exact → k = 0 → m1 = Zpos m)
    ∧ ((m1 = 0 ∧ binary_round_aux prec emax s (Zpos m) e l = S754_zero s)
       ∨ ∃ m2 e2,
           e + k ≤ e2 ≤ e + k + 1
           ∧ Zpos m2 * 2 ^ (e2 - (e + k)) = m1
           ∧ canonical_mantissa prec emax m2 e2 = true
           ∧ binary_round_aux prec emax s (Zpos m) e l
             = if e2 <=? emax - prec then S754_finite s m2 e2
               else S754_infinity s).
Proof.
  intros k Hk.
  pose proof (Zdigits2_bounds (Zpos m) ltac:(lia)) as Hd. cbn [Zdigits2] in Hd.
  set (d := Zpos (digits2_pos m)) in *.
  assert (0 < d) by (unfold d; lia).
  assert (0 < 2 ^ k) as Hpk by (apply Z.pow_pos_nonneg; lia).
  set (f := fexp (d + e)) in *.
  unfold binary_round_aux, shr_fexp. cbn [Zdigits2].
  fold d. fold f. fold k.
  destruct (shr_spec (shr_record_of_loc (Zpos m) l) e k) as [Hm' He'];
    [rewrite shr_m_of_loc; lia|done|].
  destruct (shr _ e k) as [mrs' e'] eqn:Hshr. cbn [fst snd] in Hm', He'.
  rewrite shr_m_of_loc in Hm'.
  set (m' := Zpos m / 2 ^ k) in *.
  assert (0 ≤ m') as Hm'0 by (apply Z.div_pos; lia).
  set (m1 := round_nearest_even (shr_m mrs') (loc_of_shr_record mrs')).
  pose proof (round_nearest_even_bounds (shr_m mrs') (loc_of_shr_record mrs'))
    as Hm1. fold m1 in Hm1. rewrite Hm' in Hm1.
  exists m1. split; [done|]. split.
  { intros -> Hk0. unfold m1. rewrite Hk0 in Hshr. cbn in Hshr.
    by injection Hshr as <- <-. }
  destruct (decide (m1 = 0)) as [Hz | Hnz].
  { left. split; [done|]. rewrite Hz. cbn [Zdigits2].
    destruct (shr _ e' _) as [mrs'' e''] eqn:Hshr2.
    assert (shr_m mrs'' = 0) as ->; [|done].
    unfold shr in Hshr2. destruct (fexp (0 + e') - e') as [|p|p];
      injection Hshr2 as <- <-; [done| |done].
    rewrite iter_pos_shr_1 by done. cbn [shr_record_of_loc shr_m].
    apply Z.div_0_l. pose proof (Z.pow_pos_nonneg 2 (Zpos p)). lia. }
  right. assert (0 < m1) as Hm1pos by lia.
  pose proof (Zdigits2_bounds m1 Hm1pos) as Hd1.
  set (d1 := Zdigits2 m1) in *.
  assert (0 < d1) by (unfold d1; destruct m1; cbn; lia).
  (* the place of the rounded mantissa *)
  assert (fexp (d1 + e') = e' ∧ 2 ^ (d1 - 1) ≤ m1 < 2 ^ d1
          ∨ fexp (d1 + e') = e' + 1 ∧ m1 = 2 ^ (d1 - 1) ∧ 1 < d1) as Hplace.
  { subst e'. destruct (decide (m' = 0)) as [Hm'z | Hm'nz].
    - (* the mantissa was shifted out *)
      assert (m1 = 1) as Hone by lia.
      assert (d1 = 1) as Hd1one.
      { unfold d1. rewrite Hone. reflexivity. }
      left. split; [|done]. rewrite Hd1one.
      assert (Zpos m < 2 ^ k) as Hlt.
      { apply Z.div_small_iff in Hm'z; lia. }
      assert (d ≤ k).
      { destruct (decide (d ≤ k)); [done|].
        assert (2 ^ k ≤ 2 ^ (d - 1)) by (apply Z.pow_le_mono_r; lia). lia. }
      unfold k, f, SpecFloat.fexp in *. lia.
    - assert (0 < m') by lia.
      assert (k < d) as Hkd.
      { destruct (decide (k < d)); [done|].
        assert (2 ^ d ≤ 2 ^ k) by (apply Z.pow_le_mono_r; lia).
        assert (m' = 0) by (apply Z.div_small; lia). lia. }
      assert (2 ^ (d - k - 1) ≤ m' < 2 ^ (d - k)) as Hm'b.
      { split.
        - apply Z.div_le_lower_bound; [done|].
          rewrite <- Z.pow_add_r by lia. replace (k + (d - k - 1)) with (d - 1) by lia.
          lia.
        - apply Z.div_lt_upper_bound; [done|].
          rewrite <- Z.pow_add_r by lia. replace (k + (d - k)) with d by lia. lia. }
      destruct (decide (m1 < 2 ^ (d - k))) as [Hsame | Hcarry].
      + assert (d1 = d - k) as Hd1e.
        { apply Zdigits2_unique; [|done]. lia. }
        left. split; [|done]. rewrite Hd1e.
        replace (d - k + (e + k)) with (d + e) by lia. fold f. unfold k. lia.
      + assert (m1 = 2 ^ (d - k)) as Hm1e by lia.
        assert (d1 = d - k + 1) as Hd1e.
        { apply Zdigits2_unique; [|done].
          replace (d - k + 1 - 1) with (d - k) by lia. rewrite Hm1e.
          split; [lia|]. apply Z.pow_lt_mono_r; lia. }
        rewrite Hd1e. replace (d - k + 1 + (e + k)) with (d + e + 1) by lia.
        replace (d - k + 1 - 1) with (d - k) by lia.
        assert (fexp (d + e + 1) = f ∨ fexp (d + e + 1) = f + 1) as [Hf | Hf]
          by (unfold f, SpecFloat.fexp; lia).
        * left. split; [unfold k; lia|]. rewrite Hm1e. split; [lia|].
          apply Z.pow_lt_mono_r; lia.
        * right. split; [unfold k; lia|]. split; [done|lia]. }
  destruct (shr_spec (shr_record_of_loc m1 loc_Exact) e' (fexp (d1 + e') - e'))
    as [Hm2 He2]; [cbn; lia|destruct Hplace as [[-> _] | [-> _]]; lia|].
  fold d1.
  destruct (shr _ e' _) as [mrs'' e''] eqn:Hshr2. cbn [fst snd] in Hm2, He2.
  cbn [shr_record_of_loc shr_m] in Hm2.
  destruct Hplace as [[Hf Hb] | (Hf & Hm1e & Hd1gt)]; rewrite Hf in Hm2, He2.
  - replace (e' - e') with 0 in * by lia. rewrite Z.div_1_r in Hm2.
    rewrite Hm2. destruct m1 as [|q|q] eqn:Hq; [lia| |lia].
    exists q, e'. subst e'. split; [lia|]. split.
    { replace (e + k - (e + k)) with 0 by lia. lia. }
    split.
    { unfold canonical_mantissa. apply Z.eqb_eq.
      replace (Zpos (digits2_pos q)) with d1 by done. lia. }
    by replace e'' with (e + k) by lia.
  - replace (e' + 1 - e') with 1 in * by lia.
    assert (shr_m mrs'' = 2 ^ (d1 - 2)) as Hm2e.
    { rewrite Hm2, Hm1e. replace (d1 - 1) with (1 + (d1 - 2)) by lia.
      rewrite Z.pow_add_r by lia. rewrite Z.mul_comm, Z.div_mul; lia. }
    assert (0 < 2 ^ (d1 - 2)) by (apply Z.pow_pos_nonneg; lia).
    rewrite Hm2e.
    destruct (2 ^ (d1 - 2)) as [|q|q] eqn:Hq; [lia| |lia].
    exists q, (e' + 1). subst e'. split; [lia|]. split.
    { replace (e + k + 1 - (e + k)) with 1 by lia. rewrite Hm1e.
      replace (d1 - 1) with (1 + (d1 - 2)) by lia.
      rewrite Z.pow_add_r by lia. lia. }
    split.
    { unfold canonical_mantissa. apply Z.eqb_eq.
      assert (Zdigits2 (Zpos q) = d1 - 1) as Hdq.
      { apply Zdigits2_unique; [|done]. rewrite <- Hq.
        replace (d1 - 1 - 1) with (d1 - 2) by lia. split; [lia|].
        apply Z.pow_lt_mono_r; lia. }
      cbn [Zdigits2] in Hdq. rewrite Hdq.
      replace (d1 - 1 + (e + k + 1)) with (d1 + (e + k)) by lia. lia. }
    by replace e'' with (e + k + 1) by lia.
Qed.

End FloatRound.

Lemma bpow_pos e : (0 < bpow e)%R.
Proof. apply powerRZ_lt. lra. Qed.

Lemma bpow_add a b : bpow (a + b) = (bpow a * bpow b)%R.
Proof. apply powerRZ_add. lra. Qed.

Lemma bpow_IZR k : 0 ≤ k → bpow k = IZR (2 ^ k).
Proof.
  intros Hk. destruct k as [|p|p]; [done| |lia].
  symmetry. apply (Zpower_pos_powerRZ 2 p).
Qed.

Lemma bpow_le a b : a ≤ b → (bpow a <= bpow b)%R.
Proof.
  intros Hab. replace b with (a + (b - a)) by lia. rewrite bpow_add.
  rewrite (bpow_IZR (b - a)) by lia.
  assert (1 ≤ 2 ^ (b - a)) as H1 by (pose proof (Z.pow_pos_nonneg 2 (b - a)); lia).
  apply IZR_le in H1. pose proof (bpow_pos a). nra.
Qed.

(** An integer and its quotient by a power of two, as reals. *)
Lemma div_pow2_real m k e :
  0 ≤ m → 0 ≤ k →
  (IZR (m / 2 ^ k) * bpow (e + k) <= IZR m * bpow e
   ∧ IZR (m + 1) * bpow e <= (IZR (m / 2 ^ k) + 1) * bpow (e + k))%R.
Proof.
  intros Hm Hk. rewrite bpow_add, (bpow_IZR k) by done.
  assert (0 < 2 ^ k) as Hp by (apply Z.pow_pos_nonneg; lia).
  pose proof (Z.div_mod m (2 ^ k) ltac:(lia)) as Hdm.
  pose proof (Z.mod_pos_bound m (2 ^ k) Hp) as Hmod.
  assert (m / 2 ^ k * 2 ^ k ≤ m) as H1 by lia.
  assert (m + 1 ≤ (m / 2 ^ k + 1) * 2 ^ k) as H2 by lia.
  apply IZR_le in H1, H2. rewrite mult_IZR in H1, H2. rewrite !plus_IZR in *.
  pose proof (Rmult_le_compat_r (bpow e) _ _ (Rlt_le _ _ (bpow_pos e)) H1).
  pose proof (Rmult_le_compat_r (bpow e) _ _ (Rlt_le _ _ (bpow_pos e)) H2).
  split; lra.
Qed.

Section RoundReal.
Variables prec emax : Z.
Hypothesis Hprec : 0 < prec.

(** Rounding in the normal range: the result is a float of the format
    within the relative error [2^(1-prec)] of every real between the
    mantissa and its successor. *)
Lemma binary_round_aux_relerr s m e l :
  let d := Zpos (digits2_pos m) in
  prec ≤ d → emin prec emax ≤ d + e - prec → d + e + 1 ≤ emax →
  ∃ m2 e2,
    binary_round_aux prec emax s (Zpos m) e l = S754_finite s m2 e2
    ∧ bounded prec emax m2 e2 = true
    ∧ Zpos (digits2_pos m2) = prec
    ∧ d + e - prec ≤ e2 ≤ d + e - prec + 1
    ∧ (l = loc_Exact → d = prec → m2 = m ∧ e2 = e)
    ∧ ∀ y : R,
        (IZR (Zpos m) * bpow e <= y <= IZR (Zpos m + 1) * bpow e)%R →
        (y * (1 - bpow (1 - prec)) <= IZR (Zpos m2) * bpow e2
         <= y * (1 + bpow (1 - prec)))%R.
Proof.
  intros d Hd Hnorm Hover.
  assert (fexp prec emax (d + e) = d + e - prec) as Hf
    by (unfold fexp; lia).
  destruct (binary_round_aux_spec prec emax Hprec s m e l)
    as (m1 & Hm1 & Hex & Hres); fold d; rewrite ?Hf; [lia|].
  fold d in Hm1, Hex, Hres. rewrite Hf in Hm1, Hex, Hres.
  replace (d + e - prec - e) with (d - prec) in * by lia.
  set (k := d - prec) in *.
  pose proof (Zdigits2_bounds (Zpos m) ltac:(lia)) as Hdb.
  cbn [Zdigits2] in Hdb. fold d in Hdb.
  assert (0 < 2 ^ k) as Hpk by (apply Z.pow_pos_nonneg; lia).
  assert (2 ^ (prec - 1) ≤ Zpos m / 2 ^ k) as Hq.
  { apply Z.div_le_lower_bound; [done|]. rewrite <- Z.pow_add_r by lia.
    replace (k + (prec - 1)) with (d - 1) by lia. lia. }
  assert (0 < 2 ^ (prec - 1)) by (apply Z.pow_pos_nonneg; lia).
  destruct Hres as [[Hz _] | (m2 & e2 & He2 & Hm2 & Hcan & Hres)]; [lia|].
  replace (e + k) with (d + e - prec) in * by lia.
  exists m2, e2.
  assert ((e2 <=? emax - prec) = true) as Hle by (apply Z.leb_le; lia).
  rewrite Hle in Hres. split; [done|].
  assert (Zpos (digits2_pos m2) = prec) as Hd2.
  { pose proof Hcan as Hc. unfold canonical_mantissa in Hc.
    apply Z.eqb_eq in Hc. unfold fexp in Hc.
    destruct (decide (e2 = d + e - prec)) as [He2e | He2e]; [|lia].
    rewrite He2e, Z.sub_diag in Hm2. cbn in Hm2.
    pose proof (Zdigits2_bounds (Zpos m2) ltac:(lia)) as Hb2.
    cbn [Zdigits2] in Hb2.
    assert (prec ≤ Zpos (digits2_pos m2)); [|lia].
    destruct (decide (prec ≤ Zpos (digits2_pos m2))); [done|].
    assert (2 ^ Zpos (digits2_pos m2) ≤ 2 ^ (prec - 1))
      by (apply Z.pow_le_mono_r; lia).
    lia. }
  split; [|split; [done|split; [lia|split]]].
  { unfold bounded. by rewrite Hcan, Hle. }
  { intros Hl Hdp. assert (k = 0) as Hk0 by lia.
    specialize (Hex Hl Hk0). subst m1.
    assert (e2 = d + e - prec) as ->.
    { destruct (decide (e2 = d + e - prec)) as [|Hne]; [done|exfalso].
      assert (e2 - (d + e - prec) = 1) as H1 by lia. rewrite H1 in Hm2.
      pose proof (Zdigits2_bounds (Zpos m2) ltac:(lia)) as Hb2.
      cbn [Zdigits2] in Hb2. rewrite Hd2 in Hb2.
      rewrite Hdp in Hdb.
      replace prec with (1 + (prec - 1)) in Hb2 at 2 by lia.
      rewrite Z.pow_add_r in Hb2 by lia.
      replace prec with (1 + (prec - 1)) in Hdb at 2 by lia.
      rewrite Z.pow_add_r in Hdb by lia. lia. }
    replace (d + e - prec - (d + e - prec)) with 0 in Hm2 by lia.
    split; [|lia]. cbn in Hm2. lia. }
  intros y Hy.
  destruct (div_pow2_real (Zpos m) k e ltac:(lia) ltac:(lia)) as [HL HU].
  replace (e + k) with (d + e - prec) in * by lia.
  set (Q := IZR (Zpos m / 2 ^ k)) in *.
  set (u := bpow (d + e - prec)) in *.
  set (eps := bpow (1 - prec)).
  assert (0 < u)%R as Hu by apply bpow_pos.
  assert (0 < eps)%R as Heps by apply bpow_pos.
  (* the value of the result *)
  assert (IZR (Zpos m2) * bpow e2 = IZR m1 * u)%R as Hval.
  { rewrite <- Hm2, mult_IZR.
    replace e2 with ((e2 - (d + e - prec)) + (d + e - prec)) at 1 by lia.
    rewrite bpow_add, <- (bpow_IZR (e2 - (d + e - prec))) by lia.
    fold u. lra. }
  rewrite Hval.
  assert (Q <= IZR m1 <= Q + 1)%R as Hm1r.
  { destruct Hm1 as [H1 H2]. apply IZR_le in H1, H2.
    rewrite plus_IZR in H2. unfold Q. lra. }
  assert (bpow (prec - 1) <= Q)%R as HQ.
  { unfold Q. rewrite (bpow_IZR (prec - 1)) by lia. by apply IZR_le. }
  assert (bpow (prec - 1) * eps = 1)%R as Hone.
  { unfold eps. rewrite <- bpow_add.
    replace (prec - 1 + (1 - prec)) with 0 by lia. done. }
  (* one unit in the last place is small against the value *)
  assert (u <= Q * u * eps)%R as Hulp.
  { assert (0 <= (Q - bpow (prec - 1)) * (u * eps))%R
      by (apply Rmult_le_pos; [lra|apply Rlt_le, Rmult_lt_0_compat; lra]).
    nra. }
  assert (Q * u * eps <= y * eps)%R
    by (apply Rmult_le_compat_r; lra).
  assert (Q * u <= IZR m1 * u <= (Q + 1) * u)%R
    by (split; apply Rmult_le_compat_r; lra).
  rewrite plus_IZR in HU, Hy. split; lra.
Qed.

End RoundReal.

Section Operations.
Variables prec emax : Z.
Hypothesis Hprec : 0 < prec.

Local Abbreviation fexp := (fexp prec emax).
Local Abbreviation emin := (emin prec emax).

(** The mantissa aligned by [binary_round] is not below its place. *)
Lemma shl_align_fexp m e :
  let d := Zpos (digits2_pos m) in
  ∃ mz ez,
    shl_align m e (fexp (d + e)) = (mz, ez)
    ∧ Zpos (digits2_pos mz) + ez = d + e
    ∧ ez ≤ fexp (d + e)
    ∧ ez ≤ e ∧ Zpos mz = Zpos m * 2 ^ (e - ez)
    ∧ (fexp (d + e) ≤ e → ez = fexp (d + e)).
Proof.
  intros d. unfold shl_align.
  destruct (fexp (d + e) - e) as [|p|p] eqn:Hk.
  - exists m, e. split_and!; [done|done|lia|lia| |lia].
    rewrite Z.sub_diag. lia.
  - exists m, e. split_and!; [done|done|lia|lia| |lia].
    rewrite Z.sub_diag. lia.
  - exists (Pos.iter xO m p), (fexp (d + e)). split_and!; [done| |lia|lia| |done].
    + rewrite digits2_pos_iter. fold d. lia.
    + rewrite Zpos_iter_xO. do 2 f_equal. lia.
Qed.

Lemma binary_round_valid s m e :
  valid_binary prec emax (binary_round prec emax s m e) = true.
Proof.
  unfold binary_round.
  destruct (shl_align_fexp m e) as (mz & ez & -> & Hd & Hle & _).
  destruct (binary_round_aux_spec prec emax Hprec s mz ez loc_Exact)
    as (m1 & _ & _ & Hres); [rewrite Hd; lia|].
  destruct Hres as [[_ ->] | (m2 & e2 & _ & _ & Hcan & ->)]; [done|].
  destruct (e2 <=? emax - prec) eqn:Hb; [|done].
  cbn. unfold bounded. by rewrite Hcan, Hb.
Qed.

Lemma binary_normalize_valid m e sz :
  valid_binary prec emax (binary_normalize prec emax m e sz) = true.
Proof. destruct m; [done|apply binary_round_valid..]. Qed.

(** A mantissa of at most [prec] digits in the normal range is kept. *)
Lemma binary_round_exact s m e :
  let d := Zpos (digits2_pos m) in
  d ≤ prec → emin ≤ d + e - prec → d + e + 1 ≤ emax →
  ∃ mz,
    binary_round prec emax s m e = S754_finite s mz (d + e - prec)
    ∧ Zpos mz = Zpos m * 2 ^ (prec - d)
    ∧ Zpos (digits2_pos mz) = prec
    ∧ bounded prec emax mz (d + e - prec) = true.
Proof.
  intros d Hd Hnorm Hover. unfold binary_round.
  assert (fexp (d + e) = d + e - prec) as Hf by (unfold SpecFloat.fexp; lia).
  destruct (shl_align_fexp m e) as (mz & ez & -> & Hdz & _ & _ & Hmz & Hez).
  fold d in Hdz, Hmz, Hez. rewrite Hf in Hez. rewrite Hez in * by lia.
  assert (Zpos (digits2_pos mz) = prec) as Hdp by lia.
  destruct (binary_round_aux_relerr prec emax Hprec s mz (d + e - prec) loc_Exact)
    as (m2 & e2 & -> & Hb & _ & _ & Hex & _); [lia..|].
  destruct Hex as [-> ->]; [done..|].
  exists mz. split_and!; [done| |done..].
  rewrite Hmz. do 2 f_equal. lia.
Qed.

Lemma Zdigits2_mul a b :
  Zpos (digits2_pos a) + Zpos (digits2_pos b) - 1 ≤ Zpos (digits2_pos (a * b))
  ≤ Zpos (digits2_pos a) + Zpos (digits2_pos b).
Proof.
  pose proof (Zdigits2_bounds (Zpos a) ltac:(lia)) as Ha.
  pose proof (Zdigits2_bounds (Zpos b) ltac:(lia)) as Hb.
  pose proof (Zdigits2_bounds (Zpos (a * b)) ltac:(lia)) as Hab.
  cbn [Zdigits2] in *.
  set (da := Zpos (digits2_pos a)) in *. set (db := Zpos (digits2_pos b)) in *.
  set (dab := Zpos (digits2_pos (a * b))) in *.
  assert (0 < da ∧ 0 < db ∧ 0 < dab) as (? & ? & ?) by (unfold da, db, dab; lia).
  rewrite Pos2Z.inj_mul in Hab.
  assert (2 ^ (da - 1) * 2 ^ (db - 1) ≤ Zpos a * Zpos b) as Hlo.
  { apply Z.mul_le_mono_nonneg; try lia; apply Z.pow_nonneg; lia. }
  assert (Zpos a * Zpos b < 2 ^ da * 2 ^ db) as Hhi.
  { apply Z.mul_lt_mono_nonneg; lia. }
  rewrite <- Z.pow_add_r in Hlo, Hhi by lia.
  split.
  - destruct (decide (da + db - 1 ≤ dab)); [done|].
    assert (2 ^ dab ≤ 2 ^ (da - 1 + (db - 1))) by (apply Z.pow_le_mono_r; lia).
    lia.
  - destruct (decide (dab ≤ da + db)); [done|].
    assert (2 ^ (da + db) ≤ 2 ^ (dab - 1)) by (apply Z.pow_le_mono_r; lia).
    lia.
Qed.

(** Product of two normal floats, away from overflow and underflow. *)
Lemma SFmul_relerr sx mx ex sy my ey :
  Zpos (digits2_pos mx) = prec → Zpos (digits2_pos my) = prec →
  emin + 1 ≤ prec + ex + ey → 2 * prec + ex + ey + 1 ≤ emax →
  ∃ m2 e2,
    SFmul prec emax (S754_finite sx mx ex) (S754_finite sy my ey)
    = S754_finite (xorb sx sy) m2 e2
    ∧ bounded prec emax m2 e2 = true
    ∧ Zpos (digits2_pos m2) = prec
    ∧ prec + ex + ey - 1 ≤ e2 ≤ prec + ex + ey + 1
    ∧ let y := ((IZR (Zpos mx) * bpow ex) * (IZR (Zpos my) * bpow ey))%R in
      (y * (1 - bpow (1 - prec)) <= IZR (Zpos m2) * bpow e2
       <= y * (1 + bpow (1 - prec)))%R.
Proof.
  intros Hdx Hdy Hlo Hhi. cbn [SFmul].
  pose proof (Zdigits2_mul mx my) as Hd. rewrite Hdx, Hdy in Hd.
  destruct (binary_round_aux_relerr prec emax Hprec (xorb sx sy) (mx * my)
              (ex + ey) loc_Exact) as (m2 & e2 & -> & Hb & Hd2 & He2 & _ & Hy);
    [lia..|].
  exists m2, e2. do 3 (split; [done|]). split; [lia|]. cbv zeta. apply Hy.
  rewrite Pos2Z.inj_mul, plus_IZR, mult_IZR, bpow_add.
  pose proof (bpow_pos ex). pose proof (bpow_pos ey).
  assert (0 < bpow ex * bpow ey)%R by (apply Rmult_lt_0_compat; lra).
  split; nra.
Qed.

(** Quotient of two normal floats, away from overflow and underflow:
    the result is near every real [y] with [y * divisor = dividend]. *)
Lemma SFdiv_relerr sx mx ex sy my ey :
  Zpos (digits2_pos mx) = prec → Zpos (digits2_pos my) = prec →
  emin ≤ ex - ey - prec → ex - ey + 2 ≤ emax →
  ∃ m2 e2,
    SFdiv prec emax (S754_finite sx mx ex) (S754_finite sy my ey)
    = S754_finite (xorb sx sy) m2 e2
    ∧ bounded prec emax m2 e2 = true
    ∧ Zpos (digits2_pos m2) = prec
    ∧ ex - ey - prec ≤ e2 ≤ ex - ey - prec + 2
    ∧ ∀ y : R,
        (y * (IZR (Zpos my) * bpow ey) = IZR (Zpos mx) * bpow ex)%R →
        (y * (1 - bpow (1 - prec)) <= IZR (Zpos m2) * bpow e2
         <= y * (1 + bpow (1 - prec)))%R.
Proof.
  intros Hdx Hdy Hlo Hhi. cbn [SFdiv]. unfold SFdiv_core_binary.
  cbn [Zdigits2]. rewrite Hdx, Hdy.
  replace (prec + ex - (prec + ey)) with (ex - ey) by lia.
  assert (fexp (ex - ey) = ex - ey - prec) as -> by (unfold SpecFloat.fexp; lia).
  replace (Z.min (ex - ey - prec) (ex - ey)) with (ex - ey - prec) by lia.
  replace (ex - ey - (ex - ey - prec)) with prec by lia.
  destruct prec as [|pp|pp] eqn:Hp; [lia| |lia]. rewrite <- Hp in *.
  rewrite Z.shiftl_mul_pow2 by lia.
  pose proof (Zdigits2_bounds (Zpos mx) ltac:(lia)) as Hbx.
  pose proof (Zdigits2_bounds (Zpos my) ltac:(lia)) as Hby.
  cbn [Zdigits2] in Hbx, Hby. rewrite Hdx in Hbx. rewrite Hdy in Hby.
  assert (0 < 2 ^ prec) by (apply Z.pow_pos_nonneg; lia).
  assert (0 < 2 ^ (prec - 1)) by (apply Z.pow_pos_nonneg; lia).
  assert (2 ^ prec = 2 * 2 ^ (prec - 1)) as Hpp.
  { rewrite <- Z.pow_succ_r by lia. f_equal. lia. }
  pose proof (Z.div_eucl_eq (Zpos mx * 2 ^ prec) (Zpos my) ltac:(lia)) as Heq.
  pose proof (Z.mod_pos_bound (Zpos mx * 2 ^ prec) (Zpos my) ltac:(lia)) as Hr.
  unfold Z.modulo in Hr.
  destruct (Z.div_eucl (Zpos mx * 2 ^ prec) (Zpos my)) as [q r].
  assert (2 ^ (prec - 1) ≤ q < 2 ^ (prec + 1)) as Hq.
  { replace (prec + 1) with (1 + 1 + (prec - 1)) by lia.
    rewrite !Z.pow_add_r by lia. change (2 ^ 1) with 2. nia. }
  destruct q as [|q|q]; [lia| |lia].
  pose proof (Zdigits2_bounds (Zpos q) ltac:(lia)) as Hbq. cbn [Zdigits2] in Hbq.
  set (dq := Zpos (digits2_pos q)) in *.
  assert (prec ≤ dq ≤ prec + 1) as Hdq.
  { split.
    - destruct (decide (prec ≤ dq)); [done|].
      assert (2 ^ dq ≤ 2 ^ (prec - 1)) by (apply Z.pow_le_mono_r; unfold dq; lia).
      lia.
    - destruct (decide (dq ≤ prec + 1)); [done|].
      assert (2 ^ (prec + 1) ≤ 2 ^ (dq - 1)) by (apply Z.pow_le_mono_r; lia).
      lia. }
  destruct (binary_round_aux_relerr prec emax Hprec (xorb sx sy) q
              (ex - ey - prec) (new_location (Zpos my) r))
    as (m2 & e2 & -> & Hb & Hd2 & He2 & _ & Hy); [fold dq; lia..|].
  fold dq in He2.
  exists m2, e2. split_and!; [done|done|done|lia|lia|]. intros y Hyd. apply Hy.
  (* the quotient lies between [q] and [q + 1] units *)
  assert (bpow ex = bpow (ex - ey - prec) * IZR (2 ^ prec) * bpow ey)%R as Hex.
  { rewrite <- (bpow_IZR prec), <- !bpow_add by lia. f_equal. lia. }
  assert (Zpos my * Zpos q ≤ Zpos mx * 2 ^ prec) as H1 by lia.
  assert (Zpos mx * 2 ^ prec ≤ Zpos my * (Zpos q + 1)) as H2 by lia.
  apply IZR_le in H1, H2. rewrite !mult_IZR in H1, H2.
  rewrite plus_IZR in *.
  pose proof (bpow_pos ey). pose proof (bpow_pos (ex - ey - prec)).
  assert (0 < IZR (Zpos my))%R by (apply IZR_lt; lia).
  set (D := (IZR (Zpos my) * bpow ey)%R) in *.
  assert (0 < D)%R as HD by (apply Rmult_lt_0_compat; lra).
  rewrite Hex in Hyd.
  set (w := (bpow (ex - ey - prec) * bpow ey)%R).
  assert (0 < w)%R as Hw by (apply Rmult_lt_0_compat; lra).
  pose proof (Rmult_le_compat_r w _ _ (Rlt_le _ _ Hw) H1) as H1'.
  pose proof (Rmult_le_compat_r w _ _ (Rlt_le _ _ Hw) H2) as H2'.
  split; apply (Rmult_le_reg_r D); [done| |done|]; unfold D, w in *; lra.
Qed.

(** Order of the floats of the format. *)
Lemma SFltb_gap m1 e1 m2 e2 :
  canonical_mantissa prec emax m1 e1 = true →
  canonical_mantissa prec emax m2 e2 = true →
  SFltb (S754_finite false m1 e1) (S754_finite false m2 e2) = true →
  ((IZR (Zpos m1) + 1) * bpow e1 <= IZR (Zpos m2) * bpow e2)%R.
Proof.
  unfold canonical_mantissa, SFltb, SFcompare. intros Hc1%Z.eqb_eq Hc2%Z.eqb_eq.
  unfold SpecFloat.fexp in Hc1, Hc2.
  destruct (Z.compare_spec e1 e2) as [-> | Hlt | Hgt]; [| |done].
  - fold (Pos.compare m1 m2). destruct (Pos.compare_spec m1 m2) as [|Hm|]; try done.
    intros _. assert (Zpos m1 + 1 ≤ Zpos m2) as H by lia.
    apply IZR_le in H. rewrite plus_IZR in H. pose proof (bpow_pos e2). nra.
  - intros _.
    pose proof (Zdigits2_bounds (Zpos m1) ltac:(lia)) as H1.
    pose proof (Zdigits2_bounds (Zpos m2) ltac:(lia)) as H2.
    cbn [Zdigits2] in H1, H2.
    assert (Zpos (digits2_pos m2) = prec) as Hd2 by lia.
    assert (Zpos (digits2_pos m1) ≤ prec) as Hd1 by lia.
    rewrite Hd2 in H2.
    assert (Zpos m1 + 1 ≤ 2 ^ prec) as Hm1.
    { assert (2 ^ Zpos (digits2_pos m1) ≤ 2 ^ prec)
        by (apply Z.pow_le_mono_r; lia). lia. }
    destruct H2 as [H2 _]. apply IZR_le in Hm1, H2.
    rewrite plus_IZR in Hm1.
    rewrite <- (bpow_IZR prec) in Hm1 by lia.
    rewrite <- (bpow_IZR (prec - 1)) in H2 by lia.
    pose proof (bpow_pos e1). pose proof (bpow_pos e2).
    assert (bpow (prec + e1) <= bpow (prec - 1 + e2))%R as Hle
      by (apply bpow_le; lia).
    rewrite !bpow_add in Hle.
    pose proof (Rmult_le_compat_r (bpow e1) _ _ (Rlt_le _ _ H) Hm1).
    pose proof (Rmult_le_compat_r (bpow e2) _ _ (Rlt_le _ _ H0) H2).
    lra.
Qed.

Lemma SFleb_real m1 e1 m2 e2 :
  canonical_mantissa prec emax m1 e1 = true →
  canonical_mantissa prec emax m2 e2 = true →
  SFleb (S754_finite false m1 e1) (S754_finite false m2 e2) = true →
  (IZR (Zpos m1) * bpow e1 <= IZR (Zpos m2) * bpow e2)%R.
Proof.
  intros Hc1 Hc2 Hle.
  destruct (SFltb (S754_finite false m1 e1) (S754_finite false m2 e2)) eqn:Hlt.
  - pose proof (SFltb_gap m1 e1 m2 e2 Hc1 Hc2 Hlt). pose proof (bpow_pos e1). lra.
  - revert Hle Hlt. unfold SFleb, SFltb, SFcompare.
    destruct (Z.compare_spec e1 e2) as [-> | |]; try done.
    fold (Pos.compare m1 m2).
    destruct (Pos.compare_spec m1 m2) as [-> | |]; try done.
Qed.

Lemma shl_align_le m e e' :
  e' ≤ e → Zpos (shl_align m e e').1 = Zpos m * 2 ^ (e - e').
Proof.
  intros Hle. unfold shl_align. destruct (e' - e) as [|p|p] eqn:Hk; [|lia|].
  - cbn. replace (e - e') with 0 by lia. lia.
  - cbn [fst]. rewrite Zpos_iter_xO. do 2 f_equal. lia.
Qed.

(** Sum of two positive floats, the first normal, away from overflow. *)
Lemma SFadd_relerr mx ex my ey :
  let Px := Zpos (digits2_pos mx) + ex in
  let Py := Zpos (digits2_pos my) + ey in
  emin + prec ≤ Px → Px + 2 ≤ emax → Py + 2 ≤ emax →
  ∃ m2 e2,
    SFadd prec emax (S754_finite false mx ex) (S754_finite false my ey)
    = S754_finite false m2 e2
    ∧ bounded prec emax m2 e2 = true
    ∧ let y := (IZR (Zpos mx) * bpow ex + IZR (Zpos my) * bpow ey)%R in
      (y * (1 - bpow (1 - prec)) <= IZR (Zpos m2) * bpow e2
       <= y * (1 + bpow (1 - prec)))%R.
Proof.
  intros Px Py Hnorm Hox Hoy. cbn [SFadd cond_Zopp].
  set (ez := Z.min ex ey).
  rewrite !shl_align_le by (unfold ez; lia).
  pose proof (Zdigits2_bounds (Zpos mx) ltac:(lia)) as Hbx.
  pose proof (Zdigits2_bounds (Zpos my) ltac:(lia)) as Hby.
  cbn [Zdigits2] in Hbx, Hby. unfold Px, Py in *. clear Px Py.
  set (dx := Zpos (digits2_pos mx)) in *. set (dy := Zpos (digits2_pos my)) in *.
  assert (0 < dx ∧ 0 < dy) as [Hdx Hdy] by (unfold dx, dy; lia).
  assert (0 ≤ ex - ez ∧ 0 ≤ ey - ez) as [Hex Hey] by (unfold ez; lia).
  assert (0 < 2 ^ (ex - ez)) as Hpx by (apply Z.pow_pos_nonneg; lia).
  assert (0 < 2 ^ (ey - ez)) as Hpy by (apply Z.pow_pos_nonneg; lia).
  set (S := Zpos mx * 2 ^ (ex - ez) + Zpos my * 2 ^ (ey - ez)).
  assert (0 < S) as HS by (unfold S; nia).
  destruct S as [|ps|ps] eqn:HeqS; [lia| |lia]. cbn [binary_normalize].
  pose proof (Zdigits2_bounds (Zpos ps) ltac:(lia)) as Hbs. cbn [Zdigits2] in Hbs.
  set (ds := Zpos (digits2_pos ps)) in *.
  assert (0 < ds) as Hds by (unfold ds; lia).
  assert (2 ^ (dx - 1) * 2 ^ (ex - ez) ≤ Zpos mx * 2 ^ (ex - ez)) as Hx1
    by (apply Z.mul_le_mono_nonneg_r; lia).
  assert (Zpos mx * 2 ^ (ex - ez) < 2 ^ dx * 2 ^ (ex - ez)) as Hx2
    by (apply Z.mul_lt_mono_pos_r; lia).
  assert (Zpos my * 2 ^ (ey - ez) < 2 ^ dy * 2 ^ (ey - ez)) as Hy2
    by (apply Z.mul_lt_mono_pos_r; lia).
  rewrite <- !Z.pow_add_r in Hx1, Hx2, Hy2 by lia.
  (* the magnitude of the sum *)
  assert (dx + ex ≤ ds + ez) as HPlo.
  { destruct (decide (dx + ex ≤ ds + ez)) as [|Hn]; [done|exfalso].
    assert (2 ^ ds ≤ 2 ^ (dx - 1 + (ex - ez))) as Hp
      by (apply Z.pow_le_mono_r; lia).
    lia. }
  assert (ds + ez ≤ Z.max (dx + ex) (dy + ey) + 1) as HPhi.
  { destruct (decide (ds + ez ≤ Z.max (dx + ex) (dy + ey) + 1)) as [|Hn];
      [done|exfalso].
    assert (2 ^ (dx + (ex - ez)) ≤ 2 ^ (ds - 2)) as H1
      by (apply Z.pow_le_mono_r; lia).
    assert (2 ^ (dy + (ey - ez)) ≤ 2 ^ (ds - 2)) as H2
      by (apply Z.pow_le_mono_r; lia).
    assert (2 ^ (ds - 1) = 2 * 2 ^ (ds - 2)) as Hd.
    { rewrite <- Z.pow_succ_r by lia. f_equal. lia. }
    lia. }
  unfold binary_round.
  destruct (shl_align_fexp ps ez) as (mz & ezz & -> & Hdz & Hle & Hlez & Hmz & _).
  fold ds in Hdz, Hle.
  assert (fexp (ds + ez) = ds + ez - prec) as Hf by (unfold SpecFloat.fexp; lia).
  rewrite Hf in Hle.
  destruct (binary_round_aux_relerr prec emax Hprec false mz ezz loc_Exact)
    as (m2 & e2 & -> & Hb & _ & _ & _ & Hy); [lia..|].
  exists m2, e2. do 2 (split; [done|]). cbv zeta.
  assert (IZR (Zpos mx) * bpow ex + IZR (Zpos my) * bpow ey
          = IZR (Zpos mz) * bpow ezz)%R as ->.
  { rewrite Hmz, mult_IZR, <- (bpow_IZR (ez - ezz)) by lia.
    rewrite Rmult_assoc, <- bpow_add.
    replace (ez - ezz + ezz) with ez by lia.
    rewrite <- HeqS. unfold S. rewrite plus_IZR, !mult_IZR.
    rewrite <- !bpow_IZR by lia.
    rewrite Rmult_plus_distr_r, !Rmult_assoc, <- !bpow_add.
    by replace (ex - ez + ez) with ex by lia;
       replace (ey - ez + ez) with ey by lia. }
  apply Hy. rewrite plus_IZR. pose proof (bpow_pos ezz). split; lra.
Qed.

End Operations.

(** ** Samples that [calcHist] counts

    The bin index of a sample for a range that starts at 0, in
    [double]. *)

Lemma valid32_inv s m e :
  valid32 (S754_finite s m e) = true →
  canonical_mantissa 24 128 m e = true
  ∧ Zpos (digits2_pos m) ≤ 24 ∧ -149 ≤ e ≤ 104.
Proof.
  unfold valid32, valid_binary, bounded.
  intros [Hc Hb%Z.leb_le]%andb_prop. split; [done|].
  unfold canonical_mantissa in Hc. apply Z.eqb_eq in Hc.
  unfold fexp, emin in Hc. lia.
Qed.

(** The promotion of a [float] to [double] is exact. *)
Lemma of_f32_finite s m e :
  valid32 (S754_finite s m e) = true →
  ∃ mz ez,
    F64.of_f32 (S754_finite s m e) = S754_finite s mz ez
    ∧ Zpos (digits2_pos mz) = 53
    ∧ -201 ≤ ez ≤ 75
    ∧ (IZR (Zpos mz) * bpow ez = IZR (Zpos m) * bpow e)%R.
Proof.
  intros (_ & Hd & He)%valid32_inv.
  assert (F64.of_f32 (S754_finite s m e) = binary_round 53 1024 s m e) as ->
    by (by destruct s).
  destruct (binary_round_exact 53 1024 ltac:(lia) s m e)
    as (mz & -> & Hmz & Hdz & _); [unfold emin; lia..|].
  set (d := Zpos (digits2_pos m)) in *.
  exists mz, (d + e - 53). split_and!; [done|done|unfold d; lia|lia|].
  rewrite Hmz, mult_IZR, <- (bpow_IZR (53 - d)) by lia.
  rewrite Rmult_assoc, <- bpow_add. do 2 f_equal. lia.
Qed.

Lemma of_Z_finite n :
  0 < n < 2 ^ 53 →
  ∃ mz ez,
    F64.of_Z n = S754_finite false mz ez
    ∧ Zpos (digits2_pos mz) = 53
    ∧ -52 ≤ ez ≤ 0
    ∧ (IZR (Zpos mz) * bpow ez = IZR n)%R.
Proof.
  intros Hn. destruct n as [|p|p]; [lia| |lia].
  unfold F64.of_Z, binary_normalize, F64.prec, F64.emax.
  pose proof (Zdigits2_bounds (Zpos p) ltac:(lia)) as Hb. cbn [Zdigits2] in Hb.
  set (d := Zpos (digits2_pos p)) in *.
  assert (0 < d) by (unfold d; lia).
  assert (d ≤ 53).
  { destruct (decide (d ≤ 53)); [done|].
    assert (2 ^ 53 ≤ 2 ^ (d - 1)) by (apply Z.pow_le_mono_r; lia). lia. }
  destruct (binary_round_exact 53 1024 ltac:(lia) false p 0)
    as (mz & -> & Hmz & Hdz & _); fold d; [unfold emin; lia..|].
  fold d in Hmz.
  exists mz, (d + 0 - 53). split_and!; [done|done|lia|lia|].
  rewrite Hmz, mult_IZR, <- (bpow_IZR (53 - d)) by lia.
  rewrite Rmult_assoc, <- bpow_add.
  replace (53 - d + (d + 0 - 53)) with 0 by lia. cbn. lra.
Qed.

(** The pair of [calcHist] for a range from 0 to a positive [float]. *)
Lemma uniranges_zero n mH eH :
  valid32 (S754_finite false mH eH) = true → 0 < n < 2 ^ 53 →
  ∃ ma ea,
    cv.uniranges n F32.zero (S754_finite false mH eH)
    = (S754_finite false ma ea, S754_zero true)
    ∧ Zpos (digits2_pos ma) = 53
    ∧ -180 ≤ ea ≤ 150
    ∧ ∀ y : R,
        (y * (IZR (Zpos mH) * bpow eH) = IZR n)%R →
        (y * (1 - bpow (-52)) <= IZR (Zpos ma) * bpow ea
         <= y * (1 + bpow (-52)))%R.
Proof.
  intros HvH Hn. unfold cv.uniranges.
  destruct (of_f32_finite false mH eH HvH) as (mh & eh & -> & Hdh & Heh & Hvh).
  destruct (of_Z_finite n Hn) as (mn & en & -> & Hdn & Hen & Hvn).
  change (F64.of_f32 F32.zero) with (S754_zero false).
  change (F64.sub (S754_finite false mh eh) (S754_zero false))
    with (S754_finite false mh eh).
  destruct (SFdiv_relerr 53 1024 ltac:(lia) false mn en false mh eh)
    as (ma & ea & Hdiv & _ & Hda & Hea & Hy); [done|done|unfold emin; lia|lia|].
  unfold F64.div, F64.prec, F64.emax. rewrite Hdiv. cbn [xorb].
  exists ma, ea. split_and!; [done|done|lia|lia|].
  intros y Hyn. apply Hy. rewrite Hvh, Hvn. done.
Qed.

Lemma floor_finite_pos m e (n : Z) :
  (IZR (Zpos m) * bpow e < IZR n)%R →
  ∃ z, floor (S754_finite false m e) = Some z ∧ 0 ≤ z < n.
Proof.
  intros Hlt. cbn [floor cond_Zopp]. destruct (Z.leb_spec 0 e) as [He | He].
  - eexists. split; [done|]. rewrite Z.shiftl_mul_pow2 by done.
    split; [pose proof (Z.pow_nonneg 2 e); lia|].
    apply lt_IZR. rewrite mult_IZR, <- bpow_IZR; done.
  - eexists. split; [done|]. rewrite Z.shiftr_div_pow2 by lia.
    split; [apply Z.div_pos; [lia|apply Z.pow_pos_nonneg; lia]|].
    apply lt_IZR.
    destruct (div_pow2_real (Zpos m) (- e) e ltac:(lia) ltac:(lia)) as [Hd _].
    replace (e + - e) with 0 in Hd by lia.
    change (bpow 0) with 1%R in Hd. lra.
Qed.

Lemma floor_finite_neg m e :
  ∃ z, floor (S754_finite true m e) = Some z ∧ z < 0.
Proof.
  cbn [floor cond_Zopp]. destruct (Z.leb_spec 0 e) as [He | He].
  - eexists. split; [done|]. rewrite Z.shiftl_mul_pow2 by done.
    pose proof (Z.pow_pos_nonneg 2 e). lia.
  - eexists. split; [done|]. rewrite Z.shiftr_div_pow2 by lia.
    apply Z.div_lt_upper_bound; [apply Z.pow_pos_nonneg; lia|lia].
Qed.

Lemma eps_delta :
  (0 < bpow (-52) ∧ 0 < bpow (-24)
   ∧ (1 + bpow (-52)) * (1 + bpow (-52)) < 1 + bpow (-24))%R.
Proof.
  pose proof (bpow_pos (-52)). pose proof (bpow_pos (-24)).
  assert (bpow (-52) = bpow (-24) * bpow (-28))%R as He
    by (by rewrite <- bpow_add).
  assert (bpow (-28) <= bpow (-2))%R as H28 by (apply bpow_le; lia).
  assert (bpow (-24) <= bpow 0)%R as H24 by (apply bpow_le; lia).
  assert (bpow (-2) * 4 = 1)%R as H2.
  { change 4%R with (IZR (2 ^ 2)). rewrite <- (bpow_IZR 2), <- bpow_add by lia.
    done. }
  assert (bpow 0 = 1)%R as H0' by done.
  pose proof (bpow_pos (-28)).
  split_and!; [done..|]. rewrite He.
  set (x := (bpow (-24) * bpow (-28))%R).
  assert (0 < x)%R by (apply Rmult_lt_0_compat; lra).
  assert (x <= bpow (-24) * / 4)%R by (apply Rmult_le_compat_l; lra).
  assert (x * x <= x * / 4)%R by (apply Rmult_le_compat_l; lra).
  lra.
Qed.

Section counted.
Variables (n : Z) (mM : positive) (eM : Z) (mH : positive) (eH : Z).
Hypothesis Hn : 0 < n ≤ INT_MAX.
Hypothesis HvM : valid32 (S754_finite false mM eM) = true.
Hypothesis HvH : valid32 (S754_finite false mH eH) = true.
Hypothesis Hlt :
  SFltb (S754_finite false mM eM) (S754_finite false mH eH) = true.

Local Abbreviation u := (cv.uniranges n F32.zero (S754_finite false mH eH)).

Lemma counted_zero s : cv.counted u n (F64.of_f32 (S754_zero s)) = true.
Proof.
  destruct (uniranges_zero n mH eH HvH) as (ma & ea & -> & _);
    [unfold INT_MAX in Hn; lia|].
  unfold cv.counted, cv.bin_index. cbn [fst snd].
  apply bool_decide_eq_true.
  assert (∀ s', cvFloor (S754_zero s') = 0) as Hz by done.
  destruct s; cbn [F64.of_f32 round_to F64.mul F64.add SFmul SFadd xorb];
    rewrite Hz; lia.
Qed.

Lemma counted_below s mv ev :
  valid32 (S754_finite s mv ev) = true →
  (s = false →
   SFleb (S754_finite false mv ev) (S754_finite false mM eM) = true) →
  cv.counted u n (F64.of_f32 (S754_finite s mv ev)) = negb s.
Proof.
  intros Hv Hle.
  destruct (uniranges_zero n mH eH HvH) as (ma & ea & -> & Hda & Hea & Ha);
    [unfold INT_MAX in Hn; lia|].
  destruct (of_f32_finite s mv ev Hv) as (mz & ez & -> & Hdz & Hez & Hvz).
  unfold cv.counted, cv.bin_index. cbn [fst snd].
  destruct (SFmul_relerr 53 1024 ltac:(lia) s mz ez false ma ea)
    as (mp & ep & Hmul & _ & _ & Hp); [done|done|unfold emin; lia|lia|].
  unfold F64.mul, F64.add, F64.prec, F64.emax. rewrite Hmul.
  cbn [SFadd]. rewrite xorb_false_r. unfold cvFloor.
  destruct s; cbn [negb].
  - destruct (floor_finite_neg mp ep) as (z & -> & Hz).
    apply bool_decide_eq_false. unfold to_int, INT_MIN.
    case_bool_decide; lia.
  - specialize (Hle eq_refl).
    destruct (valid32_inv _ _ _ Hv) as (Hcv & _).
    destruct (valid32_inv _ _ _ HvM) as (HcM & HdM & _).
    destruct (valid32_inv _ _ _ HvH) as (HcH & _).
    pose proof (SFleb_real 24 128 ltac:(lia) _ _ _ _ Hcv HcM Hle) as HvM'.
    pose proof (SFltb_gap 24 128 ltac:(lia) _ _ _ _ HcM HcH Hlt) as Hgap.
    cbv zeta in Hp. rewrite Hvz in Hp.
    set (V := (IZR (Zpos mv) * bpow ev)%R) in *.
    set (M := (IZR (Zpos mM) * bpow eM)%R) in *.
    set (H := (IZR (Zpos mH) * bpow eH)%R) in *.
    set (A := (IZR (Zpos ma) * bpow ea)%R) in *.
    set (P := (IZR (Zpos mp) * bpow ep)%R) in *.
    assert (0 < V)%R as HV.
    { apply Rmult_lt_0_compat; [apply IZR_lt; lia|apply bpow_pos]. }
    assert (0 < M)%R as HM by lra.
    (* the float above [M] is above it by one part in [2^24] *)
    assert (M * (1 + bpow (-24)) <= H)%R as HMH.
    { pose proof (Zdigits2_bounds (Zpos mM) ltac:(lia)) as [_ Hb].
      cbn [Zdigits2] in Hb.
      assert (Zpos mM ≤ 2 ^ 24) as Hb'.
      { assert (2 ^ Zpos (digits2_pos mM) ≤ 2 ^ 24)
          by (apply Z.pow_le_mono_r; lia). lia. }
      apply IZR_le in Hb'. rewrite <- (bpow_IZR 24) in Hb' by lia.
      assert (bpow 24 * bpow (-24) = 1)%R as Hone by (by rewrite <- bpow_add).
      pose proof (bpow_pos eM). pose proof (bpow_pos (-24)).
      assert (M * bpow (-24) <= bpow eM)%R; [|unfold M in *; lra].
      unfold M.
      assert (IZR (Zpos mM) * bpow (-24) <= 1)%R by nra.
      nra. }
    assert (0 < H)%R as HH by (destruct eps_delta as (_ & ? & _); nra).
    set (y := (IZR n / H)%R).
    assert (y * H = IZR n)%R as Hy by (unfold y; field; lra).
    specialize (Ha y Hy).
    assert (0 < IZR n)%R as Hnr by (apply IZR_lt; lia).
    assert (0 < y)%R as Hy0 by (unfold y; apply Rdiv_lt_0_compat; lra).
    destruct eps_delta as (He & Hd & Hed).
    set (eps := bpow (-52)) in *. set (dl := bpow (-24)) in *.
    change (bpow (1 - 53)) with eps in Hp.
    (* the product stays below [n] *)
    assert (P < IZR n)%R as HPn.
    { apply (Rmult_lt_reg_r H); [done|].
      assert (P * H <= V * y * H * ((1 + eps) * (1 + eps)))%R as HPH.
      { assert (V * A <= V * (y * (1 + eps)))%R
          by (apply Rmult_le_compat_l; lra).
        assert (P * H <= V * A * (1 + eps) * H)%R
          by (apply Rmult_le_compat_r; lra).
        assert (V * A * (1 + eps) * H <= V * (y * (1 + eps)) * (1 + eps) * H)%R.
        { apply Rmult_le_compat_r; [lra|].
          apply Rmult_le_compat_r; lra. }
        lra. }
      replace (V * y * H)%R with (V * IZR n)%R in HPH by (rewrite <- Hy; ring).
      assert (V * IZR n <= M * IZR n)%R by (apply Rmult_le_compat_r; lra).
      assert (M * IZR n * ((1 + eps) * (1 + eps)) < M * IZR n * (1 + dl))%R.
      { apply Rmult_lt_compat_l; [|done]. apply Rmult_lt_0_compat; lra. }
      assert (V * IZR n * ((1 + eps) * (1 + eps))
              <= M * IZR n * ((1 + eps) * (1 + eps)))%R.
      { apply Rmult_le_compat_r; [nra|done]. }
      assert (M * IZR n * (1 + dl) <= IZR n * H)%R.
      { replace (M * IZR n * (1 + dl))%R with (IZR n * (M * (1 + dl)))%R by ring.
        apply Rmult_le_compat_l; lra. }
      lra. }
    destruct (floor_finite_pos mp ep n HPn) as (z & -> & Hz).
    apply bool_decide_eq_true. unfold to_int.
    rewrite bool_decide_true by (unfold INT_MIN, INT_MAX in *; lia). done.
Qed.

(** With a range from 0 to a float above [M], the samples that fall in a
    bin are those from 0 to [M]. *)
Lemma counted_range v :
  valid32 v = true →
  (isnan v = false → SFleb v (S754_finite false mM eM) = true) →
  cv.counted u n (F64.of_f32 v) = SFleb F32.zero v.
Proof.
  intros Hv Hle. destruct v as [s|s| |s mv ev].
  - by rewrite counted_zero.
  - destruct s; [|by specialize (Hle eq_refl)].
    destruct (uniranges_zero n mH eH HvH) as (ma & ea & -> & _);
      [unfold INT_MAX in Hn; lia|].
    done.
  - done.
  - rewrite counted_below; [by destruct s|done|].
    intros ->. by apply Hle.
Qed.

End counted.

(** ** The upper bound that [histFloat] widens *)

Lemma SFltb_of_real m1 e1 m2 e2 :
  canonical_mantissa 24 128 m1 e1 = true →
  canonical_mantissa 24 128 m2 e2 = true →
  (IZR (Zpos m1) * bpow e1 < IZR (Zpos m2) * bpow e2)%R →
  SFltb (S754_finite false m1 e1) (S754_finite false m2 e2) = true.
Proof.
  intros Hc1 Hc2 Hlt.
  destruct (SFltb (S754_finite false m1 e1) (S754_finite false m2 e2)) eqn:Hn;
    [done|exfalso].
  assert (SFleb (S754_finite false m2 e2) (S754_finite false m1 e1) = true) as Hle.
  { revert Hn. unfold SFltb, SFleb, SFcompare.
    rewrite (Z.compare_antisym e1 e2).
    destruct (e1 ?= e2); cbn [CompOpp]; try done.
    fold (Pos.compare m1 m2). fold (Pos.compare m2 m1).
    rewrite (Pos.compare_antisym m1 m2).
    by destruct (m1 ?= m2)%positive. }
  pose proof (SFleb_real 24 128 ltac:(lia) _ _ _ _ Hc2 Hc1 Hle). lra.
Qed.

Lemma of_Z32_finite n :
  0 < n < 2 ^ 24 →
  ∃ mz ez,
    F32.of_Z n = S754_finite false mz ez
    ∧ Zpos (digits2_pos mz) = 24
    ∧ -23 ≤ ez ≤ 0
    ∧ (IZR (Zpos mz) * bpow ez = IZR n)%R.
Proof.
  intros Hn. destruct n as [|p|p]; [lia| |lia].
  unfold F32.of_Z, binary_normalize, F32.prec, F32.emax.
  pose proof (Zdigits2_bounds (Zpos p) ltac:(lia)) as Hb. cbn [Zdigits2] in Hb.
  set (d := Zpos (digits2_pos p)) in *.
  assert (0 < d) by (unfold d; lia).
  assert (d ≤ 24).
  { destruct (decide (d ≤ 24)); [done|].
    assert (2 ^ 24 ≤ 2 ^ (d - 1)) by (apply Z.pow_le_mono_r; lia). lia. }
  destruct (binary_round_exact 24 128 ltac:(lia) false p 0)
    as (mz & -> & Hmz & Hdz & _); fold d; [unfold emin; lia..|].
  fold d in Hmz.
  exists mz, (d + 0 - 24). split_and!; [done|done|lia|lia|].
  rewrite Hmz, mult_IZR, <- (bpow_IZR (24 - d)) by lia.
  rewrite Rmult_assoc, <- bpow_add.
  replace (24 - d + (d + 0 - 24)) with 0 by lia. cbn. lra.
Qed.

Lemma tenth_value :
  F32.tenth = S754_finite false 13421773 (-27)
  ∧ (1 <= 10 * (IZR (Zpos 13421773) * bpow (-27)))%R.
Proof.
  split; [by vm_compute|].
  assert (bpow (-27) * IZR (2 ^ 27) = 1)%R as H
    by (by rewrite <- (bpow_IZR 27), <- bpow_add by lia).
  change (2 ^ 27) with 134217728 in H. pose proof (bpow_pos (-27)). lra.
Qed.

(** For a maximum in the middle of the range of [float] and up to 65536
    bins, the upper bound that [histFloat] widens is a float above the
    maximum. *)
Lemma widened_above M n :
  valid32 M = true → mid_range32 M = true → 0 < n ≤ 65536 →
  ∃ mH eH,
    widened F32.zero M n = S754_finite false mH eH
    ∧ SFltb M (S754_finite false mH eH) = true.
Proof.
  intros HvM Hmid Hn.
  destruct M as [| | |[] mM eM]; try done. cbn [mid_range32] in Hmid.
  apply andb_prop in Hmid as [Hlo%Z.leb_le Hhi%Z.leb_le].
  destruct (valid32_inv _ _ _ HvM) as (HcM & _ & _).
  assert (Zpos (digits2_pos mM) = 24) as HdM.
  { unfold canonical_mantissa in HcM. apply Z.eqb_eq in HcM.
    unfold fexp, emin in HcM. lia. }
  unfold widened, bin_size.
  change (F32.sub (S754_finite false mM eM) F32.zero)
    with (S754_finite false mM eM).
  destruct (of_Z32_finite n ltac:(lia)) as (mn & en & -> & Hdn & Hen & Hvn).
  destruct (SFdiv_relerr 24 128 ltac:(lia) false mM eM false mn en)
    as (mb & eb & Hdiv & _ & Hdb & Heb & HB); [done|done|unfold emin; lia|lia|].
  unfold F32.div, F32.mul, F32.add, F32.prec, F32.emax. rewrite Hdiv.
  destruct tenth_value as [-> Hc]. cbn [xorb].
  destruct (SFmul_relerr 24 128 ltac:(lia) false 13421773 (-27) false mb eb)
    as (mt & et & Hmul & _ & Hdt & Het & HT);
    [done|done|unfold emin; lia|lia|].
  rewrite Hmul. cbn [xorb].
  destruct (SFadd_relerr 24 128 ltac:(lia) mM eM mt et)
    as (mH & eH & Hadd & HbH & HH); [unfold emin; lia|lia|lia|].
  rewrite Hadd. exists mH, eH. split; [done|].
  apply SFltb_of_real; [done|by apply andb_prop in HbH as [? _]|].
  (* the sum is above the maximum *)
  cbv zeta in HT, HH.
  set (Mr := (IZR (Zpos mM) * bpow eM)%R) in *.
  set (B := (IZR (Zpos mb) * bpow eb)%R) in *.
  set (c := (IZR (Zpos 13421773) * bpow (-27))%R) in *.
  set (T := (IZR (Zpos mt) * bpow et)%R) in *.
  set (Hr := (IZR (Zpos mH) * bpow eH)%R) in *.
  change (bpow (1 - 24)) with (bpow (-23)) in *.
  set (eps := bpow (-23)) in *.
  assert (eps * 8388608 = 1)%R as Heps.
  { change 8388608%R with (IZR (2 ^ 23)). unfold eps.
    by rewrite <- (bpow_IZR 23), <- bpow_add by lia. }
  assert (0 < Mr)%R as HMr.
  { apply Rmult_lt_0_compat; [apply IZR_lt; lia|apply bpow_pos]. }
  set (k := IZR n).
  assert (1 <= k <= 65536)%R as Hk.
  { unfold k. split; [apply (IZR_le 1)|apply (IZR_le n 65536)]; lia. }
  specialize (HB (Mr / k)%R). rewrite Hvn in HB. fold k in HB.
  assert (Mr / k * k = Mr)%R as Hyk by (field; lra).
  specialize (HB Hyk).
  (* [B * k >= Mr * (1 - eps)] *)
  assert (Mr * (1 - eps) <= B * k)%R as HBk.
  { destruct HB as [HB _].
    pose proof (Rmult_le_compat_r k _ _ ltac:(lra) HB) as H1.
    replace (Mr / k * (1 - eps) * k)%R with (Mr / k * k * (1 - eps))%R in H1
      by ring.
    by rewrite Hyk in H1. }
  assert (0 < B)%R as HB0.
  { apply Rmult_lt_0_compat; [apply IZR_lt; lia|apply bpow_pos]. }
  clear HB Hyk.
  assert (c * B * (1 - eps) <= T)%R as HTB by (by destruct HT).
  (* [T * k >= Mr / 10 * (1 - eps)^2] *)
  assert (Mr * ((1 - eps) * (1 - eps)) <= 10 * (T * k))%R as HTk.
  { assert (c * B * (1 - eps) * k <= T * k)%R as H1
      by (apply Rmult_le_compat_r; lra).
    assert (B * (1 - eps) * k <= 10 * (c * B * (1 - eps) * k))%R as H2.
    { assert (0 <= B * (1 - eps) * k)%R
        by (apply Rmult_le_pos; [apply Rmult_le_pos|]; lra).
      nra. }
    assert (Mr * (1 - eps) * (1 - eps) <= B * k * (1 - eps))%R as H3
      by (apply Rmult_le_compat_r; lra).
    lra. }
  assert (0 < T)%R as HT0.
  { apply Rmult_lt_0_compat; [apply IZR_lt; lia|apply bpow_pos]. }
  assert ((Mr + T) * (1 - eps) <= Hr)%R as HHr by lra.
  apply Rlt_le_trans with (2 := HHr).
  (* [T * (1 - eps) > Mr * eps], after multiplying by [10 * k] *)
  assert (Mr * eps * (10 * k) < T * (1 - eps) * (10 * k))%R as Hmain.
  { assert (Mr * eps * (10 * k) <= Mr * (eps * 655360))%R as H1.
    { rewrite Rmult_assoc. apply Rmult_le_compat_l; [lra|].
      replace (eps * 655360)%R with (eps * (10 * 65536))%R by ring.
      apply Rmult_le_compat_l; lra. }
    assert (Mr * ((1 - eps) * (1 - eps)) * (1 - eps)
            <= 10 * (T * k) * (1 - eps))%R as H2
      by (apply Rmult_le_compat_r; lra).
    assert (eps * 655360 < (1 - eps) * (1 - eps) * (1 - eps))%R as H3 by nra.
    assert (Mr * (eps * 655360)
            < Mr * ((1 - eps) * (1 - eps) * (1 - eps)))%R as H4
      by (apply Rmult_lt_compat_l; lra).
    lra. }
  assert (Mr * eps < T * (1 - eps))%R as Hfin.
  { apply (Rmult_lt_reg_r (10 * k)); lra. }
  lra.
Qed.

(** ** The uniform histogram *)

Lemma write_edges (f : Z → float32) (n : nat) : ∀ bs : list float32,
  length bs = n →
  ∀ k, (k ≤ n)%nat →
  foldl (λ bs i, <[Z.to_nat i := f i]> bs) bs (seqZ 0 (Z.of_nat k))
  = (f <$> seqZ 0 (Z.of_nat k)) ++ drop k bs.
Proof.
  intros bs Hlen k. induction k as [|k IH]; intros Hk.
  - cbn. by rewrite drop_0.
  - rewrite seqZ_S, foldl_app, fmap_app, IH by lia. cbn.
    rewrite Z.add_0_l, Nat2Z.id.
    rewrite insert_app_r_alt; rewrite length_fmap, length_seqZ, Nat2Z.id; [|lia].
    rewrite Nat.sub_diag.
    destruct (drop k bs) as [|b bs'] eqn:Hd.
    { apply (f_equal length) in Hd. rewrite length_drop in Hd. cbn in Hd. lia. }
    cbn. rewrite <- app_assoc. cbn. do 2 f_equal.
    replace (S k) with (k + 1)%nat by lia.
    rewrite <- (drop_drop bs 1 k), Hd. done.
Qed.

Lemma write_all_edges (f : Z → float32) n (bs : list float32) :
  0 ≤ n → Z.of_nat (length bs) = n →
  foldl (λ bs i, <[Z.to_nat i := f i]> bs) bs (seqZ 0 n) = f <$> seqZ 0 n.
Proof.
  intros Hn Hlen. rewrite <- (Z2Nat.id n) by done.
  rewrite (write_edges f (Z.to_nat n)) by lia.
  rewrite drop_ge by lia. by rewrite app_nil_r.
Qed.

Lemma hist_ints_counters (H : list Z) :
  hist_ints (MatF F32F 1 ((λ c, [F32.of_Z c]) <$> H))
  = (λ c, cv.saturate I32S (cvRound (F32.of_Z c))) <$> H.
Proof.
  unfold hist_ints.
  change (cv.convertTo (MatF F32F 1 ((λ c, [F32.of_Z c]) <$> H)) CV_32S)
    with (MatI I32S 1
            (map (map (λ v, cv.saturate I32S (cvRound v)))
               ((λ c, [F32.of_Z c]) <$> H))).
  cbn [ptr_int]. induction H as [|c H IH]; [done|].
  cbn [fmap list_fmap map concat app]. by rewrite <- IH.
Qed.

Lemma sum_counts_alter (f : Z → Z) l i c :
  l !! i = Some c → sum_counts (alter f i l) = sum_counts l - c + f c.
Proof.
  unfold sum_counts.
  revert i. induction l as [|y l IH]; intros [|i] Hi; try done.
  - injection Hi as ->. cbn. lia.
  - change (alter f (S i) (y :: l)) with (y :: alter f i l).
    cbn [foldr]. rewrite (IH i Hi). lia.
Qed.

(** Without overflow, [calcHist] adds one to the counters for each sample
    it puts in a bin and leaves them alone for the others. *)
Lemma bin_counters_sum u histSize vs : ∀ H,
  Forall (λ c, 0 ≤ c) H → Z.of_nat (length H) = histSize →
  sum_counts H + Z.of_nat (length vs) ≤ INT_MAX →
  let H' := foldl (cv.count_sample u histSize) H vs in
  Forall (λ c, 0 ≤ c) H'
  ∧ length H' = length H
  ∧ sum_counts H'
    = sum_counts H
      + Z.of_nat (length (filter (λ v, cv.counted u histSize v = true) vs)).
Proof.
  induction vs as [|v vs IH]; intros H Hpos Hlen Hsum; cbn [foldl].
  - cbn. split_and!; [done..|lia].
  - cbn [length] in Hsum. rewrite filter_cons.
    unfold cv.count_sample at 2 4 6.
    destruct (cv.counted u histSize v) eqn:Hc.
    + unfold cv.counted in Hc. apply bool_decide_eq_true in Hc.
      destruct (lookup_lt_is_Some_2 H (Z.to_nat (cv.bin_index u v)))
        as [c0 Hc0]; [lia|].
      pose proof (lookup_le_sum_counts _ _ _ Hpos Hc0).
      destruct (IH (alter (λ c, wrap_int (c + 1)) (Z.to_nat (cv.bin_index u v)) H))
        as (Hpos' & Hlen' & Hsum').
      * apply Forall_alter; [done|]. intros c Hc0' _.
        assert (c = c0) as -> by congruence.
        rewrite wrap_int_id by (unfold INT_MIN, INT_MAX in *; lia). lia.
      * by rewrite length_alter.
      * rewrite (sum_counts_alter _ _ _ c0) by done.
        rewrite wrap_int_id by (unfold INT_MIN, INT_MAX in *; lia). lia.
      * rewrite length_alter in Hlen'. split_and!; [done..|].
        rewrite Hsum', (sum_counts_alter _ _ _ c0) by done.
        rewrite wrap_int_id by (unfold INT_MIN, INT_MAX in *; lia).
        rewrite decide_True by done. cbn [length]. lia.
    + destruct (IH H) as (Hpos' & Hlen' & Hsum'); [done|done|lia|].
      split_and!; [done..|]. rewrite Hsum'. rewrite decide_False by done. lia.
Qed.

(** ** Comparisons of floats *)

Lemma SFcompare_swap a b : SFcompare b a = CompOpp <$> SFcompare a b.
Proof.
  destruct a as [[]|[]| |[] m1 e1], b as [[]|[]| |[] m2 e2]; try reflexivity.
  all: cbn; rewrite (Z.compare_antisym e1 e2);
    destruct (e1 ?= e2); cbn; try reflexivity.
  all: rewrite (Pos.compare_cont_antisym m1 m2 Eq); cbn;
    by destruct (Pos.compare_cont Eq m1 m2).
Qed.

Lemma SFleb_not_SFltb a b : SFleb a b = true → SFltb b a = false.
Proof.
  unfold SFleb, SFltb. rewrite (SFcompare_swap a b).
  by destruct (SFcompare a b) as [[]|].
Qed.

Lemma SFltb_nan_r a : SFltb a NAN = false.
Proof. by destruct a as [[]|[]| |[] ? ?]. Qed.

(** ** Samples of a single-channel matrix *)

Lemma pixels_aux_one {A} (l : list A) : ∀ fuel,
  (length l ≤ fuel)%nat → cv.pixels_aux fuel 1 l = (λ x, [x]) <$> l.
Proof.
  induction l as [|x l IH]; intros [|fuel] Hf; cbn in *; try done; [lia|].
  rewrite drop_0. f_equal. apply IH. lia.
Qed.

Lemma channel0_one {A} (rws : list (list A)) : cv.channel0 1 rws = concat rws.
Proof.
  unfold cv.channel0. f_equal. induction rws as [|r rws IH]; [done|].
  cbn [map]. rewrite IH. f_equal.
  unfold cv.pixels. rewrite pixels_aux_one by done.
  clear. induction r as [|x r IH]; [done|]. cbn. by rewrite IH.
Qed.

Lemma counted_not_nan u histSize v :
  cv.counted u histSize v = true → isnan v = false.
Proof.
  by destruct v.
Qed.

Lemma counted_le_non_nan u histSize (vs : list float32) :
  (length (filter (λ v, cv.counted u histSize v = true) (F64.of_f32 <$> vs))
   ≤ length (filter (λ v, isnan v = false) vs))%nat.
Proof.
  induction vs as [|v vs IH]; [done|].
  rewrite fmap_cons, !filter_cons.
  destruct (decide (cv.counted u histSize (F64.of_f32 v) = true)) as [Hc|Hc].
  - apply counted_not_nan in Hc.
    rewrite decide_True by (by destruct v). cbn [length]. apply le_n_S, IH.
  - destruct (decide (isnan v = false)); cbn [length]; [apply le_S|]; apply IH.
Qed.

(** ** [calcHist] *)

Lemma calcHist_inv img histSize lo hi m :
  cv.calcHist img histSize lo hi = Ok m →
  0 < histSize ∧ SFltb lo hi = true
  ∧ m = MatF F32F 1 ((λ c, [F32.of_Z c]) <$> bin_counters img histSize lo hi).
Proof.
  unfold cv.calcHist. repeat case_match; try discriminate.
  intros [= <-]. split_and!; [lia| |done].
  by destruct (SFltb lo hi).
Qed.

Lemma bin_counters_exact img histSize lo hi :
  0 ≤ histSize → Z.of_nat (length (cv.samples64 img)) < 2 ^ 24 →
  hist_ints (MatF F32F 1 ((λ c, [F32.of_Z c]) <$> bin_counters img histSize lo hi))
  = bin_counters img histSize lo hi
  ∧ Z.of_nat (length (bin_counters img histSize lo hi)) = histSize
  ∧ sum_counts (bin_counters img histSize lo hi)
    = Z.of_nat (length (counted_samples img histSize lo hi)).
Proof.
  intros Hn Hlen. unfold bin_counters, counted_samples.
  destruct (bin_counters_sum (cv.uniranges histSize lo hi) histSize
              (cv.samples64 img) (replicate (Z.to_nat histSize) 0))
    as (Hpos & Hl & Hsum).
  - by apply Forall_replicate.
  - rewrite length_replicate. lia.
  - rewrite sum_counts_replicate. unfold INT_MAX. lia.
  - cbn zeta in *. rewrite sum_counts_replicate in Hsum.
    rewrite length_replicate in Hl.
    split_and!; [|by rewrite Hl, Z2Nat.id|by rewrite Hsum, Z.add_0_l].
    rewrite hist_ints_counters.
    etrans; [|apply list_fmap_id]. apply list_fmap_ext.
    intros i c Hc. apply counter_roundtrip.
    pose proof (lookup_le_sum_counts _ _ _ Hpos Hc) as Hle.
    rewrite Hsum, Z.add_0_l in Hle.
    pose proof (length_filter
      (λ v, cv.counted (cv.uniranges histSize lo hi) histSize v = true)
      (cv.samples64 img)) as Hf.
    split; [apply Hle|]. eapply Z.le_lt_trans; [apply Hle|].
    eapply Z.le_lt_trans; [|apply Hlen]. apply Nat2Z.inj_le, Hf.
Qed.

Lemma SFltb_trans a b c : SFltb a b = true → SFltb b c = true → SFltb a c = true.
Proof.
  unfold SFltb.
  destruct a as [[]|[]| |[] m1 e1], b as [[]|[]| |[] m2 e2],
    c as [[]|[]| |[] m3 e3]; cbn; try done.
  all: fold_pos_compare.
  all: destruct (Z.compare_spec e1 e2), (Z.compare_spec e2 e3),
         (Z.compare_spec e1 e3); try done; try lia.
  all: destruct (Pos.compare_spec m1 m2), (Pos.compare_spec m2 m3),
         (Pos.compare_spec m1 m3); cbn; try done; try lia.
Qed.

Lemma SFltb_irrefl a : SFltb a a = false.
Proof.
  unfold SFltb. destruct a as [[]|[]| |[] m e]; cbn; try done.
  all: fold_pos_compare; rewrite Z.compare_refl, Pos.compare_refl; done.
Qed.

Lemma SFltb_cotrans a b c :
  isnan b = false → SFltb a c = true → SFltb a b = true ∨ SFltb b c = true.
Proof.
  unfold SFltb.
  destruct a as [[]|[]| |[] m1 e1], b as [[]|[]| |[] m2 e2],
    c as [[]|[]| |[] m3 e3]; cbn; try done; auto.
  all: fold_pos_compare.
  all: destruct (Z.compare_spec e1 e2), (Z.compare_spec e2 e3),
         (Z.compare_spec e1 e3); try done; auto; try lia.
  all: destruct (Pos.compare_spec m1 m2), (Pos.compare_spec m2 m3),
         (Pos.compare_spec m1 m3); cbn; try done; auto; try lia.
Qed.

(** ** The fallback scan of [imgMinMax] *)

Lemma minmax_scan_concat rws acc :
  foldl (λ acc p, foldl minmax_step acc p) acc rws
  = foldl minmax_step acc (concat rws).
Proof.
  revert acc. induction rws as [|p rws IH]; intros acc; [done|].
  cbn [foldl concat]. by rewrite foldl_app, IH.
Qed.

(** The second component of the scan is the largest sample that is not
    NaN, or the value it started from. *)
Lemma minmax_scan_max (vs : list float32) : ∀ acc : float32 * float32,
  isnan acc.2 = false →
  let r := foldl minmax_step acc vs in
  isnan r.2 = false
  ∧ SFltb r.2 acc.2 = false
  ∧ (∀ v, v ∈ vs → isnan v = false → SFltb r.2 v = false)
  ∧ (r.2 = acc.2 ∨ r.2 ∈ vs).
Proof.
  induction vs as [|x vs IH]; intros acc Hacc; cbn zeta; cbn [foldl].
  - split_and!; [done|apply SFltb_irrefl| |by left].
    intros v Hv. by apply not_elem_of_nil in Hv.
  - destruct (IH (minmax_step acc x)) as (Hn & Hge & Hall & Hin).
    { unfold minmax_step. destruct (isnan x) eqn:Hx; cbn [negb snd]; [done|].
      unfold std_max. destruct (SFltb _ x); assumption. }
    cbn zeta in *. set (r := foldl minmax_step (minmax_step acc x) vs) in *.
    unfold minmax_step in Hge, Hin.
    destruct (isnan x) eqn:Hx; cbn [negb snd] in Hge, Hin.
    + split_and!; [done..| |].
      * intros v [-> | Hv]%elem_of_cons Hnv; [congruence|by apply Hall].
      * destruct Hin as [? | ?]; [by left|right; by apply elem_of_cons; right].
    + unfold std_max in Hge, Hin. destruct (SFltb _ x) eqn:Hlt.
      * split_and!; [done| | |].
        -- destruct (SFltb r.2 acc.2) eqn:Hc; [|done].
           by rewrite (SFltb_trans _ _ _ Hc Hlt) in Hge.
        -- intros v [-> | Hv]%elem_of_cons Hnv; [done|by apply Hall].
        -- right. apply elem_of_cons.
           destruct Hin as [-> | ?]; [by left|by right].
      * split_and!; [done..| |].
        -- intros v [-> | Hv]%elem_of_cons Hnv; [|by apply Hall].
           destruct (SFltb _ x) eqn:Hc in |- *; [|done].
           destruct (SFltb_cotrans _ acc.2 _ Hacc Hc); congruence.
        -- destruct Hin as [? | ?]; [by left|right; by apply elem_of_cons; right].
Qed.

(** When the reduction reported NaN, a maximum above [-FLT_MAX] that
    [imgMinMax] returns is a sample of the image and no sample that is not
    NaN exceeds it. *)
Lemma imgMinMax_fallback_max `{E : Externals} img mm r :
  type img = CV_32F → minMaxLoc img = Ok mm → reports_nan mm = true →
  imgMinMax img = Ok r → SFltb (SFopp F32.FLT_MAX) r.2 = true →
  r.2 ∈ concat (ptr_float img)
  ∧ ∀ v, v ∈ concat (ptr_float img) → isnan v = false → SFltb r.2 v = false.
Proof.
  intros Ht Hmm Hrep. unfold imgMinMax. rewrite Hmm. cbn.
  unfold reports_nan in Hrep. rewrite Hrep, Ht. cbn.
  rewrite minmax_scan_concat.
  destruct (minmax_scan_max (concat (ptr_float img))
              (F32.FLT_MAX, SFopp F32.FLT_MAX)) as (Hn & Hge & Hall & Hin);
    [done|]. cbn zeta in *.
  set (scan := foldl minmax_step _ _) in *.
  destruct (SFltb scan.2 scan.1); [intros [= <-]; done|].
  intros [= <-] Hpos. split; [|done].
  destruct Hin as [Heq | ?]; [|done].
  cbn in Heq. rewrite Heq in Hpos. done.
Qed.

Section histFloat.
Context `{E : Externals}.

(** [histFloat] by cases on the resolved range. *)
Lemma histFloat_cases img binCount h :
  histFloat img binCount h
  = (hi ← resolved_max img h;
     let lo := resolved_min h in
     if isnan hi then Ok (mkFloatHist lo hi [] [])
     else if SFleb hi lo then Ok (mkFloatHist lo hi [lo] [0])
     else
       _ ← vec_resize binCount F32.zero (bins h);
       floatHist ← cv.calcHist img binCount lo (widened lo hi binCount);
       Ok (mkFloatHist lo (widened lo hi binCount)
             (bin_edge lo (bin_size lo hi binCount) <$> seqZ 0 binCount)
             (hist_ints floatHist))).
Proof.
  unfold histFloat, resolved_max, resolved_min.
  destruct (if isnan (maxVal h) then _ else _) as [hi| | |]; cbn; [|done..].
  destruct (isnan hi); [done|].
  destruct (SFleb hi _); [by rewrite !insert_resize_one|].
  unfold vec_resize. case_bool_decide as Hn; [|done]. cbn.
  rewrite write_all_edges; [done|done|].
  rewrite length_resize. lia.
Qed.
End histFloat.

Lemma length_bin_counters img histSize lo hi :
  length (bin_counters img histSize lo hi) = Z.to_nat histSize.
Proof.
  unfold bin_counters. generalize (cv.samples64 img) as vs.
  intros vs. rewrite <- (length_replicate (Z.to_nat histSize) 0) at 2.
  generalize (replicate (Z.to_nat histSize) 0) as H. 
  induction vs as [|v vs IH]; intros H; [done|]. cbn [foldl].
  rewrite IH. unfold cv.count_sample. case_match; [|done].
  by rewrite length_alter.
Qed.

Lemma length_hist_ints_counters img histSize lo hi :
  length (hist_ints (MatF F32F 1
            ((λ c, [F32.of_Z c]) <$> bin_counters img histSize lo hi)))
  = Z.to_nat histSize.
Proof. by rewrite hist_ints_counters, length_fmap, length_bin_counters. Qed.

Lemma vec_get_nil {A} i : vec_get (@nil A) i = Undefined "vector index out of range".
Proof. unfold vec_get. by case_bool_decide. Qed.

Lemma vec_get_fmap_seqZ {A} (f : Z → A) n i :
  0 ≤ i < n → vec_get (f <$> seqZ 0 n) i = Ok (f i).
Proof.
  intros Hi. unfold vec_get. rewrite bool_decide_true by lia.
  rewrite list_lookup_fmap, lookup_seqZ_lt by lia. cbn.
  by rewrite Z.add_0_l, Z2Nat.id by lia.
Qed.

Section default_range.
Context `{E : Externals}.

Lemma resolved_max_default img h mm :
  isnan (maxVal h) = true → imgMinMax img = Ok mm →
  resolved_max img h = Ok mm.2.
Proof. unfold resolved_max. by intros -> ->. Qed.

(** On an image of NaNs, the histogram is empty exactly when the
    reduction reported NaN. *)
Lemma histFloat_all_nan_cases img binCount h mm :
  type img = CV_32F → all_nan img = true → isnan (maxVal h) = true →
  minMaxLoc img = Ok mm →
  (reports_nan mm = true →
   histFloat img binCount h = Ok (mkFloatHist (resolved_min h) NAN [] []))
  ∧ (reports_nan mm = false →
     ∀ h', histFloat img binCount h = Ok h' →
           bins h' ≠ [] ∧ counts h' ≠ []).
Proof.
  intros Ht Hall Hmax Hmm. split; intros Hrep.
  - rewrite histFloat_cases.
    rewrite (resolved_max_default img h (NAN, NAN)); [done|done|].
    by apply (imgMinMax_all_nan img mm).
  - intros h'. rewrite histFloat_cases.
    rewrite (resolved_max_default img h _ Hmax (imgMinMax_reported img mm Hmm Hrep)).
    cbn. unfold reports_nan in Hrep. apply orb_false_elim in Hrep as [_ ->].
    destruct (SFleb _ _); [intros [= <-]; by split|].
    destruct (vec_resize _ _ _); cbn; try done.
    destruct (cv.calcHist _ _ _ _) as [m| | |] eqn:Hc; cbn; try done.
    apply calcHist_inv in Hc as (Hn & _ & ->). intros [= <-]. cbn.
    split; intros Hnil%(f_equal length); cbn in Hnil.
    + rewrite length_fmap, length_seqZ in Hnil. lia.
    + rewrite length_hist_ints_counters in Hnil. lia.
Qed.

(** The histogram of [histPercentiles32f] when the maximum of the image
    is above 0. *)
Lemma histFloat_default_range img mm :
  imgMinMax img = Ok mm → isnan mm.2 = false → SFleb mm.2 F32.zero = false →
  histFloat img 256 (mkFloatHist NAN NAN [] [])
  = (floatHist ← cv.calcHist img 256 F32.zero (widened F32.zero mm.2 256);
     Ok (mkFloatHist F32.zero (widened F32.zero mm.2 256)
           (bin_edge F32.zero (bin_size F32.zero mm.2 256) <$> seqZ 0 256)
           (hist_ints floatHist))).
Proof.
  intros Hmm Hnan Hle. rewrite histFloat_cases.
  rewrite (resolved_max_default _ _ mm) by done. cbn.
  by rewrite Hnan, Hle.
Qed.
End default_range.

(** ** Rescaling to bytes *)

Lemma convertScaleAbs_samples img s o :
  ptr_int (cv.convertScaleAbs img s o)
  = map (map (rescale_abs s o)) (samples32 img).
Proof.
  destruct img as [d cn rws|d cn rws]; cbn [cv.convertScaleAbs ptr_int samples32].
  all: rewrite map_map; apply map_ext; intros r; rewrite map_map;
    apply map_ext; intros v; reflexivity.
Qed.





Section rescale.
Context `{E : Externals}.

Lemma imgTo8u_cases img lowVal highVal :
  imgTo8u img lowVal highVal
  = (range ← resolved_range img lowVal highVal;
     Ok (cv.convertScaleAbs img (scale range.1 range.2)
           (offset range.1 range.2))).
Proof. reflexivity. Qed.
End rescale.

(** ** Sum of the counts of [histFloat] *)

Lemma samples64_32F rws :
  cv.samples64 (MatF F32F 1 rws) = F64.of_f32 <$> concat rws.
Proof. cbn. by rewrite channel0_one. Qed.

Lemma histFloat_sum `{E : Externals} img binCount h h' :
  type img = CV_32F →
  Z.of_nat (length (cv.samples64 img)) < 2 ^ 24 →
  histFloat img binCount h = Ok h' →
  sum_counts (counts h')
  = (if SFltb (minVal h') (maxVal h')
     then Z.of_nat (length (counted_samples img binCount (minVal h') (maxVal h')))
     else 0)
  ∧ sum_counts (counts h') ≤ count_non_nan img.
Proof.
  intros Ht Hlen. rewrite histFloat_cases.
  assert (0 ≤ count_non_nan img) as Hpos by (destruct img; cbn; lia).
  destruct (resolved_max img h) as [hi| | |]; cbn; try done.
  destruct (isnan hi) eqn:Hnan.
  { intros [= <-]. cbn. destruct hi; try done. by rewrite SFltb_nan_r. }
  destruct (SFleb hi (resolved_min h)) eqn:Hle.
  { intros [= <-]. cbn. by rewrite (SFleb_not_SFltb _ _ Hle). }
  destruct (vec_resize _ _ _); cbn; try done.
  destruct (cv.calcHist _ _ _ _) as [m| | |] eqn:Hc; cbn; try done.
  apply calcHist_inv in Hc as (Hn & Hlt & ->). intros [= <-].
  cbn [counts minVal maxVal].
  destruct (bin_counters_exact img binCount (resolved_min h)
              (widened (resolved_min h) hi binCount)) as (-> & _ & ->);
    [lia|done|].
  rewrite Hlt. split; [done|].
  destruct (type_32F img Ht) as [rws ->].
  unfold counted_samples. rewrite samples64_32F. cbn [count_non_nan].
  apply Nat2Z.inj_le, counted_le_non_nan.
Qed.

(** ** The percentile finder of the spec *)

Lemma walk_bins_range target counts : ∀ running i,
  counts ≠ [] →
  i ≤ walk_bins target running i counts < i + Z.of_nat (length counts).
Proof.
  induction counts as [|c rest IH]; intros running i Hne; [done|].
  cbn [walk_bins length]. destruct (SFleb _ _); [lia|].
  destruct rest as [|c' rest'].
  - cbn. lia.
  - specialize (IH (running + c) (i + 1) ltac:(done)). cbn [length] in *. lia.
Qed.

Lemma findPercentileInHist_spec_range counts pct i :
  findPercentileInHist_spec counts pct = Ok i →
  0 ≤ i < Z.of_nat (length counts).
Proof.
  unfold findPercentileInHist_spec. destruct counts as [|c rest]; [done|].
  intros [= <-]. apply (walk_bins_range _ (c :: rest) 0 0). done.
Qed.

(** The flag of [convertForSave] on every path that returns: without a
    change the result is the input; with a change the type of the result
    is new, but for [convertTo(dst, CV_8UC1)] of a [CV_8U] input in the
    pbm/pgm arm. *)
Lemma convertForSave_flag_cases `{E : Externals} img inputExt dst isChanged :
  convertForSave img inputExt = Ok (dst, isChanged) →
  (isChanged = false → dst = img)
  ∧ (isChanged = true → type dst = type img →
     type img = CV_8U
     ∧ (getNormalizedExt inputExt = "pbm" ∨ getNormalizedExt inputExt = "pgm")
     ∧ dst = cv.convertTo img CV_8UC1).
Proof.
  unfold convertForSave.
  pose proof (save_action_spec (type img) (getNormalizedExt inputExt)) as Hs.
  destruct (save_action _ _); cbn.
  - (* auto-range *)
    destruct Hs as [Ht _].
    destruct (histPercentiles _ _ _) as [t| | |]; cbn; try discriminate.
    unfold imgTo8u. destruct (if SFleb _ _ then _ else _); cbn; try discriminate.
    intros [= <- <-]. split; [discriminate|]. intros _.
    rewrite type_convertScaleAbs, type_eq, CV_MAKETYPE_eq.
    destruct Ht as [Ht | [Ht | Ht]];
      apply type_single in Ht as [? ?]; unfold_codes; lia.
  - destruct Hs as [Ht _]. intros [= <- <-]. split; [discriminate|]. intros _.
    rewrite type_convertTo by (unfold_codes; lia).
    rewrite type_eq, CV_MAKETYPE_eq.
    apply type_single in Ht as [? ?]; unfold_codes; lia.
  - destruct Hs as [Ht _].
    destruct (cv.cvtColor _ _ _) as [d| | |] eqn:Hc; cbn; try discriminate.
    intros [= <- <-]. split; [discriminate|]. intros _.
    apply cvtColor_auto in Hc as [Hd Hc]. cbn in Hc.
    rewrite !type_eq, Hd, Hc.
    apply type_single in Ht as [? ?]; unfold_codes; lia.
  - intros [= <- <-]. split; [done|discriminate].
  - destruct Hs as [Ht _].
    destruct (cv.cvtColor _ _ _) as [d| | |] eqn:Hc; cbn; try discriminate.
    intros [= <- <-]. split; [discriminate|]. intros _.
    apply cvtColor_auto in Hc as [Hd Hc]. cbn in Hc.
    rewrite !type_eq, Hd, Hc.
    assert (depth img = 0 ∧ channels img = 4) as [? ?]
      by (apply type_inv; [lia|done]).
    unfold_codes; lia.
  - discriminate.
  - destruct Hs as [Ht Hext]. intros [= <- <-]. split; [discriminate|]. done.
  - destruct Hs as [Ht _].
    destruct (cv.cvtColor _ _ _) as [d| | |] eqn:Hc; cbn; try discriminate.
    intros [= <- <-]. split; [discriminate|]. intros _.
    apply cvtColor_auto in Hc as [Hd Hc]. cbn in Hc.
    rewrite !type_eq, Hd, Hc.
    assert (depth img = 0 ∧ channels img = 3) as [? ?]
      by (apply type_inv; [lia|done]).
    unfold_codes; lia.
  - destruct Hs as [Ht _].
    destruct (cv.cvtColor _ _ _) as [d| | |] eqn:Hc; cbn; try discriminate.
    intros [= <- <-]. split; [discriminate|]. intros _.
    apply cvtColor_auto in Hc as [Hd Hc]. cbn in Hc.
    rewrite !type_eq, Hd, Hc.
    assert (depth img = 0 ∧ channels img = 4) as [? ?]
      by (apply type_inv; [lia|done]).
    unfold_codes; lia.
  - discriminate.
  - intros [= <- <-]. split; [done|discriminate].
Qed.

(** * The operations against their specification *)

(** C1.  For a single-channel Int32 buffer and a target format that is
    not tiff, [convertForSave] is meant to compute the 1st/99th
    percentile range and rescale to bytes, returning [true].  The code
    takes that path, but [histPercentiles] has no case for [CV_32S]: the
    call ends in [bail] and nothing is returned. *)
Theorem convertForSave_int32_bails `{E : Externals} img inputExt :
  type img = CV_32S → wide (getNormalizedExt inputExt) = false →
  convertForSave img inputExt
  = Bailed "histPercentiles: Unsupported image type".
Proof.
  intros Ht Hw. unfold convertForSave.
  rewrite save_action_auto by auto. by rewrite histPercentiles_32S.
Qed.

Lemma convertForSave_int32_bails_witness :
  type (MatI I32S 1 [[0]]) = CV_32S
  ∧ wide (getNormalizedExt_spec "png") = false
  ∧ convertForSave (E := ordered_platform) (MatI I32S 1 [[0]]) "png"
    = Bailed "histPercentiles: Unsupported image type".
Proof.
  split_and!; [reflexivity..|].
  apply (convertForSave_int32_bails (E := ordered_platform)); reflexivity.
Defined.

(** C2, as stated: [wasChanged] is false if and only if the returned
    buffer has the encoding and layout of the input.  It fails for a
    single-channel UInt8 buffer saved as pgm: [convertTo(dst, CV_8UC1)]
    returns a buffer of the same type and the flag is [true]. *)
Lemma convertForSave_pgm_8U_same_type :
  ¬ (∀ dst isChanged,
       convertForSave (E := ordered_platform) (MatI I8U 1 [[7]]) "pgm"
       = Ok (dst, isChanged) →
       (isChanged = false ↔ type dst = type (MatI I8U 1 [[7]]))).
Proof.
  intros H. destruct (H (MatI I8U 1 [[7]]) true eq_refl) as [_ Hback].
  specialize (Hback eq_refl). discriminate.
Qed.

(** C2, as amended.  When [convertForSave] returns with [wasChanged]
    false, the returned buffer is the input itself, with its encoding and
    layout.  Whenever the returned buffer has the type of the input,
    [wasChanged] is false, unless the input is a single-channel UInt8
    buffer and the target is pbm or pgm. *)
Theorem convertForSave_changed_flag `{E : Externals} img inputExt dst isChanged :
  convertForSave img inputExt = Ok (dst, isChanged) →
  (isChanged = false → dst = img)
  ∧ (type dst = type img →
     isChanged = false
     ∨ (type img = CV_8U
        ∧ (getNormalizedExt inputExt = "pbm"
           ∨ getNormalizedExt inputExt = "pgm"))).
Proof.
  intros Hrun.
  destruct (convertForSave_flag_cases img inputExt dst isChanged Hrun)
    as [Hsame Hnew].
  split; [done|]. intros Hty. destruct isChanged; [right|by left].
  destruct (Hnew eq_refl Hty) as (? & ? & _). done.
Qed.

Lemma convertForSave_changed_flag_witness :
  convertForSave (E := ordered_platform) (MatI I8U 3 [[1; 2; 3]]) ".ppm"
  = Ok (MatI I8U 3 [[1; 2; 3]], false)
  ∧ (false = false → MatI I8U 3 [[1; 2; 3]] = MatI I8U 3 [[1; 2; 3]])
  ∧ (type (MatI I8U 3 [[1; 2; 3]]) = type (MatI I8U 3 [[1; 2; 3]]) →
     false = false
     ∨ (type (MatI I8U 3 [[1; 2; 3]]) = CV_8U
        ∧ (getNormalizedExt_spec ".ppm" = "pbm"
           ∨ getNormalizedExt_spec ".ppm" = "pgm"))).
Proof.
  split; [reflexivity|].
  apply (convertForSave_changed_flag (E := ordered_platform)
           (MatI I8U 3 [[1; 2; 3]]) ".ppm").
  reflexivity.
Defined.

Lemma calcHist_ok img histSize lo hi :
  depth img = CV_8U ∨ depth img = CV_16U ∨ depth img = CV_32F →
  0 < histSize → SFltb lo hi = true →
  cv.calcHist img histSize lo hi
  = Ok (MatF F32F 1 ((λ c, [F32.of_Z c]) <$> bin_counters img histSize lo hi)).
Proof.
  intros Hd Hn Hlt. unfold cv.calcHist.
  rewrite bool_decide_true by done. cbn [negb].
  replace (histSize <=? 0) with false by (symmetry; apply Z.leb_gt; lia).
  rewrite Hlt. reflexivity.
Qed.

(** C3.  On a Float32 buffer whose samples are all NaN,
    [histPercentiles32f] is meant to return the pair (NaN, NaN).  When
    the reduction reports NaN, [histFloat] hands back empty [bins] and
    [counts]; [histPercentiles32f] does not check for that and indexes
    the empty [bins], so that no pair is returned, whatever the
    percentile finder answers on the empty counts. *)
Theorem histPercentiles32f_all_nan_fails `{E : Externals} img lowPct highPct mm :
  type img = CV_32F → all_nan img = true →
  minMaxLoc img = Ok mm → reports_nan mm = true →
  returns (histPercentiles32f img lowPct highPct) = false.
Proof.
  intros Ht Hall Hmm Hrep. unfold histPercentiles32f.
  rewrite Ht, Z.eqb_refl.
  destruct (histFloat_all_nan_cases img 256 (mkFloatHist NAN NAN [] []) mm)
    as [Hh _]; [done..|]. rewrite Hh by done. cbn.
  destruct (findPercentileInHist [] lowPct); cbn; [|done..].
  destruct (findPercentileInHist [] highPct); cbn; [|done..].
  rewrite !vec_get_nil. reflexivity.
Qed.

Lemma histPercentiles32f_all_nan_fails_witness :
  type (MatF F32F 1 [[NAN]]) = CV_32F
  ∧ all_nan (MatF F32F 1 [[NAN]]) = true
  ∧ minMaxLoc (Externals := nan_platform) (MatF F32F 1 [[NAN]]) = Ok (NAN, NAN)
  ∧ reports_nan (NAN, NAN) = true
  ∧ returns (histPercentiles32f (E := nan_platform) (MatF F32F 1 [[NAN]])
               (F32.of_Z 1) (F32.of_Z 99)) = false.
Proof.
  split_and!; [reflexivity..|].
  apply (histPercentiles32f_all_nan_fails (E := nan_platform)
           (MatF F32F 1 [[NAN]]) (F32.of_Z 1) (F32.of_Z 99) (NAN, NAN));
    reflexivity.
Defined.

(** The same image where the reduction leaves NaN out: the histogram is
    the single bin at 0 and the pair is (0, 0), not (NaN, NaN). *)
Example histPercentiles32f_all_nan_ordered :
  histPercentiles32f (E := ordered_platform) (MatF F32F 1 [[NAN]])
    (F32.of_Z 1) (F32.of_Z 99)
  = Ok (F32.zero, F32.zero).
Proof. vm_compute. reflexivity. Qed.

(** C4, as stated: the histogram of [histPercentiles32f] starts at the
    smallest sample of the buffer.  On the buffer [2, 4] the smallest
    sample is 2 and the histogram starts at 0. *)
Lemma histFloat_lower_bound_not_min :
  ¬ (∀ h mm,
       histFloat (E := ordered_platform) (MatF F32F 1 [[F32.of_Z 2; F32.of_Z 4]])
         256 (mkFloatHist NAN NAN [] []) = Ok h →
       imgMinMax (E := ordered_platform) (MatF F32F 1 [[F32.of_Z 2; F32.of_Z 4]])
       = Ok mm →
       minVal h = mm.1).
Proof.
  intros H.
  assert (∃ h, histFloat (E := ordered_platform)
                 (MatF F32F 1 [[F32.of_Z 2; F32.of_Z 4]])
                 256 (mkFloatHist NAN NAN [] []) = Ok h
               ∧ minVal h = F32.zero) as (h & Hh & Hmin).
  { destruct (histFloat (E := ordered_platform)
                (MatF F32F 1 [[F32.of_Z 2; F32.of_Z 4]])
                256 (mkFloatHist NAN NAN [] [])) as [h| | |] eqn:Hh;
      vm_compute in Hh; try discriminate.
    injection Hh as <-. eexists. split; reflexivity. }
  assert (imgMinMax (E := ordered_platform)
            (MatF F32F 1 [[F32.of_Z 2; F32.of_Z 4]])
          = Ok (F32.of_Z 2, F32.of_Z 4)) as Hmm by (vm_compute; reflexivity).
  specialize (H h _ Hh Hmm). rewrite Hmin in H. clear -H.
  vm_compute in H. discriminate H.
Qed.

(** C4, as amended.  For a Float32 buffer whose maximum [M], as
    [imgMinMax] reports it, is above 0, [histPercentiles32f] builds 256
    bins over the range from 0, the default lower bound of [histFloat]
    and not the minimum of the buffer, to [M], widened by a tenth of a
    bin; bin [i] has lower edge [0 + i * (M / 256)], and the percentile
    indices are mapped to these lower edges. *)
Theorem histPercentiles32f_default_range `{E : Externals}
    img lowPct highPct mm :
  type img = CV_32F → imgMinMax img = Ok mm →
  isnan mm.2 = false → SFleb mm.2 F32.zero = false →
  SFltb F32.zero (widened F32.zero mm.2 256) = true →
  ∃ cnts,
    length cnts = 256%nat
    ∧ histFloat img 256 (mkFloatHist NAN NAN [] [])
      = Ok (mkFloatHist F32.zero (widened F32.zero mm.2 256)
              (bin_edge F32.zero (bin_size F32.zero mm.2 256) <$> seqZ 0 256)
              cnts)
    ∧ ∀ lowIdx highIdx,
        findPercentileInHist cnts lowPct = Ok lowIdx →
        findPercentileInHist cnts highPct = Ok highIdx →
        0 ≤ lowIdx < 256 → 0 ≤ highIdx < 256 →
        histPercentiles32f img lowPct highPct
        = Ok (bin_edge F32.zero (bin_size F32.zero mm.2 256) lowIdx,
              bin_edge F32.zero (bin_size F32.zero mm.2 256) highIdx).
Proof.
  intros Ht Hmm Hnan Hpos Hup.
  pose proof (histFloat_default_range img mm Hmm Hnan Hpos) as Hh.
  assert (depth img = CV_32F) as Hd by (by apply type_single in Ht as [-> _]).
  rewrite (calcHist_ok img 256) in Hh by (auto || lia).
  eexists. split_and!; [|exact Hh|].
  - by rewrite length_hist_ints_counters.
  - intros lowIdx highIdx Hlow Hhigh Hl Hr.
    unfold histPercentiles32f. rewrite Ht, Z.eqb_refl, Hh. cbn.
    rewrite Hlow, Hhigh. cbn.
    rewrite !vec_get_fmap_seqZ by done. reflexivity.
Qed.

Lemma histPercentiles32f_default_range_witness :
  let img := MatF F32F 1 [[F32.of_Z 2; F32.of_Z 4]] in
  let mm := (F32.of_Z 2, F32.of_Z 4) in
  type img = CV_32F
  ∧ imgMinMax (E := ordered_platform) img = Ok mm
  ∧ isnan mm.2 = false
  ∧ SFleb mm.2 F32.zero = false
  ∧ SFltb F32.zero (widened F32.zero mm.2 256) = true
  ∧ ∃ cnts,
      length cnts = 256%nat
      ∧ histFloat (E := ordered_platform) img 256 (mkFloatHist NAN NAN [] [])
        = Ok (mkFloatHist F32.zero (widened F32.zero mm.2 256)
                (bin_edge F32.zero (bin_size F32.zero mm.2 256) <$> seqZ 0 256)
                cnts)
      ∧ ∀ lowIdx highIdx,
          findPercentileInHist_spec cnts (F32.of_Z 1) = Ok lowIdx →
          findPercentileInHist_spec cnts (F32.of_Z 99) = Ok highIdx →
          0 ≤ lowIdx < 256 → 0 ≤ highIdx < 256 →
          histPercentiles32f (E := ordered_platform) img (F32.of_Z 1) (F32.of_Z 99)
          = Ok (bin_edge F32.zero (bin_size F32.zero mm.2 256) lowIdx,
                bin_edge F32.zero (bin_size F32.zero mm.2 256) highIdx).
Proof.
  cbv zeta.
  split_and!; [reflexivity|vm_compute; reflexivity|reflexivity|reflexivity
              |vm_compute; reflexivity|].
  apply (histPercentiles32f_default_range (E := ordered_platform)
           (MatF F32F 1 [[F32.of_Z 2; F32.of_Z 4]]) (F32.of_Z 1) (F32.of_Z 99)
           (F32.of_Z 2, F32.of_Z 4));
    [reflexivity|vm_compute; reflexivity|reflexivity|reflexivity
    |vm_compute; reflexivity].
Defined.




(** The two ends of the amended C5 on the range (0, 255), where the
    scale is 1: the sample -200 gives 200, and the samples 3000000000
    and -3000000000, whose magnitude is more than [INT_MAX], give 0. *)
Example imgTo8u_magnitude_and_overflow :
  imgTo8u (E := ordered_platform)
    (MatF F32F 1 [[F32.of_Z (-200); F32.of_Z 3000000000;
                   F32.of_Z (-3000000000)]])
    (F32.of_Z 0) (F32.of_Z 255)
  = Ok (MatI I8U 1 [[200; 0; 0]]).
Proof. vm_compute. reflexivity. Qed.

(** ** The sum of the counts under the default range *)

Lemma SFadd_valid_l sx mx ex y :
  valid_binary 24 128 (S754_finite sx mx ex) = true →
  valid_binary 24 128 (SFadd 24 128 (S754_finite sx mx ex) y) = true.
Proof.
  intros Hx. destruct y as [sy|sy| |sy my ey]; try done.
  cbn [SFadd]. apply binary_normalize_valid. lia.
Qed.

Lemma length_filter_fmap {A B} (f : A → B) (P : B → Prop) (Q : A → Prop)
    `{∀ x, Decision (P x)} `{∀ x, Decision (Q x)} (l : list A) :
  Forall (λ x, P (f x) ↔ Q x) l →
  length (filter P (f <$> l)) = length (filter Q l).
Proof.
  induction 1 as [|x l Hx _ IH]; [done|].
  rewrite fmap_cons, !filter_cons.
  destruct (decide (P (f x))), (decide (Q x)); cbn [length]; tauto || lia.
Qed.

Lemma histFloat_default_sum `{E : Externals} rws binCount h M :
  Z.of_nat (length (concat rws)) < 2 ^ 24 →
  0 < binCount ≤ INT_MAX → isnan (minVal h) = true →
  resolved_max (MatF F32F 1 rws) h = Ok M → valid32 M = true →
  SFltb F32.zero M = true →
  Forall (λ v, sample_upto M v = true) (concat rws) →
  finite (widened F32.zero M binCount) = true →
  SFltb M (widened F32.zero M binCount) = true →
  ∃ h',
    histFloat (MatF F32F 1 rws) binCount h = Ok h'
    ∧ sum_counts (counts h') = count_from F32.zero (MatF F32F 1 rws).
Proof.
  intros Hlen Hn Hmin Hmax HvM H0M Hall Hfin Hwide.
  set (img := MatF F32F 1 rws) in *.
  rewrite histFloat_cases, Hmax. cbn [mbind outcome_mbind outcome_bind].
  unfold resolved_min. rewrite Hmin.
  assert (∃ mM eM, M = S754_finite false mM eM) as (mM & eM & ->).
  { destruct M as [[]|[]| |[] mM eM]; try done; [|by eexists _, _].
    exfalso. revert Hwide. by destruct (widened _ _ _) as [|[]| |]. }
  cbn [isnan].
  replace (SFleb (S754_finite false mM eM) F32.zero) with false by done.
  set (hi := widened F32.zero (S754_finite false mM eM) binCount) in *.
  assert (valid32 hi = true) as Hvhi.
  { unfold hi, widened, F32.add. by apply SFadd_valid_l. }
  assert (∃ mH eH, hi = S754_finite false mH eH) as (mH & eH & HeqH).
  { destruct hi as [[]|[]| |[] mH eH]; try done. by eexists _, _. }
  assert (SFltb F32.zero hi = true) as H0hi by (by rewrite HeqH).
  unfold vec_resize. rewrite bool_decide_true by lia.
  cbn [mbind outcome_mbind outcome_bind].
  rewrite calcHist_ok; [|by right; right|lia|done].
  cbn [mbind outcome_mbind outcome_bind].
  eexists. split; [reflexivity|]. cbn [counts].
  destruct (bin_counters_exact img binCount F32.zero hi) as (-> & _ & ->);
    [lia|by unfold img; rewrite samples64_32F, length_fmap|].
  unfold count_from, counted_samples, img. rewrite samples64_32F.
  cbn [ptr_float]. f_equal. apply length_filter_fmap.
  eapply Forall_impl; [exact Hall|]. intros v [Hv Hle]%andb_prop. cbn beta.
  assert (isnan v = false → SFleb v (S754_finite false mM eM) = true) as Hle'
    by (by intros Hnan; rewrite Hnan in Hle).
  clear Hle. rename Hle' into Hle. rewrite HeqH in *.
  rewrite (counted_range binCount mM eM mH eH Hn HvM Hvhi Hwide v Hv Hle).
  done.
Qed.

Lemma count_from_zero rws :
  Forall (λ v, SFltb v F32.zero = false) (concat rws) →
  count_from F32.zero (MatF F32F 1 rws) = count_non_nan (MatF F32F 1 rws).
Proof.
  unfold count_from, count_non_nan. cbn [ptr_float]. unfold float32.
  generalize (concat rws). intros l Hall. f_equal.
  induction Hall as [|v vs Hv _ IH]; [done|].
  rewrite !filter_cons.
  destruct (decide (SFleb F32.zero v = true)) as [H1 | H1],
    (decide (isnan v = false)) as [H2 | H2]; cbn [length]; [by rewrite IH| | |done].
  - by destruct v.
  - by destruct v as [[]|[]| |[] mv ev].
Qed.

Lemma forallb_concat {A} (p : A → bool) (rws : list (list A)) :
  forallb (forallb p) rws = true → Forall (λ v, p v = true) (concat rws).
Proof.
  intros Hall. apply Forall_forall. intros v (r & Hr & Hv)%list_elem_of_In%in_concat.
  rewrite forallb_forall in Hall. apply Hall in Hr.
  rewrite forallb_forall in Hr. by apply Hr.
Qed.

(** C6, as stated: the counts of a histogram add up to the number of
    samples that are not NaN.  On the Float32 buffer [-1, 1] the default
    range is [0, 1]: the sample -1 lies below the first bin and is not
    counted, so that the counts add up to 1 for two samples. *)
Lemma histFloat_sum_misses_negative :
  ¬ (∀ h,
       histFloat_new (E := ordered_platform)
         (MatF F32F 1 [[F32.of_Z (-1); F32.of_Z 1]]) 4 NAN NAN = Ok h →
       sum_counts (counts h)
       = count_non_nan (MatF F32F 1 [[F32.of_Z (-1); F32.of_Z 1]])).
Proof.
  intros H.
  assert (∃ h, histFloat_new (E := ordered_platform)
                 (MatF F32F 1 [[F32.of_Z (-1); F32.of_Z 1]]) 4 NAN NAN = Ok h
               ∧ counts h = [0; 0; 0; 1]) as (h & Hh & Hc).
  { eexists. split; [vm_compute; reflexivity|reflexivity]. }
  specialize (H h Hh). rewrite Hc in H. clear -H. vm_compute in H.
  discriminate H.
Qed.

(** C6, as amended.  The counts of the integer histogram of a UInt8 or
    UInt16 buffer of at most [INT_MAX] samples add up to the number of its
    samples.  For a Float32 buffer of fewer than [2^24] samples,
    [histFloat] with the default lower bound 0, from 1 to 65536 bins and
    an upper bound [M] from [2^-98] up to [2^125] that no sample exceeds,
    as the maximum of the buffer is, returns counts that add up to the
    number of samples that are not NaN and not below 0: every sample
    from 0 to [M] falls in a bin, the maximum included, since the upper
    bound is widened by a tenth of a bin.  The sum is the number of
    samples that are not NaN when no sample is negative.  With any
    bounds, the counts add up to the number of samples [calcHist] places
    in a bin of the returned range, which is at most the number of
    samples that are not NaN. *)
Theorem histogram_counts_sum `{E : Externals} img :
  wf_mat img = true →
  (type img = CV_8U ∨ type img = CV_16U →
   Z.of_nat (length (samples_int img)) ≤ INT_MAX →
   ∃ cnts, histInt img = Ok cnts
           ∧ Z.of_nat (length cnts) = levels img
           ∧ sum_counts cnts = count_non_nan img)
  ∧ (type img = CV_32F →
     Z.of_nat (length (cv.samples64 img)) < 2 ^ 24 →
     (∀ binCount h M,
        0 < binCount ≤ 65536 → isnan (minVal h) = true →
        resolved_max img h = Ok M →
        valid32 M = true → mid_range32 M = true →
        forallb (forallb (sample_upto M)) (ptr_float img) = true →
        ∃ h',
          histFloat img binCount h = Ok h'
          ∧ sum_counts (counts h') = count_from F32.zero img
          ∧ (forallb (forallb (λ v, negb (SFltb v F32.zero))) (ptr_float img)
             = true →
             sum_counts (counts h') = count_non_nan img))
     ∧ ∀ binCount h h',
         histFloat img binCount h = Ok h' →
         sum_counts (counts h')
         = (if SFltb (minVal h') (maxVal h')
            then Z.of_nat (length (counted_samples img binCount
                                     (minVal h') (maxVal h')))
            else 0)
         ∧ sum_counts (counts h') ≤ count_non_nan img).
Proof.
  intros Hwf. split.
  - intros Ht Hlen. destruct (histInt_sum img Hwf Ht Hlen) as (cnts & ? & ? & Hs).
    exists cnts. split_and!; [done..|]. rewrite Hs.
    destruct Ht as [Ht | Ht];
      [destruct (type_8U img Ht) as [rws ->]
      |destruct (type_16U img Ht) as [rws ->]]; reflexivity.
  - intros Ht Hlen. split; [|intros binCount h h'; by apply histFloat_sum].
    intros binCount h M Hn Hmin Hmax HvM Hmid Hall%forallb_concat.
    destruct (type_32F img Ht) as [rws ->]. cbn [ptr_float] in *.
    rewrite samples64_32F, length_fmap in Hlen.
    destruct (widened_above M binCount HvM Hmid Hn) as (mH & eH & HeqH & Hlt).
    assert (SFltb F32.zero M = true) as H0M by (by destruct M as [| | |[]]).
    rewrite <- HeqH in Hlt.
    destruct (histFloat_default_sum rws binCount h M) as (h' & Hrun & Hsum);
      [done|unfold INT_MAX; lia|done..|by rewrite HeqH|done|].
    exists h'. split_and!; [done..|]. intros Hpos%forallb_concat.
    rewrite Hsum, count_from_zero; [done|].
    eapply Forall_impl; [exact Hpos|]. intros v Hv. cbn beta in Hv.
    by apply negb_true_iff in Hv.
Qed.

Lemma histogram_counts_sum_witness :
  let img8 := MatI I8U 1 [[0; 64; 128; 255]] in
  let imgF := MatF F32F 1 [[F32.of_Z (-1); F32.of_Z 0; F32.of_Z 1];
                           [F32.of_Z 2; NAN; F32.of_Z 1]] in
  let h := mkFloatHist NAN NAN [] [] in
  (wf_mat img8 = true
   ∧ ∃ cnts, histInt img8 = Ok cnts
             ∧ Z.of_nat (length cnts) = levels img8
             ∧ sum_counts cnts = count_non_nan img8)
  ∧ (wf_mat imgF = true
     ∧ resolved_max (E := ordered_platform) imgF h = Ok (F32.of_Z 2)
     ∧ valid32 (F32.of_Z 2) = true ∧ mid_range32 (F32.of_Z 2) = true
     ∧ forallb (forallb (sample_upto (F32.of_Z 2))) (ptr_float imgF) = true
     ∧ count_from F32.zero imgF = 4
     ∧ ∃ h',
         histFloat (E := ordered_platform) imgF 4 h = Ok h'
         ∧ sum_counts (counts h') = count_from F32.zero imgF
         ∧ (forallb (forallb (λ v, negb (SFltb v F32.zero))) (ptr_float imgF)
            = true →
            sum_counts (counts h') = count_non_nan imgF)).
Proof.
  cbv zeta.
  split.
  - split; [reflexivity|].
    destruct (histogram_counts_sum (E := ordered_platform)
                (MatI I8U 1 [[0; 64; 128; 255]]) eq_refl) as [Hint _].
    apply Hint; [left; reflexivity|vm_compute; discriminate].
  - split_and!; [reflexivity|vm_compute; reflexivity|reflexivity|reflexivity
                |reflexivity|reflexivity|].
    destruct (histogram_counts_sum (E := ordered_platform)
                (MatF F32F 1 [[F32.of_Z (-1); F32.of_Z 0; F32.of_Z 1];
                              [F32.of_Z 2; NAN; F32.of_Z 1]]) eq_refl)
      as [_ Hflt].
    destruct (Hflt eq_refl) as [Hdef _]; [vm_compute; reflexivity|].
    apply (Hdef 4 (mkFloatHist NAN NAN [] []) (F32.of_Z 2));
      [lia|reflexivity|vm_compute; reflexivity|reflexivity|reflexivity
      |reflexivity].
Defined.

(** The lower end of the middle range is needed: with the smallest
    positive [float] as the only sample, the widening of the upper bound
    is lost to rounding and the sample itself falls outside the last
    bin. *)
Example histFloat_sum_misses_tiny_maximum :
  ∃ h,
    histFloat_new (E := ordered_platform)
      (MatF F32F 1 [[S754_finite false 1 (-149)]]) 256 NAN NAN = Ok h
    ∧ sum_counts (counts h) = 0.
Proof. eexists. split; [vm_compute; reflexivity|reflexivity]. Qed.

(** C7, as stated: for every shift [s >= 0] the histogram has
    [256 >> s] slots and slot [k] counts the samples with [v >> s == k].
    For a UInt8 buffer and [s = 9] the vector has [256 >> 9 = 0] slots and
    the first sample increments [counts[0]], outside the vector: no
    histogram is returned. *)
Lemma histInt_shift_9_out_of_range :
  ¬ ∃ cnts, histInt_shift (MatI I8U 1 [[0]]) 9 = Ok cnts.
Proof. intros [cnts H]. vm_compute in H. discriminate H. Qed.

(** C7, as amended.  For a UInt8 buffer and [0 <= s <= 8], or a UInt16
    buffer and [0 <= s <= 16], [histInt] with shift [s] returns
    [256 >> s], respectively [65536 >> s], slots, and slot [k] holds the
    number of samples [v] with [v >> s = k], as a 32-bit [int]: exactly
    that number for a buffer of at most [INT_MAX] samples. *)
Theorem histInt_shift_exact img s :
  wf_mat img = true →
  (type img = CV_8U ∧ 0 ≤ s ≤ 8) ∨ (type img = CV_16U ∧ 0 ≤ s ≤ 16) →
  ∃ cnts,
    histInt_shift img s = Ok cnts
    ∧ Z.of_nat (length cnts) = levels img ≫ s
    ∧ (∀ k, 0 ≤ k < levels img ≫ s →
         cnts !! Z.to_nat k
         = Some (wrap_int (occurrences (λ v, v ≫ s) k (samples_int img))))
    ∧ (Z.of_nat (length (samples_int img)) ≤ INT_MAX →
       ∀ k, 0 ≤ k < levels img ≫ s →
         cnts !! Z.to_nat k
         = Some (occurrences (λ v, v ≫ s) k (samples_int img))).
Proof.
  intros Hwf Hts.
  destruct (histInt_shift_slots img s Hwf Hts) as (cnts & Hrun & Hlen & Hslots).
  exists cnts. split_and!; [done..|].
  intros Hmax k Hk. rewrite Hslots by done. f_equal.
  by apply occurrences_int.
Qed.

Lemma histInt_shift_exact_witness :
  let img := MatI I8U 1 [[0; 255; 128; 3]] in
  wf_mat img = true
  ∧ ((type img = CV_8U ∧ 0 ≤ 6 ≤ 8) ∨ (type img = CV_16U ∧ 0 ≤ 6 ≤ 16))
  ∧ ∃ cnts,
      histInt_shift img 6 = Ok cnts
      ∧ Z.of_nat (length cnts) = levels img ≫ 6
      ∧ (∀ k, 0 ≤ k < levels img ≫ 6 →
           cnts !! Z.to_nat k
           = Some (wrap_int (occurrences (λ v, v ≫ 6) k (samples_int img))))
      ∧ (Z.of_nat (length (samples_int img)) ≤ INT_MAX →
         ∀ k, 0 ≤ k < levels img ≫ 6 →
           cnts !! Z.to_nat k
           = Some (occurrences (λ v, v ≫ 6) k (samples_int img))).
Proof.
  cbv zeta.
  assert ((type (MatI I8U 1 [[0; 255; 128; 3]]) = CV_8U ∧ 0 ≤ 6 ≤ 8)
          ∨ (type (MatI I8U 1 [[0; 255; 128; 3]]) = CV_16U ∧ 0 ≤ 6 ≤ 16))
    as Hts by (left; split; [reflexivity|lia]).
  split_and!; [reflexivity|exact Hts|].
  apply (histInt_shift_exact (MatI I8U 1 [[0; 255; 128; 3]]) 6);
    [reflexivity|exact Hts].
Defined.

(** The reduction that leaves NaN out answers an image of NaNs with
    the bounds it started from. *)
Lemma scan_minmax_all_nan (vs : list float64) acc :
  forallb isnan vs = true →
  foldl (λ acc v,
           ((if SFltb v acc.1 then v else acc.1),
            (if SFltb acc.2 v then v else acc.2))) acc vs = acc.
Proof.
  revert acc. induction vs as [|v vs IH]; intros acc Hall; [done|].
  cbn in Hall. apply andb_prop in Hall as [Hv Hvs]. cbn [foldl].
  destruct v; try discriminate. rewrite SFltb_nan_r.
  replace (SFltb S754_nan acc.1) with false by (by destruct acc.1).
  rewrite IH by done. by destruct acc.
Qed.

Lemma minMaxLoc_ordered_all_nan rws :
  forallb (forallb isnan) rws = true → concat rws ≠ [] →
  cv.minMaxLoc_ordered (MatF F32F 1 rws)
  = Ok (S754_infinity false, S754_infinity true).
Proof.
  intros Hall Hne. unfold cv.minMaxLoc_ordered. cbn [channels negb Z.eqb Pos.eqb].
  cbn [cv.samples64]. rewrite channel0_one.
  destruct (F64.of_f32 <$> concat rws) as [|w ws] eqn:Hw.
  { by destruct (concat rws). }
  rewrite <- Hw. unfold cv.scan_minmax. rewrite scan_minmax_all_nan; [done|].
  apply forallb_forall. intros x [y [<- Hy]]%in_map_iff.
  apply in_concat in Hy as (r & Hr & Hy).
  rewrite forallb_forall in Hall. apply Hall in Hr.
  rewrite forallb_forall in Hr. apply Hr in Hy. by destruct y.
Qed.

(** The failing input of C8: on the buffer [NaN], with the reduction
    that leaves NaN out, [histFloat] does not return the empty
    histogram. *)
Example histFloat_all_nan_not_empty :
  ¬ ∃ h, histFloat_new (E := ordered_platform) (MatF F32F 1 [[NAN]]) 10 NAN NAN
         = Ok h
         ∧ bins h = [] ∧ counts h = [].
Proof.
  intros (h & Hh & Hb & _). vm_compute in Hh. injection Hh as <-.
  discriminate Hb.
Qed.

(** C8.  On a Float32 buffer whose samples are all NaN, [histFloat]
    called with an unspecified [maxVal] is meant to return the empty
    histogram: its comment reads "no non-nan values in image", and
    [imgMinMax] has a step "handle all nan" that answers NaN for such a
    buffer.  That step is nested in the branch [imgMinMax] takes when
    [cv::minMaxLoc] reported NaN.  Where the reduction reports numbers
    for the buffer, [imgMinMax] hands them on and [histFloat] never
    returns the empty histogram: whatever it returns has a bin and a
    count, and it is the single bin at [minVal] with the count 0 when the
    maximum reported is not above [minVal]. *)
Theorem histFloat_all_nan_unreported `{E : Externals} img binCount minVal0 mm :
  type img = CV_32F → all_nan img = true →
  minMaxLoc img = Ok mm → reports_nan mm = false →
  (∀ h, histFloat_new img binCount minVal0 NAN = Ok h →
        bins h ≠ [] ∧ counts h ≠ [])
  ∧ (SFleb (F32.of_f64 mm.2) (if isnan minVal0 then F32.zero else minVal0)
     = true →
     histFloat_new img binCount minVal0 NAN
     = Ok (mkFloatHist (if isnan minVal0 then F32.zero else minVal0)
             (F32.of_f64 mm.2)
             [if isnan minVal0 then F32.zero else minVal0] [0])).
Proof.
  intros Ht Hall Hmm Hrep. split.
  - by apply (histFloat_all_nan_cases img binCount
                (mkFloatHist minVal0 NAN [] []) mm).
  - intros Hle. unfold histFloat_new. rewrite histFloat_cases.
    rewrite (resolved_max_default img (mkFloatHist minVal0 NAN [] []) _
               eq_refl (imgMinMax_reported img mm Hmm Hrep)).
    cbn. unfold reports_nan in Hrep. apply orb_false_elim in Hrep as [_ ->].
    unfold resolved_min. cbn [minVal]. unfold float32 in *. by rewrite Hle.
Qed.

Lemma histFloat_all_nan_unreported_witness :
  let img := MatF F32F 1 [[NAN; NAN]; [NAN; NAN]] in
  let mm := (S754_infinity false, S754_infinity true) in
  type img = CV_32F
  ∧ all_nan img = true
  ∧ minMaxLoc (Externals := ordered_platform) img = Ok mm
  ∧ reports_nan mm = false
  ∧ (∀ h, histFloat_new (E := ordered_platform) img 10 NAN NAN = Ok h →
          bins h ≠ [] ∧ counts h ≠ [])
  ∧ (SFleb (F32.of_f64 mm.2) (if isnan NAN then F32.zero else NAN) = true →
     histFloat_new (E := ordered_platform) img 10 NAN NAN
     = Ok (mkFloatHist (if isnan NAN then F32.zero else NAN)
             (F32.of_f64 mm.2) [if isnan NAN then F32.zero else NAN] [0])).
Proof.
  cbv zeta. split_and!; [reflexivity..| |].
  all: apply (histFloat_all_nan_unreported (E := ordered_platform)
                (MatF F32F 1 [[NAN; NAN]; [NAN; NAN]]) 10 NAN
                (S754_infinity false, S754_infinity true)); reflexivity.
Defined.

(** The reduction of the model that leaves NaN out reports the bounds
    it started from, plus and minus infinity, for every buffer of NaNs
    that is not empty: the histogram is then the single bin at [minVal],
    whatever [binCount] is. *)
Lemma histFloat_all_nan_ordered rws binCount minVal0 :
  forallb (forallb isnan) rws = true → concat rws ≠ [] →
  histFloat_new (E := ordered_platform) (MatF F32F 1 rws) binCount minVal0 NAN
  = Ok (mkFloatHist (if isnan minVal0 then F32.zero else minVal0)
          (S754_infinity true)
          [if isnan minVal0 then F32.zero else minVal0] [0]).
Proof.
  intros Hall Hne. unfold histFloat_new. rewrite histFloat_cases.
  rewrite (resolved_max_default (E := ordered_platform) _
             (mkFloatHist minVal0 NAN [] []) _ eq_refl
             (imgMinMax_reported (E := ordered_platform) _ _
                (minMaxLoc_ordered_all_nan rws Hall Hne) eq_refl)).
  cbn. unfold resolved_min. cbn [minVal]. by destruct minVal0 as [[]|[]| |[] ? ?].
Qed.

(** Where the reduction reports NaN, the condition under which
    [imgMinMax] scans the buffer itself, the histogram of a buffer of
    NaNs is empty and the call does not fail. *)
Lemma histFloat_all_nan_empty `{E : Externals} img binCount minVal0 mm :
  type img = CV_32F → all_nan img = true →
  minMaxLoc img = Ok mm → reports_nan mm = true →
  histFloat_new img binCount minVal0 NAN
  = Ok (mkFloatHist (if isnan minVal0 then F32.zero else minVal0) NAN [] []).
Proof.
  intros Ht Hall Hmm Hrep.
  by apply (histFloat_all_nan_cases img binCount
              (mkFloatHist minVal0 NAN [] []) mm).
Qed.

(** C9.  For every buffer and every [binCount], [histFloat] called with
    [minVal] and [maxVal] that are not NaN and [maxVal <= minVal] ignores
    [binCount] and returns one bin with lower edge [minVal] and one count
    equal to 0; it does not fail. *)
Theorem histFloat_single_bin `{E : Externals} img binCount h :
  isnan (minVal h) = false → isnan (maxVal h) = false →
  SFleb (maxVal h) (minVal h) = true →
  histFloat img binCount h
  = Ok (mkFloatHist (minVal h) (maxVal h) [minVal h] [0]).
Proof.
  intros Hmin Hmax Hle. unfold histFloat. rewrite Hmin, Hmax. cbn.
  rewrite Hmax, Hle. cbn. by rewrite !insert_resize_one.
Qed.

Lemma histFloat_single_bin_witness :
  let h := mkFloatHist (F32.of_Z 5) (F32.of_Z 5) [] [] in
  isnan (minVal h) = false
  ∧ isnan (maxVal h) = false
  ∧ SFleb (maxVal h) (minVal h) = true
  ∧ histFloat (E := ordered_platform) (MatF F32F 1 [[F32.of_Z 1; F32.of_Z 9]]) 10 h
    = Ok (mkFloatHist (minVal h) (maxVal h) [minVal h] [0]).
Proof.
  cbv zeta. split_and!; [reflexivity..|].
  apply (histFloat_single_bin (E := ordered_platform)); reflexivity.
Defined.

(** C10.  In [convertForSave] the rescale-to-8-bit branch comes before
    the rows of the formats: for a single-channel UInt16, Int32 or
    Float32 buffer and target ppm, pbm or pgm the percentile rescale path
    is taken, and the ppm channel replication and the pbm/pgm byte cast
    are only applied to buffers of type [CV_8U]. *)
Theorem convertForSave_auto_range_first `{E : Externals} img inputExt :
  getNormalizedExt inputExt = "ppm" ∨ getNormalizedExt inputExt = "pbm"
  ∨ getNormalizedExt inputExt = "pgm" →
  (type img = CV_16U ∨ type img = CV_32S ∨ type img = CV_32F →
   save_action (type img) (getNormalizedExt inputExt) = AutoRange8u
   ∧ convertForSave img inputExt
     = (t ← histPercentiles img (F32.of_Z 1) (F32.of_Z 99);
        dst ← imgTo8u img t.1 t.2;
        mret (dst, true)))
  ∧ (save_action (type img) (getNormalizedExt inputExt) = PpmGray2Bgr
     ∨ save_action (type img) (getNormalizedExt inputExt) = PgmTo8UC1 →
     type img = CV_8U).
Proof.
  intros Hext. split.
  - intros Ht.
    assert (save_action (type img) (getNormalizedExt inputExt) = AutoRange8u)
      as Hact.
    { apply save_action_auto; [done|].
      unfold wide. by destruct Hext as [-> | [-> | ->]]. }
    split; [done|]. unfold convertForSave. by rewrite Hact.
  - apply save_action_gray.
Qed.

Lemma convertForSave_auto_range_first_witness :
  let img := MatI I16U 1 [[0; 100; 200; 1000]] in
  (getNormalizedExt_spec ".pgm" = "ppm" ∨ getNormalizedExt_spec ".pgm" = "pbm"
   ∨ getNormalizedExt_spec ".pgm" = "pgm")
  ∧ (type img = CV_16U ∨ type img = CV_32S ∨ type img = CV_32F →
     save_action (type img) (getNormalizedExt_spec ".pgm") = AutoRange8u
     ∧ convertForSave (E := ordered_platform) img ".pgm"
       = (t ← histPercentiles (E := ordered_platform) img (F32.of_Z 1) (F32.of_Z 99);
          dst ← imgTo8u (E := ordered_platform) img t.1 t.2;
          mret (dst, true)))
  ∧ (save_action (type img) (getNormalizedExt_spec ".pgm") = PpmGray2Bgr
     ∨ save_action (type img) (getNormalizedExt_spec ".pgm") = PgmTo8UC1 →
     type img = CV_8U).
Proof.
  cbv zeta.
  assert (getNormalizedExt_spec ".pgm" = "ppm" ∨ getNormalizedExt_spec ".pgm" = "pbm"
          ∨ getNormalizedExt_spec ".pgm" = "pgm") as Hext
    by (right; right; reflexivity).
  split; [exact Hext|].
  apply (convertForSave_auto_range_first (E := ordered_platform)
           (MatI I16U 1 [[0; 100; 200; 1000]]) ".pgm").
  exact Hext.
Defined.

(** * Further properties of [ImageUtil.cpp] *)

(** ** Helpers *)

Lemma for_each_ext {A S} (f g : S → A → outcome S) xs s :
  (∀ s x, f s x = g s x) → for_each f xs s = for_each g xs s.
Proof.
  intros Hfg. revert s. induction xs as [|x xs IH]; intros s; [done|].
  cbn [for_each]. rewrite Hfg. destruct (g s x); cbn; [apply IH|done..].
Qed.

Lemma count_rows_shift_zero rws counts :
  count_rows (λ v, shr_int v 0) rws counts = count_rows Ok rws counts.
Proof.
  unfold count_rows. apply for_each_ext. intros s ps.
  apply for_each_ext. intros c v. unfold shr_int.
  rewrite bool_decide_true by lia. by rewrite Z.shiftr_0_r.
Qed.

Lemma int_of_ok z : INT_MIN ≤ z ≤ INT_MAX → int_of z = Ok z.
Proof. intros H. unfold int_of. by rewrite bool_decide_true. Qed.

Lemma int_of_inv z r : int_of z = Ok r → r = z ∧ INT_MIN ≤ z ≤ INT_MAX.
Proof. unfold int_of. case_bool_decide; [|done]. by intros [= <-]. Qed.

Lemma bind_Ok {A B} (a : A) (k : A → outcome B) : (Ok a ≫= k) = k a.
Proof. reflexivity. Qed.

Lemma bind_inv {A B} (c : outcome A) (k : A → outcome B) b :
  (c ≫= k) = Ok b → ∃ a, c = Ok a ∧ k a = Ok b.
Proof. destruct c; cbn; [eauto|done..]. Qed.

(** ** The histograms and the scan for the extremes *)

(** X1.  The two overloads of [histInt] agree: with a shift of 0 the
    histogram by bit shift is the exact histogram, failures included. *)
Theorem histInt_shift_zero img : histInt_shift img 0 = histInt img.
Proof.
  unfold histInt_shift, histInt.
  destruct (type img =? CV_8U); [apply count_rows_shift_zero|].
  destruct (type img =? CV_16U); [apply count_rows_shift_zero|done].
Qed.

(** X2.  Whenever [histFloat] returns, [bins] and [counts] have the same
    length: none when the maximum is NaN, one when the range is empty,
    and [binCount] otherwise. *)
Theorem histFloat_lengths `{E : Externals} img binCount h h' :
  histFloat img binCount h = Ok h' →
  length (bins h') = length (counts h')
  ∧ (length (bins h') = 0%nat ∨ length (bins h') = 1%nat
     ∨ (0 < binCount ∧ length (bins h') = Z.to_nat binCount)).
Proof.
  rewrite histFloat_cases.
  destruct (resolved_max img h) as [hi| | |]; cbn; [|done..].
  destruct (isnan hi); [intros [= <-]; cbn; auto|].
  destruct (SFleb hi _); [intros [= <-]; cbn; auto|].
  destruct (vec_resize _ _ _); cbn; [|done..].
  destruct (cv.calcHist _ _ _ _) as [m| | |] eqn:Hc; cbn; [|done..].
  apply calcHist_inv in Hc as (Hn & _ & ->). intros [= <-]. cbn.
  rewrite length_fmap, length_seqZ, length_hist_ints_counters.
  split; [done|]. right. right. done.
Qed.

Lemma histFloat_lengths_witness :
  ∃ h', histFloat_new (E := ordered_platform)
          (MatF F32F 1 [[F32.of_Z 1; F32.of_Z 2; F32.of_Z 3]]) 4 NAN NAN = Ok h'
        ∧ length (bins h') = length (counts h')
        ∧ (length (bins h') = 0%nat ∨ length (bins h') = 1%nat
           ∨ (0 < 4 ∧ length (bins h') = Z.to_nat 4)).
Proof.
  eexists. split; [vm_compute; reflexivity|].
  apply (histFloat_lengths (E := ordered_platform)
           (MatF F32F 1 [[F32.of_Z 1; F32.of_Z 2; F32.of_Z 3]]) 4
           (mkFloatHist NAN NAN [] [])).
  vm_compute. reflexivity.
Defined.

(** The first component of the scan is the smallest sample that is not
    NaN, or the value it started from. *)
Lemma minmax_scan_min (vs : list float32) : ∀ acc : float32 * float32,
  isnan acc.1 = false →
  let r := foldl minmax_step acc vs in
  isnan r.1 = false
  ∧ SFltb acc.1 r.1 = false
  ∧ (∀ v, v ∈ vs → isnan v = false → SFltb v r.1 = false)
  ∧ (r.1 = acc.1 ∨ r.1 ∈ vs).
Proof.
  induction vs as [|x vs IH]; intros acc Hacc; cbn zeta; cbn [foldl].
  - split_and!; [done|apply SFltb_irrefl| |by left].
    intros v Hv. by apply not_elem_of_nil in Hv.
  - destruct (IH (minmax_step acc x)) as (Hn & Hge & Hall & Hin).
    { unfold minmax_step. destruct (isnan x) eqn:Hx; cbn [negb fst]; [done|].
      unfold std_min. destruct (SFltb x _); assumption. }
    cbn zeta in *. set (r := foldl minmax_step (minmax_step acc x) vs) in *.
    unfold minmax_step in Hge, Hin.
    destruct (isnan x) eqn:Hx; cbn [negb fst] in Hge, Hin.
    + split_and!; [done..| |].
      * intros v [-> | Hv]%elem_of_cons Hnv; [congruence|by apply Hall].
      * destruct Hin as [? | ?]; [by left|right; by apply elem_of_cons; right].
    + unfold std_min in Hge, Hin. destruct (SFltb x _) eqn:Hlt.
      * split_and!; [done| | |].
        -- destruct (SFltb acc.1 r.1) eqn:Hc; [|done].
           by rewrite (SFltb_trans _ _ _ Hlt Hc) in Hge.
        -- intros v [-> | Hv]%elem_of_cons Hnv; [done|by apply Hall].
        -- right. apply elem_of_cons.
           destruct Hin as [-> | ?]; [by left|by right].
      * split_and!; [done..| |].
        -- intros v [-> | Hv]%elem_of_cons Hnv; [|by apply Hall].
           destruct (SFltb x _) eqn:Hc in |- *; [|done].
           destruct (SFltb_cotrans _ acc.1 _ Hacc Hc); congruence.
        -- destruct Hin as [? | ?]; [by left|right; by apply elem_of_cons; right].
Qed.

Lemma all_nan_false img :
  all_nan img = false →
  ∃ v, v ∈ concat (ptr_float img) ∧ isnan v = false.
Proof.
  unfold all_nan. generalize (ptr_float img) as rws.
  induction rws as [|p rws IH]; cbn [forallb concat]; [done|].
  intros [Hp | Hr]%andb_false_iff.
  - assert (∃ v, v ∈ p ∧ isnan v = false) as (v & Hv & Hn).
    { clear -Hp. induction p as [|x p IH]; cbn [forallb] in Hp; [done|].
      apply andb_false_iff in Hp as [Hx | Hp].
      - exists x. split; [apply elem_of_cons; by left|done].
      - destruct (IH Hp) as (v & ? & ?). exists v.
        split; [apply elem_of_cons; by right|done]. }
    exists v. split; [|done]. apply elem_of_app. by left.
  - destruct (IH Hr) as (v & ? & ?). exists v.
    split; [|done]. apply elem_of_app. by right.
Qed.

(** X3.  On a 32F image that holds a sample other than NaN and for which
    [cv::minMaxLoc] reports NaN, [imgMinMax] returns two bounds that are
    not NaN, with every sample that is not NaN between them.  Each bound
    is a sample of the image or the value its scan started from
    ([FLT_MAX] for the minimum, [-FLT_MAX] for the maximum). *)
Theorem imgMinMax_fallback_range `{E : Externals} img mm :
  type img = CV_32F → minMaxLoc img = Ok mm → reports_nan mm = true →
  all_nan img = false →
  ∃ lo hi,
    imgMinMax img = Ok (lo, hi)
    ∧ isnan lo = false ∧ isnan hi = false ∧ SFltb hi lo = false
    ∧ (∀ v, v ∈ concat (ptr_float img) → isnan v = false →
            SFltb v lo = false ∧ SFltb hi v = false)
    ∧ (lo = F32.FLT_MAX ∨ lo ∈ concat (ptr_float img))
    ∧ (hi = SFopp F32.FLT_MAX ∨ hi ∈ concat (ptr_float img)).
Proof.
  intros Ht Hmm Hrep Hsome. unfold imgMinMax. rewrite Hmm. cbn.
  unfold reports_nan in Hrep. rewrite Hrep, Ht. cbn.
  rewrite minmax_scan_concat.
  destruct (minmax_scan_max (concat (ptr_float img))
              (F32.FLT_MAX, SFopp F32.FLT_MAX)) as (Hn2 & _ & Hall2 & Hin2);
    [done|].
  destruct (minmax_scan_min (concat (ptr_float img))
              (F32.FLT_MAX, SFopp F32.FLT_MAX)) as (Hn1 & _ & Hall1 & Hin1);
    [done|].
  cbn zeta in *. set (scan := foldl minmax_step _ _) in *.
  destruct (all_nan_false img Hsome) as (v & Hv & Hnv).
  assert (SFltb scan.2 scan.1 = false) as Hord.
  { destruct (SFltb scan.2 scan.1) eqn:Hc; [|done].
    destruct (SFltb_cotrans _ v _ Hnv Hc) as [H | H].
    - by rewrite (Hall2 v Hv Hnv) in H.
    - by rewrite (Hall1 v Hv Hnv) in H. }
  rewrite Hord. exists scan.1, scan.2.
  split_and!; [by destruct scan|done..| |done|done].
  intros w Hw Hnw. split; [by apply Hall1|by apply Hall2].
Qed.

Lemma imgMinMax_fallback_range_witness :
  let img := MatF F32F 1 [[NAN; F32.of_Z 3]; [F32.of_Z (-2); NAN]] in
  type img = CV_32F
  ∧ minMaxLoc (Externals := nan_platform) img = Ok (NAN, NAN)
  ∧ reports_nan (NAN, NAN) = true
  ∧ all_nan img = false
  ∧ ∃ lo hi,
      imgMinMax (E := nan_platform) img = Ok (lo, hi)
      ∧ isnan lo = false ∧ isnan hi = false ∧ SFltb hi lo = false
      ∧ (∀ v, v ∈ concat (ptr_float img) → isnan v = false →
              SFltb v lo = false ∧ SFltb hi v = false)
      ∧ (lo = F32.FLT_MAX ∨ lo ∈ concat (ptr_float img))
      ∧ (hi = SFopp F32.FLT_MAX ∨ hi ∈ concat (ptr_float img)).
Proof.
  cbv zeta. split_and!; [reflexivity..|].
  apply (imgMinMax_fallback_range (E := nan_platform)
           (MatF F32F 1 [[NAN; F32.of_Z 3]; [F32.of_Z (-2); NAN]]) (NAN, NAN));
    reflexivity.
Defined.

(** ** [imgTo8u] *)

Lemma constant_to_zero_all c : 0 ≤ c ≤ 255 → constant_to_zero c = true.
Proof.
  intros Hc.
  assert (forallb constant_to_zero (seqZ 0 256) = true) as Hall
    by (vm_compute; reflexivity).
  rewrite forallb_forall in Hall. apply Hall.
  apply list_elem_of_In, elem_of_seqZ. lia.
Qed.

(** X4.  With the range left unset, [imgTo8u] turns a constant 8U image
    into an image of zeros: the minimum and the maximum are the same, the
    scale is infinite and every scaled sample is NaN. *)
Theorem imgTo8u_constant_image `{E : Externals} rws c lowVal highVal :
  0 ≤ c ≤ 255 →
  forallb (forallb (Z.eqb c)) rws = true →
  minMaxLoc (MatI I8U 1 rws) = Ok (F64.of_Z c, F64.of_Z c) →
  SFleb highVal lowVal = true →
  imgTo8u (MatI I8U 1 rws) lowVal highVal
  = Ok (MatI I8U 1 (map (map (λ _, 0)) rws)).
Proof.
  intros Hc Hall Hmm Hrange.
  pose proof (constant_to_zero_all c Hc) as Hz. unfold constant_to_zero in Hz.
  cbv zeta in Hz. apply andb_prop in Hz as [Hn Hz].
  apply negb_true_iff in Hn. apply Z.eqb_eq in Hz.
  rewrite imgTo8u_cases. unfold resolved_range. rewrite Hrange.
  rewrite (imgMinMax_reported _ _ Hmm); [|unfold reports_nan; cbn; by rewrite Hn].
  cbn. do 2 f_equal.
  rewrite forallb_forall in Hall.
  apply map_ext_in. intros row Hrow. specialize (Hall row Hrow).
  rewrite forallb_forall in Hall.
  apply map_ext_in. intros v Hv. apply Hall, Z.eqb_eq in Hv as <-.
  exact Hz.
Qed.

Lemma imgTo8u_constant_image_witness :
  let rws := [[7; 7; 7]; [7; 7; 7]] in
  0 ≤ 7 ≤ 255
  ∧ forallb (forallb (Z.eqb 7)) rws = true
  ∧ minMaxLoc (Externals := ordered_platform) (MatI I8U 1 rws)
    = Ok (F64.of_Z 7, F64.of_Z 7)
  ∧ SFleb F32.zero F32.zero = true
  ∧ imgTo8u (E := ordered_platform) (MatI I8U 1 rws) F32.zero F32.zero
    = Ok (MatI I8U 1 [[0; 0; 0]; [0; 0; 0]]).
Proof.
  cbv zeta. split_and!; [lia|lia|reflexivity|vm_compute; reflexivity|reflexivity|].
  apply (imgTo8u_constant_image (E := ordered_platform)
           [[7; 7; 7]; [7; 7; 7]] 7 F32.zero F32.zero);
    [lia|reflexivity|vm_compute; reflexivity|reflexivity].
Defined.

Lemma binary_round_aux_opp prec emax s m e l :
  binary_round_aux prec emax (negb s) m e l
  = SFopp (binary_round_aux prec emax s m e l).
Proof.
  unfold binary_round_aux.
  destruct (shr_fexp prec emax m e l) as [mrs' e'].
  destruct (shr_fexp prec emax _ e' loc_Exact) as [mrs'' e''].
  destruct (shr_m mrs''); [done| |done].
  by destruct (e'' <=? emax - prec).
Qed.

Lemma SFmul_comm prec emax a b : SFmul prec emax a b = SFmul prec emax b a.
Proof.
  destruct a as [sa|sa| |sa ma ea], b as [sb|sb| |sb mb eb]; cbn;
    try done; try (by rewrite xorb_comm).
  by rewrite xorb_comm, Pos.mul_comm, Z.add_comm.
Qed.

Lemma SFmul_opp_l prec emax a b :
  SFmul prec emax (SFopp a) b = SFopp (SFmul prec emax a b).
Proof.
  destruct a as [sa|sa| |sa ma ea], b as [sb|sb| |sb mb eb]; cbn;
    try done; try (by destruct sa, sb).
  rewrite <- binary_round_aux_opp. by destruct sa, sb.
Qed.

Lemma SFadd_opp_finite prec emax x :
  finite x = true → SFadd prec emax x (SFopp x) = S754_zero false.
Proof.
  destruct x as [s|s| |s m e]; try done; [by destruct s|]. intros _.
  cbn [SFadd SFopp]. cbv zeta. rewrite Z.min_id.
  unfold shl_align. rewrite Z.sub_diag. cbn [fst].
  replace (cond_Zopp s (Z.pos m) + cond_Zopp (negb s) (Z.pos m)) with 0
    by (destruct s; cbn; lia).
  reflexivity.
Qed.

(** The sample equal to the lower end of the range is rescaled to 0. *)
Lemma rescale_abs_low lowVal highVal :
  finite (F32.mul lowVal (scale lowVal highVal)) = true →
  rescale_abs (scale lowVal highVal) (offset lowVal highVal) lowVal = 0.
Proof.
  intros Hfin. unfold rescale_abs, offset, F32.mul, F32.add in *.
  rewrite SFmul_opp_l, (SFmul_comm _ _ (scale lowVal highVal)).
  by rewrite SFadd_opp_finite.
Qed.

Lemma elem_at_map {A B} (f : A → B) (rws : list (list A)) y x v :
  elem_at rws y x = Ok v → elem_at (map (map f) rws) y x = Ok (f v).
Proof.
  unfold elem_at. case_bool_decide; [|done].
  change (map (map f) rws) with (map f <$> rws). rewrite list_lookup_fmap.
  destruct (rws !! Z.to_nat y) as [row|]; [|done]. cbn.
  change (map f row) with (f <$> row). rewrite list_lookup_fmap.
  destruct (row !! Z.to_nat x); [|done]. by intros [= ->].
Qed.

(** X5.  [imgTo8u] pins the lower end of its range to 0, as its
    documentation says: with the range it works with, the one given or
    the minimum and maximum of the image, every sample equal to the
    lower end becomes 0, as long as the product of the lower end and
    the scale is a number. *)
Theorem imgTo8u_low_to_zero `{E : Externals} img lowVal highVal range :
  resolved_range img lowVal highVal = Ok range →
  finite (F32.mul range.1 (scale range.1 range.2)) = true →
  ∃ dst,
    imgTo8u img lowVal highVal = Ok dst
    ∧ ∀ r c, elem_at (samples32 img) r c = Ok range.1 →
             elem_at (ptr_int dst) r c = Ok 0.
Proof.
  intros Hrange Hfin. rewrite imgTo8u_cases, Hrange, bind_Ok.
  eexists. split; [done|]. intros r c Hat.
  rewrite convertScaleAbs_samples.
  rewrite (elem_at_map _ _ _ _ _ Hat). f_equal.
  by apply rescale_abs_low.
Qed.

Lemma imgTo8u_low_to_zero_witness :
  let img := MatF F32F 1 [[F32.of_Z 10; F32.of_Z 15; F32.of_Z 20]] in
  let range := (F32.of_Z 10, F32.of_Z 20) in
  resolved_range (E := ordered_platform) img (F32.of_Z 10) (F32.of_Z 20)
  = Ok range
  ∧ finite (F32.mul range.1 (scale range.1 range.2)) = true
  ∧ ∃ dst,
      imgTo8u (E := ordered_platform) img (F32.of_Z 10) (F32.of_Z 20) = Ok dst
      ∧ ∀ r c, elem_at (samples32 img) r c = Ok range.1 →
               elem_at (ptr_int dst) r c = Ok 0.
Proof.
  cbv zeta. split_and!; [reflexivity|reflexivity|].
  apply (imgTo8u_low_to_zero (E := ordered_platform)
           (MatF F32F 1 [[F32.of_Z 10; F32.of_Z 15; F32.of_Z 20]])
           (F32.of_Z 10) (F32.of_Z 20) (F32.of_Z 10, F32.of_Z 20));
    reflexivity.
Defined.

(** ** [convertForSave] *)

Lemma save_action_pass t ext :
  (wide ext = true ∧ t ≠ CV_32S)
  ∨ (t ≠ CV_16U ∧ t ≠ CV_32S ∧ t ≠ CV_32F
     ∧ ext ≠ "ppm" ∧ ext ≠ "pbm" ∧ ext ≠ "pgm") →
  save_action t ext = PassThrough.
Proof.
  unfold save_action, wide. intros [[Hw Ht] | (H1 & H2 & H3 & H4 & H5 & H6)].
  - rewrite Hw. rewrite (proj2 (Z.eqb_neq t CV_32S) Ht). cbn.
    rewrite !andb_false_r.
    apply orb_prop in Hw as [Hw | Hw]; apply bool_decide_eq_true in Hw as ->;
      reflexivity.
  - rewrite (proj2 (Z.eqb_neq _ _) H1), (proj2 (Z.eqb_neq _ _) H2),
      (proj2 (Z.eqb_neq _ _) H3). cbn.
    by rewrite !bool_decide_false by done.
Qed.

Lemma convertForSave_unchanged `{E : Externals} img inputExt :
  (wide (getNormalizedExt inputExt) = true ∧ type img ≠ CV_32S)
  ∨ (type img ≠ CV_16U ∧ type img ≠ CV_32S ∧ type img ≠ CV_32F
     ∧ getNormalizedExt inputExt ≠ "ppm" ∧ getNormalizedExt inputExt ≠ "pbm"
     ∧ getNormalizedExt inputExt ≠ "pgm") →
  convertForSave img inputExt = Ok (img, false).
Proof.
  intros H. unfold convertForSave. by rewrite (save_action_pass _ _ H).
Qed.

(** X6.  [convertForSave] passes the image through, with [wasChanged]
    false and without failing, for every tif/tiff target unless the image
    is 32S, and for every target other than ppm, pbm and pgm unless the
    image is 16U, 32S or 32F. *)
Theorem convertForSave_pass_through `{E : Externals} img inputExt :
  (wide (getNormalizedExt inputExt) = true ∧ type img ≠ CV_32S)
  ∨ (type img ≠ CV_16U ∧ type img ≠ CV_32S ∧ type img ≠ CV_32F
     ∧ getNormalizedExt inputExt ≠ "ppm" ∧ getNormalizedExt inputExt ≠ "pbm"
     ∧ getNormalizedExt inputExt ≠ "pgm") →
  convertForSave img inputExt = Ok (img, false).
Proof. apply convertForSave_unchanged. Qed.

Lemma convertForSave_pass_through_witness :
  let img := MatF F32F 1 [[F32.of_Z 1; NAN]] in
  ((wide (getNormalizedExt_spec ".tiff") = true ∧ type img ≠ CV_32S)
   ∨ (type img ≠ CV_16U ∧ type img ≠ CV_32S ∧ type img ≠ CV_32F
      ∧ getNormalizedExt_spec ".tiff" ≠ "ppm"
      ∧ getNormalizedExt_spec ".tiff" ≠ "pbm"
      ∧ getNormalizedExt_spec ".tiff" ≠ "pgm"))
  ∧ convertForSave (E := ordered_platform) img ".tiff" = Ok (img, false).
Proof.
  cbv zeta.
  assert (wide (getNormalizedExt_spec ".tiff") = true
          ∧ type (MatF F32F 1 [[F32.of_Z 1; NAN]]) ≠ CV_32S) as Hw
    by (split; [reflexivity|vm_compute; discriminate]).
  split; [left; exact Hw|].
  apply (convertForSave_pass_through (E := ordered_platform)
           (MatF F32F 1 [[F32.of_Z 1; NAN]]) ".tiff").
  left. exact Hw.
Defined.

Lemma type_imgTo8u `{E : Externals} img lowVal highVal dst :
  imgTo8u img lowVal highVal = Ok dst →
  type dst = CV_MAKETYPE CV_8U (channels img).
Proof.
  unfold imgTo8u. destruct (if SFleb _ _ then _ else _); cbn; try discriminate.
  intros [= <-]. apply type_convertScaleAbs.
Qed.

Lemma type_cvtColor img code dstCn dst d c :
  0 ≤ d < 8 → type img = CV_MAKETYPE d c →
  cv.cvtColor img code dstCn = Ok dst →
  type dst = CV_MAKETYPE d (if cv.to_gray code then 1
                            else if 0 <? dstCn then dstCn
                                 else cv.dstChannels code).
Proof.
  intros Hd Ht Hc. apply channels_cvtColor in Hc as [Hdep Hch].
  apply type_inv in Ht as [Hdi _]; [|done].
  unfold type. by rewrite Hdep, Hch, Hdi.
Qed.

(** X7.  For the targets pbm and pgm, every image that [convertForSave]
    returns is single-channel 8-bit ([CV_8U]). *)
Theorem convertForSave_pgm_type `{E : Externals} img inputExt dst isChanged :
  getNormalizedExt inputExt = "pbm" ∨ getNormalizedExt inputExt = "pgm" →
  convertForSave img inputExt = Ok (dst, isChanged) →
  type dst = CV_8U.
Proof.
  intros Hext. unfold convertForSave.
  pose proof (save_action_spec (type img) (getNormalizedExt inputExt)) as Hs.
  destruct (save_action _ _) eqn:Ha; cbn.
  - destruct Hs as [Ht _].
    destruct (histPercentiles _ _ _) as [t| | |] eqn:Hp; cbn; try discriminate.
    destruct (imgTo8u _ _ _) as [d| | |] eqn:Hi; cbn; try discriminate.
    intros [= <- <-]. rewrite (type_imgTo8u _ _ _ _ Hi).
    destruct Ht as [Ht | [Ht | Ht]];
      (apply type_single in Ht as [_ ->]; [reflexivity|unfold_codes; lia]).
  - destruct Hs as [_ Hw]. unfold wide in Hw.
    destruct Hext as [Hext | Hext]; rewrite Hext in Hw; discriminate.
  - destruct Hs as [_ Hp]. destruct Hext as [Hext | Hext]; congruence.
  - destruct Hs as [_ Hp]. destruct Hext as [Hext | Hext]; congruence.
  - destruct Hs as [_ Hp]. destruct Hext as [Hext | Hext]; congruence.
  - discriminate.
  - destruct Hs as [Ht _]. intros [= <- <-].
    rewrite type_convertTo by (change CV_8UC1 with 0; lia).
    apply type_single in Ht as [_ ->]; [reflexivity|unfold_codes; lia].
  - destruct Hs as [Ht _].
    destruct (cv.cvtColor _ _ _) as [d| | |] eqn:Hc; cbn; try discriminate.
    intros [= <- <-].
    by rewrite (type_cvtColor _ _ _ _ CV_8U 3 ltac:(unfold_codes; lia) Ht Hc).
  - destruct Hs as [Ht _].
    destruct (cv.cvtColor _ _ _) as [d| | |] eqn:Hc; cbn; try discriminate.
    intros [= <- <-].
    by rewrite (type_cvtColor _ _ _ _ CV_8U 4 ltac:(unfold_codes; lia) Ht Hc).
  - discriminate.
  - exfalso. revert Ha. unfold save_action.
    destruct Hext as [-> | ->]; cbn; repeat case_match; discriminate.
Qed.

Lemma convertForSave_pgm_type_witness :
  ∃ dst,
    (getNormalizedExt_spec "pgm" = "pbm" ∨ getNormalizedExt_spec "pgm" = "pgm")
    ∧ convertForSave (E := ordered_platform)
        (MatI I8U 3 [[10; 20; 30; 40; 50; 60]]) "pgm" = Ok (dst, true)
    ∧ type dst = CV_8U.
Proof.
  eexists. split; [right; reflexivity|].
  split; [vm_compute; reflexivity|].
  apply (convertForSave_pgm_type (E := ordered_platform)
           (MatI I8U 3 [[10; 20; 30; 40; 50; 60]]) "pgm" _ true);
    [right; reflexivity|vm_compute; reflexivity].
Defined.

(** X8.  For the target ppm, an image that [convertForSave] returns is
    8-bit with three channels when the input was 8U, 8UC3 or 8UC4; a
    16U or 32F input comes back rescaled to a single 8-bit channel,
    since the rescaling arm is taken before the ppm arm. *)
Theorem convertForSave_ppm_type `{E : Externals} img inputExt dst isChanged :
  getNormalizedExt inputExt = "ppm" →
  convertForSave img inputExt = Ok (dst, isChanged) →
  (type dst = CV_8UC3
   ∧ (type img = CV_8U ∨ type img = CV_8UC3 ∨ type img = CV_8UC4))
  ∨ (type dst = CV_8U ∧ (type img = CV_16U ∨ type img = CV_32F)).
Proof.
  intros Hext. unfold convertForSave.
  pose proof (save_action_spec (type img) (getNormalizedExt inputExt)) as Hs.
  destruct (save_action _ _) eqn:Ha; cbn.
  - destruct Hs as [Ht _].
    destruct (histPercentiles _ _ _) as [t| | |] eqn:Hp; cbn; try discriminate.
    destruct (imgTo8u _ _ _) as [d| | |] eqn:Hi; cbn; try discriminate.
    intros [= <- <-]. right. rewrite (type_imgTo8u _ _ _ _ Hi).
    destruct Ht as [Ht | [Ht | Ht]].
    + split; [|by left].
      apply type_single in Ht as [_ ->]; [reflexivity|unfold_codes; lia].
    + by rewrite (histPercentiles_32S _ _ _ Ht) in Hp.
    + split; [|by right].
      apply type_single in Ht as [_ ->]; [reflexivity|unfold_codes; lia].
  - destruct Hs as [_ Hw]. unfold wide in Hw. rewrite Hext in Hw. discriminate.
  - destruct Hs as [Ht _].
    destruct (cv.cvtColor _ _ _) as [d| | |] eqn:Hc; cbn; try discriminate.
    intros [= <- <-]. left. split; [|by left].
    by rewrite (type_cvtColor _ _ _ _ CV_8U 1 ltac:(unfold_codes; lia) Ht Hc).
  - destruct Hs as [Ht _]. intros [= <- <-]. left. split; [done|]. by right; left.
  - destruct Hs as [Ht _].
    destruct (cv.cvtColor _ _ _) as [d| | |] eqn:Hc; cbn; try discriminate.
    intros [= <- <-]. left. split; [|by right; right].
    by rewrite (type_cvtColor _ _ _ _ CV_8U 4 ltac:(unfold_codes; lia) Ht Hc).
  - discriminate.
  - destruct Hs as [_ [Hp | Hp]]; congruence.
  - destruct Hs as [_ [Hp | Hp]]; congruence.
  - destruct Hs as [_ [Hp | Hp]]; congruence.
  - discriminate.
  - exfalso. revert Ha. unfold save_action. rewrite Hext. cbn.
    repeat case_match; discriminate.
Qed.

Lemma convertForSave_ppm_type_witness :
  ∃ dst,
    getNormalizedExt_spec ".ppm" = "ppm"
    ∧ convertForSave (E := ordered_platform)
        (MatI I16U 1 [[100; 200; 300]; [400; 500; 600]]) ".ppm" = Ok (dst, true)
    ∧ ((type dst = CV_8UC3
        ∧ (type (MatI I16U 1 [[100; 200; 300]; [400; 500; 600]]) = CV_8U
           ∨ type (MatI I16U 1 [[100; 200; 300]; [400; 500; 600]]) = CV_8UC3
           ∨ type (MatI I16U 1 [[100; 200; 300]; [400; 500; 600]]) = CV_8UC4))
       ∨ (type dst = CV_8U
          ∧ (type (MatI I16U 1 [[100; 200; 300]; [400; 500; 600]]) = CV_16U
             ∨ type (MatI I16U 1 [[100; 200; 300]; [400; 500; 600]]) = CV_32F))).
Proof.
  eexists. split; [reflexivity|].
  split; [vm_compute; reflexivity|].
  apply (convertForSave_ppm_type (E := ordered_platform)
           (MatI I16U 1 [[100; 200; 300]; [400; 500; 600]]) ".ppm" _ true);
    [reflexivity|vm_compute; reflexivity].
Defined.

(** X9.  [convertForSave] never fails on an image of type 8U, 8UC3 or
    8UC4 that is not empty, whatever the target. *)
Theorem convertForSave_8bit_returns `{E : Externals} img inputExt :
  cv.empty img = false →
  type img = CV_8U ∨ type img = CV_8UC3 ∨ type img = CV_8UC4 →
  ∃ dst isChanged, convertForSave img inputExt = Ok (dst, isChanged).
Proof.
  intros Hne Ht.
  assert (∃ cn rws, img = MatI I8U cn rws ∧ (cn = 1 ∨ cn = 3 ∨ cn = 4)%positive)
    as (cn & rws & -> & Hcn).
  { assert (depth img = 0 ∧ (channels img = 1 ∨ channels img = 3
                             ∨ channels img = 4)) as [Hd Hc].
    { destruct Ht as [Ht | [Ht | Ht]].
      - apply (type_inv _ 0 1) in Ht as [? ?]; [auto|lia].
      - apply (type_inv _ 0 3) in Ht as [? ?]; [auto|lia].
      - apply (type_inv _ 0 4) in Ht as [? ?]; [auto|lia]. }
    destruct img as [[] cn rws|[] cn rws]; cbn in Hd, Hc; unfold_codes;
      try discriminate.
    exists cn, rws. split; [done|]. lia. }
  unfold convertForSave.
  pose proof (save_action_spec (type (MatI I8U cn rws))
                (getNormalizedExt inputExt)) as Hs.
  destruct (save_action _ _) eqn:Ha; cbn; eauto.
  - exfalso. destruct Hs as [Hs _].
    destruct Hcn as [-> | [-> | ->]]; vm_compute in Hs;
      destruct Hs as [? | [? | ?]]; discriminate.
  - destruct Hs as [Hs _]. apply type_single in Hs as [_ Hs]; [|unfold_codes; lia].
    cbn in Hs. assert (cn = 1%positive) as -> by lia.
    unfold cv.cvtColor. rewrite Hne. cbn. eauto.
  - destruct Hs as [Hs _]. apply (type_inv _ 0 4) in Hs as [_ Hs]; [|lia].
    cbn in Hs. assert (cn = 4%positive) as -> by lia.
    unfold cv.cvtColor. rewrite Hne. cbn. eauto.
  - exfalso. revert Ha. unfold save_action.
    destruct Hcn as [-> | [-> | ->]]; cbn; repeat case_match; discriminate.
  - destruct Hs as [Hs _]. apply (type_inv _ 0 3) in Hs as [_ Hs]; [|lia].
    cbn in Hs. assert (cn = 3%positive) as -> by lia.
    unfold cv.cvtColor. rewrite Hne. cbn. eauto.
  - destruct Hs as [Hs _]. apply (type_inv _ 0 4) in Hs as [_ Hs]; [|lia].
    cbn in Hs. assert (cn = 4%positive) as -> by lia.
    unfold cv.cvtColor. rewrite Hne. cbn. eauto.
  - exfalso. revert Ha. unfold save_action.
    destruct Hcn as [-> | [-> | ->]]; cbn; repeat case_match; discriminate.
Qed.

Lemma convertForSave_8bit_returns_witness :
  cv.empty (MatI I8U 4 [[1; 2; 3; 4]]) = false
  ∧ (type (MatI I8U 4 [[1; 2; 3; 4]]) = CV_8U
     ∨ type (MatI I8U 4 [[1; 2; 3; 4]]) = CV_8UC3
     ∨ type (MatI I8U 4 [[1; 2; 3; 4]]) = CV_8UC4)
  ∧ ∃ dst isChanged,
      convertForSave (E := ordered_platform) (MatI I8U 4 [[1; 2; 3; 4]]) "ppm"
      = Ok (dst, isChanged).
Proof.
  split_and!; [reflexivity|right; right; reflexivity|].
  apply (convertForSave_8bit_returns (E := ordered_platform)
           (MatI I8U 4 [[1; 2; 3; 4]]) "ppm").
  - reflexivity.
  - right; right; reflexivity.
Defined.

(** X10.  For a target other than ppm, pbm and pgm, [convertForSave]
    has nothing left to do on its own result: applied to the image it
    returned, it returns that image with [wasChanged] false. *)
Theorem convertForSave_idempotent `{E : Externals} img inputExt dst isChanged :
  getNormalizedExt inputExt ≠ "ppm" → getNormalizedExt inputExt ≠ "pbm" →
  getNormalizedExt inputExt ≠ "pgm" →
  convertForSave img inputExt = Ok (dst, isChanged) →
  convertForSave dst inputExt = Ok (dst, false).
Proof.
  intros Hppm Hpbm Hpgm. unfold convertForSave at 1.
  pose proof (save_action_spec (type img) (getNormalizedExt inputExt)) as Hs.
  destruct (save_action _ _) eqn:Ha; cbn.
  - destruct Hs as [Ht Hw].
    destruct (histPercentiles _ _ _) as [t| | |] eqn:Hp; cbn; try discriminate.
    destruct (imgTo8u _ _ _) as [d| | |] eqn:Hi; cbn; try discriminate.
    intros [= <- <-]. apply convertForSave_unchanged. right.
    rewrite (type_imgTo8u _ _ _ _ Hi).
    assert (channels img = 1) as ->.
    { destruct Ht as [Ht | [Ht | Ht]];
        (apply type_single in Ht as [_ ->]; [done|unfold_codes; lia]). }
    split_and!; try done; vm_compute; discriminate.
  - destruct Hs as [Ht Hw]. intros [= <- <-].
    apply convertForSave_unchanged. left. split; [done|].
    rewrite type_convertTo by (unfold_codes; lia).
    apply type_single in Ht as [_ ->]; [|unfold_codes; lia].
    vm_compute. discriminate.
  - by destruct Hs as [_ ?].
  - by destruct Hs as [_ ?].
  - by destruct Hs as [_ ?].
  - discriminate.
  - by destruct Hs as [_ [? | ?]].
  - by destruct Hs as [_ [? | ?]].
  - by destruct Hs as [_ [? | ?]].
  - discriminate.
  - intros [= <- <-]. unfold convertForSave. by rewrite Ha.
Qed.

Lemma convertForSave_idempotent_witness :
  ∃ dst,
    getNormalizedExt_spec ".png" ≠ "ppm" ∧ getNormalizedExt_spec ".png" ≠ "pbm"
    ∧ getNormalizedExt_spec ".png" ≠ "pgm"
    ∧ convertForSave (E := ordered_platform)
        (MatI I16U 1 [[100; 200; 300]; [400; 500; 600]]) ".png" = Ok (dst, true)
    ∧ convertForSave (E := ordered_platform) dst ".png" = Ok (dst, false).
Proof.
  eexists.
  split_and!; [vm_compute; discriminate|vm_compute; discriminate
              |vm_compute; discriminate|vm_compute; reflexivity|].
  apply (convertForSave_idempotent (E := ordered_platform)
           (MatI I16U 1 [[100; 200; 300]; [400; 500; 600]]) ".png" _ true);
    [vm_compute; discriminate|vm_compute; discriminate
    |vm_compute; discriminate|vm_compute; reflexivity].
Defined.

(** ** Names of the types *)

(** X11.  [getImageTypeString] gives different names to different
    types: two type codes with the same name, other than "UNKNOWN", are
    the same code. *)
Theorem getImageTypeString_inj t1 t2 :
  getImageTypeString t1 = getImageTypeString t2 →
  getImageTypeString t1 ≠ "UNKNOWN" →
  t1 = t2.
Proof.
  unfold getImageTypeString.
  change CV_32FC1 with CV_32F. rewrite !orb_diag.
  destruct (Z.eqb_spec t1 CV_16U), (Z.eqb_spec t2 CV_16U);
    [congruence|try discriminate..|].
  all: destruct (Z.eqb_spec t1 CV_8U), (Z.eqb_spec t2 CV_8U);
    try congruence; try discriminate.
  all: destruct (Z.eqb_spec t1 CV_32F), (Z.eqb_spec t2 CV_32F);
    try congruence; try discriminate.
  all: destruct (Z.eqb_spec t1 CV_32FC3), (Z.eqb_spec t2 CV_32FC3);
    try congruence; try discriminate.
  all: destruct (Z.eqb_spec t1 CV_32S), (Z.eqb_spec t2 CV_32S);
    try congruence; try discriminate.
  all: destruct (Z.eqb_spec t1 CV_8UC3), (Z.eqb_spec t2 CV_8UC3);
    try congruence; try discriminate.
  all: destruct (Z.eqb_spec t1 CV_8UC4), (Z.eqb_spec t2 CV_8UC4);
    try congruence; try discriminate.
Qed.

Lemma getImageTypeString_inj_witness :
  getImageTypeString CV_32FC1 = getImageTypeString CV_32F
  ∧ getImageTypeString CV_32FC1 ≠ "UNKNOWN"
  ∧ CV_32FC1 = CV_32F.
Proof.
  split_and!; [reflexivity|vm_compute; discriminate|].
  apply (getImageTypeString_inj CV_32FC1 CV_32F);
    [reflexivity|vm_compute; discriminate].
Defined.

Lemma getImageTypeString_unknown t :
  getImageTypeString t = "UNKNOWN" →
  t ≠ CV_8U ∧ t ≠ CV_16U ∧ t ≠ CV_32S ∧ t ≠ CV_32F ∧ t ≠ CV_8UC3
  ∧ t ≠ CV_8UC4.
Proof.
  unfold getImageTypeString.
  destruct (Z.eqb_spec t CV_16U); [discriminate|].
  destruct (Z.eqb_spec t CV_8U); [discriminate|].
  destruct (Z.eqb_spec t CV_32F); [discriminate|]. cbn [orb].
  destruct (t =? CV_32FC1); [discriminate|].
  destruct (t =? CV_32FC3); [discriminate|].
  destruct (Z.eqb_spec t CV_32S); [discriminate|].
  destruct (Z.eqb_spec t CV_8UC3); [discriminate|].
  destruct (Z.eqb_spec t CV_8UC4); [discriminate|]. done.
Qed.

(** X12.  An image whose type [getImageTypeString] does not know is
    refused by [convertForSave] for the targets ppm, pbm and pgm, with
    the exception for an unhandled type. *)
Theorem convertForSave_unknown_type `{E : Externals} img inputExt :
  getImageTypeString_Mat img = "UNKNOWN" →
  (getNormalizedExt inputExt = "ppm" →
   convertForSave img inputExt
   = Thrown "Unhandled input image type for ppm output.")
  ∧ (getNormalizedExt inputExt = "pbm" ∨ getNormalizedExt inputExt = "pgm" →
     convertForSave img inputExt
     = Thrown "Unhandled input image type for pbm output.").
Proof.
  intros (H1 & H2 & H3 & H4 & H5 & H6)%getImageTypeString_unknown.
  unfold convertForSave, save_action.
  rewrite (proj2 (Z.eqb_neq _ _) H1), (proj2 (Z.eqb_neq _ _) H2),
    (proj2 (Z.eqb_neq _ _) H3), (proj2 (Z.eqb_neq _ _) H4),
    (proj2 (Z.eqb_neq _ _) H5), (proj2 (Z.eqb_neq _ _) H6).
  split; [intros ->; reflexivity|intros [-> | ->]; reflexivity].
Qed.

Lemma convertForSave_unknown_type_witness :
  let img := MatI I16S 1 [[1; -2]] in
  getImageTypeString_Mat img = "UNKNOWN"
  ∧ (getNormalizedExt_spec "ppm" = "ppm" →
     convertForSave (E := ordered_platform) img "ppm"
     = Thrown "Unhandled input image type for ppm output.")
  ∧ (getNormalizedExt_spec "ppm" = "pbm" ∨ getNormalizedExt_spec "ppm" = "pgm" →
     convertForSave (E := ordered_platform) img "ppm"
     = Thrown "Unhandled input image type for pbm output.").
Proof.
  cbv zeta. split; [reflexivity|].
  apply (convertForSave_unknown_type (E := ordered_platform)
           (MatI I16S 1 [[1; -2]]) "ppm").
  reflexivity.
Defined.

(** ** [imgToRgb] *)

Lemma elem_at_ok {A} (rws : list (list A)) row y x v :
  rws !! y = Some row → row !! x = Some v →
  elem_at rws (Z.of_nat y) (Z.of_nat x) = Ok v.
Proof.
  intros Hr Hv. unfold elem_at. rewrite bool_decide_true by lia.
  rewrite !Nat2Z.id, Hr. cbn. by rewrite Hv.
Qed.

Lemma ptr_store_app P R i v r :
  i = Z.of_nat (length P) →
  ptr_store (P ++ r :: R) i v = Ok (P ++ v :: R).
Proof.
  intros ->. unfold ptr_store.
  rewrite bool_decide_true by (rewrite length_app; cbn; lia).
  rewrite Nat2Z.id. f_equal.
  rewrite insert_app_r_alt by lia. by rewrite Nat.sub_diag.
Qed.

Lemma ptr_store_inv buf i v buf' :
  ptr_store buf i v = Ok buf' →
  length buf' = length buf ∧ 0 ≤ i < Z.of_nat (length buf).
Proof.
  unfold ptr_store. case_bool_decide; [|done]. intros [= <-].
  by rewrite length_insert.
Qed.

Lemma for_each_inv {A S} (body : S → A → outcome S) (I : S → Prop)
    (Q : A → Prop) :
  (∀ s x s', I s → body s x = Ok s' → I s' ∧ Q x) →
  ∀ xs s s', I s → for_each body xs s = Ok s' → I s' ∧ Forall Q xs.
Proof.
  intros Hstep. induction xs as [|x xs IH]; intros s s' Hs; cbn [for_each].
  - intros [= <-]. by split.
  - intros (s1 & H1 & H2)%bind_inv.
    destruct (Hstep _ _ _ Hs H1) as [Hs1 Hx].
    destruct (IH _ _ Hs1 H2) as [? ?]. split; [done|by constructor].
Qed.

Lemma length_bind_rgb_triple l :
  length (l ≫= rgb_triple) = (3 * length l)%nat.
Proof. induction l as [|v l IH]; [done|]. cbn. rewrite IH. lia. Qed.

Section imgToRgb.
Variable img : Mat.

Lemma imgToRgb_step_ok y x v P r1 r2 r3 R :
  elem_at (ptr_int img) y x = Ok v →
  0 ≤ y * cols img → 0 ≤ x → 3 * (y * cols img + x) + 2 ≤ INT_MAX →
  Z.of_nat (length P) = 3 * (y * cols img + x) →
  imgToRgb_step img y (P ++ r1 :: r2 :: r3 :: R) x
  = Ok (P ++ rgb_triple v ++ R).
Proof.
  intros Hv Hy Hx Hmax HP. unfold INT_MAX in Hmax. unfold imgToRgb_step.
  set (c := cols img) in *.
  rewrite Hv, bind_Ok.
  rewrite (int_of_ok (y * c)), bind_Ok by (unfold INT_MIN, INT_MAX; lia).
  rewrite (int_of_ok (y * c + x)), bind_Ok by (unfold INT_MIN, INT_MAX; lia).
  rewrite (int_of_ok ((y * c + x) * 3)), bind_Ok
    by (unfold INT_MIN, INT_MAX; lia).
  rewrite ptr_store_app, bind_Ok by lia.
  rewrite (int_of_ok ((y * c + x) * 3 + 1)), bind_Ok
    by (unfold INT_MIN, INT_MAX; lia).
  change (P ++ v :: r2 :: r3 :: R) with (P ++ [v] ++ r2 :: r3 :: R).
  rewrite (assoc (++)), ptr_store_app, bind_Ok
    by (rewrite length_app; cbn; lia).
  rewrite (int_of_ok ((y * c + x) * 3 + 2)), bind_Ok
    by (unfold INT_MIN, INT_MAX; lia).
  change ((P ++ [v]) ++ v :: r3 :: R) with ((P ++ [v]) ++ [v] ++ r3 :: R).
  rewrite (assoc (++)), ptr_store_app by (rewrite !length_app; cbn; lia).
  by rewrite <- !(assoc (++)).
Qed.

Lemma imgToRgb_step_inv y dst x dst' :
  imgToRgb_step img y dst x = Ok dst' →
  length dst' = length dst
  ∧ 3 * (y * cols img + x) + 2 < Z.of_nat (length dst).
Proof.
  unfold imgToRgb_step.
  intros (v & _ & H)%bind_inv.
  apply bind_inv in H as (yc & [-> _]%int_of_inv & H).
  apply bind_inv in H as (yx & [-> _]%int_of_inv & H).
  apply bind_inv in H as (i & [-> _]%int_of_inv & H).
  apply bind_inv in H as (d1 & [Hl1 _]%ptr_store_inv & H).
  apply bind_inv in H as (i1 & [-> _]%int_of_inv & H).
  apply bind_inv in H as (d2 & [Hl2 _]%ptr_store_inv & H).
  apply bind_inv in H as (i2 & [-> _]%int_of_inv & H).
  apply ptr_store_inv in H as [Hl3 Hi]. split; [congruence|].
  rewrite Hl2, Hl1 in Hi. lia.
Qed.

Lemma imgToRgb_row (y : nat) row :
  ptr_int img !! y = Some row → 0 ≤ cols img →
  3 * (Z.of_nat y * cols img + Z.of_nat (length row)) ≤ INT_MAX + 1 →
  ∀ todo done P R,
    row = done ++ todo →
    Z.of_nat (length P)
    = 3 * (Z.of_nat y * cols img + Z.of_nat (length done)) →
    (3 * length todo ≤ length R)%nat →
    for_each (imgToRgb_step img (Z.of_nat y))
      (seqZ (Z.of_nat (length done)) (Z.of_nat (length todo))) (P ++ R)
    = Ok (P ++ (todo ≫= rgb_triple) ++ drop (3 * length todo) R).
Proof.
  intros Hrow Hc Hmax.
  induction todo as [|v todo IH]; intros done P R Hsplit HP HR.
  - cbn. by rewrite drop_0.
  - cbn [length] in *. rewrite Nat2Z.inj_succ, seqZ_cons by lia.
    cbn [for_each].
    assert (length row = (length done + S (length todo))%nat) as Hlen
      by (rewrite Hsplit, length_app; done).
    destruct R as [|r1 [|r2 [|r3 R]]]; cbn [length] in HR; try lia.
    rewrite (imgToRgb_step_ok _ _ v); [| |nia|lia|lia|done].
    2:{ apply (elem_at_ok (ptr_int img) row); [done|].
        by rewrite Hsplit, lookup_app_r, Nat.sub_diag by lia. }
    rewrite bind_Ok.
    replace (Z.succ (Z.of_nat (length done)))
      with (Z.of_nat (length (done ++ [v])))
      by (rewrite length_app; cbn; lia).
    replace (Z.pred (Z.succ (Z.of_nat (length todo))))
      with (Z.of_nat (length todo)) by lia.
    rewrite (assoc (++)).
    rewrite (IH (done ++ [v]) (P ++ rgb_triple v) R).
    + change ((v :: todo) ≫= rgb_triple)
        with (rgb_triple v ++ (todo ≫= rgb_triple)).
      rewrite <- !(assoc (++)). do 3 f_equal.
      replace (3 * S (length todo))%nat with (3 + 3 * length todo)%nat by lia.
      reflexivity.
    + by rewrite <- (assoc (++)).
    + rewrite !length_app. cbn. lia.
    + lia.
Qed.

Lemma imgToRgb_rows :
  0 ≤ cols img →
  Forall (λ row, Z.of_nat (length row) = cols img) (ptr_int img) →
  3 * (Z.of_nat (length (ptr_int img)) * cols img) ≤ INT_MAX + 1 →
  ∀ todo done P R,
    ptr_int img = done ++ todo →
    Z.of_nat (length P) = 3 * (Z.of_nat (length done) * cols img) →
    (3 * length (concat todo) ≤ length R)%nat →
    for_each (λ dst y,
                for_each (imgToRgb_step img y) (seqZ 0 (cols img)) dst)
      (seqZ (Z.of_nat (length done)) (Z.of_nat (length todo))) (P ++ R)
    = Ok (P ++ (concat todo ≫= rgb_triple)
            ++ drop (3 * length (concat todo)) R).
Proof.
  intros Hc Hrect Hmax.
  induction todo as [|row todo IH]; intros done P R Hsplit HP HR.
  - cbn. by rewrite drop_0.
  - cbn [length concat] in *.
    rewrite Nat2Z.inj_succ, (seqZ_cons (Z.of_nat (length done))) by lia.
    cbn [for_each].
    assert (Z.of_nat (length row) = cols img) as Hrow.
    { rewrite Forall_forall in Hrect. apply Hrect. rewrite Hsplit.
      apply elem_of_app. right. apply elem_of_cons. by left. }
    assert (length (ptr_int img) = (length done + S (length todo))%nat)
      as Hlen by (rewrite Hsplit, length_app; done).
    rewrite length_app in HR.
    pose proof (imgToRgb_row (length done) row
                  ltac:(rewrite Hsplit, lookup_app_r, Nat.sub_diag by lia; done)
                  Hc ltac:(nia) row [] P R eq_refl ltac:(cbn; lia) ltac:(lia))
      as Hr.
    cbn [length] in Hr. change (Z.of_nat 0) with 0 in Hr. rewrite Hrow in Hr.
    rewrite Hr, bind_Ok. clear Hr.
    replace (Z.succ (Z.of_nat (length done)))
      with (Z.of_nat (length (done ++ [row])))
      by (rewrite length_app; cbn; lia).
    replace (Z.pred (Z.succ (Z.of_nat (length todo))))
      with (Z.of_nat (length todo)) by lia.
    rewrite (assoc (++)).
    rewrite (IH (done ++ [row]) (P ++ (row ≫= rgb_triple))
               (drop (3 * length row) R)).
    + rewrite <- (assoc (++)). f_equal. rewrite bind_app, <- (assoc (++)).
      f_equal. f_equal. by rewrite drop_drop, length_app, Nat.mul_add_distr_l.
    + by rewrite <- (assoc (++)).
    + rewrite !length_app, length_bind_rgb_triple. cbn [length]. nia.
    + rewrite length_drop. lia.
Qed.
End imgToRgb.

Lemma length_concat_uniform {A} (rws : list (list A)) w :
  Forall (λ row, length row = w) rws →
  length (concat rws) = (length rws * w)%nat.
Proof.
  induction 1 as [|row rws' Hrow _ IH]; [done|].
  cbn [concat length]. rewrite length_app. lia.
Qed.

Lemma rectangular_rows {A} cn (rws : list (list A)) :
  rectangular cn rws = true →
  Forall (λ row, length row = length (default [] (head rws))) rws.
Proof.
  unfold rectangular. intros [Hr _]%andb_prop.
  apply Forall_forall. intros row Hin.
  rewrite forallb_forall in Hr.
  apply list_elem_of_In, Hr in Hin. by apply bool_decide_eq_true in Hin.
Qed.

(** A well-formed single-channel matrix of integers: its rows have
    [cols] samples. *)
Lemma wf_mat_single d rws :
  wf_mat (MatI d 1 rws) = true →
  0 ≤ cols (MatI d 1 rws)
  ∧ Forall (λ row, Z.of_nat (length row) = cols (MatI d 1 rws)) rws
  ∧ Z.of_nat (length (concat rws))
    = Z.of_nat (length rws) * cols (MatI d 1 rws).
Proof.
  cbn [wf_mat cols]. rewrite Z.div_1_r.
  intros [Hall%rectangular_rows _]%andb_prop.
  split; [lia|]. split.
  - eapply Forall_impl; [exact Hall|]. cbn. by intros ? ->.
  - rewrite (length_concat_uniform _ _ Hall). lia.
Qed.

Lemma imgToRgb_run img dst :
  type img = CV_8U → wf_mat img = true →
  3 * Z.of_nat (length (samples_int img)) ≤ Z.of_nat (length dst) →
  3 * Z.of_nat (length (samples_int img)) ≤ INT_MAX + 1 →
  imgToRgb img dst
  = Ok ((samples_int img ≫= rgb_triple)
          ++ drop (3 * length (samples_int img)) dst).
Proof.
  intros Ht Hwf Hroom Hmax. unfold imgToRgb. rewrite Ht. cbn [Z.eqb CV_8U].
  destruct (type_8U img Ht) as [rws ->].
  destruct (wf_mat_single _ _ Hwf) as (Hc & Hrect & Hn).
  unfold samples_int in *. cbn [ptr_int] in *.
  pose proof (imgToRgb_rows (MatI I8U 1 rws) Hc Hrect
                ltac:(cbn [ptr_int]; lia) rws [] [] dst eq_refl
                ltac:(cbn; lia) ltac:(lia)) as H.
  exact H.
Qed.

(** X13.  For a well-formed 8U image of [n] samples and a buffer of at
    least [3 n] bytes, [imgToRgb] writes every sample three times, in
    order, into the first [3 n] bytes and leaves the rest of the buffer
    as it was. *)
Theorem imgToRgb_triples img dst :
  type img = CV_8U → wf_mat img = true →
  3 * Z.of_nat (length (samples_int img)) ≤ Z.of_nat (length dst) →
  3 * Z.of_nat (length (samples_int img)) ≤ INT_MAX + 1 →
  imgToRgb img dst
  = Ok ((samples_int img ≫= rgb_triple)
          ++ drop (3 * length (samples_int img)) dst).
Proof. apply imgToRgb_run. Qed.

Lemma imgToRgb_triples_witness :
  let img := MatI I8U 1 [[1; 2]; [3; 4]] in
  let dst := [9; 9; 9; 9; 9; 9; 9; 9; 9; 9; 9; 9; 8; 8] in
  type img = CV_8U ∧ wf_mat img = true
  ∧ 3 * Z.of_nat (length (samples_int img)) ≤ Z.of_nat (length dst)
  ∧ 3 * Z.of_nat (length (samples_int img)) ≤ INT_MAX + 1
  ∧ imgToRgb img dst = Ok [1; 1; 1; 2; 2; 2; 3; 3; 3; 4; 4; 4; 8; 8].
Proof.
  cbv zeta. split_and!; [reflexivity|reflexivity|vm_compute; discriminate
                        |vm_compute; discriminate|].
  apply (imgToRgb_triples (MatI I8U 1 [[1; 2]; [3; 4]])
           [9; 9; 9; 9; 9; 9; 9; 9; 9; 9; 9; 9; 8; 8]);
    [reflexivity|reflexivity|vm_compute; discriminate|vm_compute; discriminate].
Defined.

(** X14.  [imgToRgb] returns only when the buffer has room for the three
    bytes of every sample, and never changes the size of the buffer: a
    shorter buffer makes it write outside. *)
Theorem imgToRgb_needs_room img dst dst' :
  type img = CV_8U → wf_mat img = true →
  imgToRgb img dst = Ok dst' →
  length dst' = length dst
  ∧ 3 * Z.of_nat (length (samples_int img)) ≤ Z.of_nat (length dst).
Proof.
  intros Ht Hwf. unfold imgToRgb. rewrite Ht. cbn [Z.eqb CV_8U].
  destruct (type_8U img Ht) as [rws ->].
  destruct (wf_mat_single _ _ Hwf) as (Hc & Hrect & Hn).
  unfold samples_int. cbn [ptr_int rows]. rewrite Hn.
  set (c := cols (MatI I8U 1 rws)) in *.
  intros Hrun.
  apply (for_each_inv _ (λ s, length s = length dst)
           (λ y, 0 < c → 3 * (y * c + (c - 1)) + 2 < Z.of_nat (length dst)))
    in Hrun as [Hlen Hall]; [|  |done].
  - split; [done|].
    destruct (decide (0 < c ∧ 0 < Z.of_nat (length rws))) as [[? ?] | ?];
      [|nia].
    rewrite Forall_forall in Hall.
    specialize (Hall (Z.of_nat (length rws) - 1)). cbn beta in Hall.
    assert (Z.of_nat (length rws) - 1 ∈ seqZ 0 (Z.of_nat (length rws))) as Hin
      by (apply elem_of_seqZ; lia).
    specialize (Hall Hin ltac:(done)). nia.
  - intros s y s' Hs Hrow.
    apply (for_each_inv _ (λ s, length s = length dst)
             (λ x, 3 * (y * c + x) + 2 < Z.of_nat (length dst)))
      in Hrow as [Hlen Hall]; [| |done].
    + split; [done|]. intros Hpos. rewrite Forall_forall in Hall.
      apply Hall, elem_of_seqZ. lia.
    + intros s1 x s2 Hs1 Hstep.
      apply imgToRgb_step_inv in Hstep as [Hl Hi].
      fold c in Hi. split; [congruence|]. by rewrite <- Hs1.
Qed.

Lemma imgToRgb_needs_room_witness :
  let img := MatI I8U 1 [[5; 6]] in
  type img = CV_8U ∧ wf_mat img = true
  ∧ imgToRgb img [0; 0; 0; 0; 0; 0; 7] = Ok [5; 5; 5; 6; 6; 6; 7]
  ∧ length [5; 5; 5; 6; 6; 6; 7] = length [0; 0; 0; 0; 0; 0; 7]
  ∧ 3 * Z.of_nat (length (samples_int img))
    ≤ Z.of_nat (length [0; 0; 0; 0; 0; 0; 7]).
Proof.
  cbv zeta. split_and!; [reflexivity..|].
  apply (imgToRgb_needs_room (MatI I8U 1 [[5; 6]]) [0; 0; 0; 0; 0; 0; 7]
           [5; 5; 5; 6; 6; 6; 7]); reflexivity.
Defined.

(** ** [convertAfterLoad] *)

Lemma Mat_of_type_8U img c :
  type img = CV_MAKETYPE CV_8U c → ∃ cn rws, img = MatI I8U cn rws ∧ Zpos cn = c.
Proof.
  intros Ht. apply type_inv in Ht as [Hd Hc]; [|unfold_codes; lia].
  destruct img as [[] cn rws|[] cn rws]; cbn in Hd, Hc; unfold_codes;
    try discriminate.
  by exists cn, rws.
Qed.

(** X16.  [convertAfterLoad] converts exactly for a tif or tiff file
    whose image is 8UC3 or 8UC4.  It fails only when the image it has to
    convert is empty, which [cvtColor] refuses; in every other case it
    returns: with the flag set and an 8UC3 image in [dst] when it
    converts, and otherwise with the flag clear and [dst] as the caller
    passed it, without setting it to the input. *)
Theorem convertAfterLoad_flag `{E : Externals} img inputExt dst :
  (returns (convertAfterLoad img inputExt dst) = false
   ↔ cv.empty img = true ∧ wide (getNormalizedExt inputExt) = true
     ∧ (type img = CV_8UC3 ∨ type img = CV_8UC4))
  ∧ ∀ dst' isChanged,
      convertAfterLoad img inputExt dst = Ok (dst', isChanged) →
      (isChanged = true
       ↔ wide (getNormalizedExt inputExt) = true
         ∧ (type img = CV_8UC3 ∨ type img = CV_8UC4))
      ∧ (isChanged = true → type dst' = CV_8UC3)
      ∧ (isChanged = false → dst' = dst).
Proof.
  unfold convertAfterLoad, wide.
  destruct (_ || _).
  2:{ split; [split; [done|by intros (_ & ? & _)]|].
      intros dst' c [= <- <-]. split_and!; [|done..].
      split; [done|]. by intros [? _]. }
  destruct (Z.eqb_spec (type img) CV_8UC3) as [Ht | Ht3].
  - destruct (Mat_of_type_8U img 3 Ht) as (cn & rws & -> & Hcn).
    assert (cn = 3%positive) as -> by lia.
    unfold cvx.cvtColor_BGR2RGB.
    destruct (cv.empty _) eqn:Hne; cbn.
    + split; [split; [auto|done]|]. intros ?? [=].
    + split; [split; [done|by intros [? _]]|].
      intros dst' c [= <- <-]. split_and!; [|done..].
      split; [|done]. intros _. split; [done|by left].
  - destruct (Z.eqb_spec (type img) CV_8UC4) as [Ht | Ht4].
    + destruct (Mat_of_type_8U img 4 Ht) as (cn & rws & -> & Hcn).
      assert (cn = 4%positive) as -> by lia.
      unfold cv.cvtColor.
      destruct (cv.empty _) eqn:Hne; cbn.
      * split; [split; [auto|done]|]. intros ?? [=].
      * split; [split; [done|by intros [? _]]|].
        intros dst' c [= <- <-]. split_and!; [|done..].
        split; [|done]. intros _. split; [done|by right].
    + split; [split; [done|by intros (_ & _ & [? | ?])]|].
      intros dst' c [= <- <-]. split_and!; [|done..].
      split; [done|]. intros [_ [? | ?]]; done.
Qed.

Lemma swap_rows_involutive {A} (l : list A) : ∀ fuel1 fuel2,
  (length l ≤ fuel1)%nat → (length l ≤ fuel2)%nat →
  (Z.of_nat (length l) `mod` 3 = 0) →
  concat (map cvx.swap_rb
            (cv.pixels_aux fuel2 3
               (concat (map cvx.swap_rb (cv.pixels_aux fuel1 3 l)))))
  = l
  ∧ length (concat (map cvx.swap_rb (cv.pixels_aux fuel1 3 l))) = length l.
Proof.
  induction l as [l IH] using (induction_ltof1 _ length). unfold ltof in IH.
  intros fuel1 fuel2 H1 H2 Hmod.
  destruct l as [|b [|g [|r l]]]; cbn [length] in *.
  - destruct fuel1, fuel2; done.
  - exfalso. by vm_compute in Hmod.
  - exfalso. by vm_compute in Hmod.
  - destruct fuel1 as [|fuel1]; [lia|]. cbn [cv.pixels_aux take drop map concat
      cvx.swap_rb app].
    destruct (IH l ltac:(cbn; lia) fuel1 (fuel2 - 1)%nat ltac:(lia) ltac:(lia))
      as [IH1 IH2].
    { replace (Z.of_nat (S (S (S (length l))))) with (Z.of_nat (length l) + 1 * 3)
        in Hmod by lia.
      by rewrite Z.mod_add in Hmod by lia. }
    destruct fuel2 as [|fuel2]; [lia|].
    cbn [cv.pixels_aux take drop map concat cvx.swap_rb app length].
    replace (S fuel2 - 1)%nat with fuel2 in IH1 by lia.
    rewrite !drop_0, IH1, IH2. done.
Qed.

Lemma cvtColor_BGR2RGB_involutive rws :
  wf_mat (MatI I8U 3 rws) = true → cv.empty (MatI I8U 3 rws) = false →
  ∃ img', cvx.cvtColor_BGR2RGB (MatI I8U 3 rws) = Ok img'
          ∧ type img' = CV_8UC3
          ∧ cvx.cvtColor_BGR2RGB img' = Ok (MatI I8U 3 rws).
Proof.
  intros Hwf Hne.
  cbn [wf_mat] in Hwf. apply andb_prop in Hwf as [Hrect _].
  pose proof (rectangular_rows _ _ Hrect) as Hall.
  unfold rectangular in Hrect. apply andb_prop in Hrect as [_ Hmod].
  apply bool_decide_eq_true in Hmod.
  rewrite Forall_forall in Hall.
  assert (∀ row, row ∈ rws →
            concat (map cvx.swap_rb
                      (cv.pixels 3
                         (concat (map cvx.swap_rb (cv.pixels 3 row))))) = row
            ∧ length (concat (map cvx.swap_rb (cv.pixels 3 row))) = length row)
    as Hrow.
  { intros row Hin. apply Hall in Hin. rewrite <- Hin in Hmod.
    unfold cv.pixels. split.
    - apply swap_rows_involutive; [done| |done].
      by destruct (swap_rows_involutive row (length row) (length row)) as [_ ->].
    - by apply (swap_rows_involutive row (length row) (length row)). }
  unfold cvx.cvtColor_BGR2RGB at 1. rewrite Hne. cbn.
  eexists. split; [reflexivity|]. split; [reflexivity|].
  unfold cvx.cvtColor_BGR2RGB.
  replace (cv.empty _) with (cv.empty (MatI I8U 3 rws)).
  2:{ unfold cv.empty, rows, cols. rewrite length_map. do 3 f_equal.
      destruct rws as [|row rws']; [done|]. cbn [map head default from_option id].
      change (Pos.to_nat 3) with 3%nat. f_equal.
      destruct (Hrow row) as [_ ->]; [left|done]. }
  rewrite Hne. cbn. do 2 f_equal.
  rewrite map_map. rewrite <- (map_id rws) at 2.
  apply map_ext_in. intros row Hin. change (Pos.to_nat 3) with 3%nat.
  by apply Hrow, list_elem_of_In.
Qed.

(** X17.  On a well-formed 8UC3 image that is not empty, read from a
    tif or tiff file, [convertAfterLoad] is its own inverse: converting
    the converted image again gives the image back. *)
Theorem convertAfterLoad_twice `{E : Externals} img inputExt d1 d2 :
  type img = CV_8UC3 → wf_mat img = true → cv.empty img = false →
  wide (getNormalizedExt inputExt) = true →
  ∃ img',
    convertAfterLoad img inputExt d1 = Ok (img', true)
    ∧ convertAfterLoad img' inputExt d2 = Ok (img, true).
Proof.
  intros Ht Hwf Hne Hw. unfold convertAfterLoad. unfold wide in Hw. rewrite Hw.
  destruct (Mat_of_type_8U img 3 Ht) as (cn & rws & -> & Hcn).
  assert (cn = 3%positive) as -> by lia.
  destruct (cvtColor_BGR2RGB_involutive rws Hwf Hne) as (img' & H1 & Ht' & H2).
  exists img'. rewrite Ht, Ht'. cbn [Z.eqb CV_8UC3]. rewrite H1, H2. done.
Qed.

Lemma convertAfterLoad_twice_witness :
  let img := MatI I8U 3 [[1; 2; 3; 4; 5; 6]; [7; 8; 9; 10; 11; 12]] in
  type img = CV_8UC3 ∧ wf_mat img = true ∧ cv.empty img = false
  ∧ wide (getNormalizedExt_spec ".tif") = true
  ∧ ∃ img',
      convertAfterLoad (E := ordered_platform) img ".tif" img = Ok (img', true)
      ∧ convertAfterLoad (E := ordered_platform) img' ".tif" img
        = Ok (img, true).
Proof.
  cbv zeta. split_and!; [reflexivity..|].
  apply (convertAfterLoad_twice (E := ordered_platform)
           (MatI I8U 3 [[1; 2; 3; 4; 5; 6]; [7; 8; 9; 10; 11; 12]]) ".tif");
    reflexivity.
Defined.

(** ** [zeroOutsideRoi] *)

Lemma wf_mat_32F rws :
  wf_mat (MatF F32F 1 rws) = true →
  0 ≤ cols (MatF F32F 1 rws)
  ∧ Forall (λ row, Z.of_nat (length row) = cols (MatF F32F 1 rws)) rws.
Proof.
  cbn [wf_mat cols]. rewrite Z.div_1_r.
  intros Hall%rectangular_rows. split; [lia|].
  eapply Forall_impl; [exact Hall|]. cbn. by intros ? ->.
Qed.

Lemma head_replicate {A} n (x : A) :
  (0 < n)%nat → head (replicate n x) = Some x.
Proof. destruct n; [lia|done]. Qed.

Lemma mask_selects {A} roi (rws : list (list A)) (r c : nat) row v :
  let m := mask.bitwise_not
             (imap (λ r row,
                      imap (λ c old,
                              if mask.in_rect roi (Z.of_nat r) (Z.of_nat c)
                              then cv.saturate I8U 255 else old) row)
                (mask.filled (Z.of_nat (length rws))
                   (Z.of_nat (length row)) 0)) in
  rws !! r = Some row → row !! c = Some v →
  mask.selects m r c = negb (mask.in_rect roi (Z.of_nat r) (Z.of_nat c)).
Proof.
  intros m Hr Hc. unfold mask.selects, m, mask.bitwise_not, mask.filled.
  rewrite list_lookup_fmap, list_lookup_imap, !Nat2Z.id.
  rewrite lookup_replicate_2 by (by eapply lookup_lt_Some).
  cbn. rewrite list_lookup_fmap, list_lookup_imap.
  rewrite lookup_replicate_2 by (by eapply lookup_lt_Some).
  cbn. by destruct (mask.in_rect _ _ _).
Qed.

Lemma zeroOutsideRoi_run rws roi :
  wf_mat (MatF F32F 1 rws) = true →
  rows (MatF F32F 1 rws) ≤ INT_MAX → cols (MatF F32F 1 rws) ≤ INT_MAX →
  roi_inside roi (rows (MatF F32F 1 rws)) (cols (MatF F32F 1 rws)) →
  zeroOutsideRoi (MatF F32F 1 rws) roi = Ok (MatF F32F 1 (keep_roi roi rws)).
Proof.
  intros Hwf Hrows Hcols (Hx & Hw & Hxw & Hy & Hh & Hyh).
  destruct (wf_mat_32F _ Hwf) as [Hc Hall].
  unfold zeroOutsideRoi.
  change (type (MatF F32F 1 rws) =? CV_32F) with true. cbn [negb].
  set (nc := cols (MatF F32F 1 rws)) in *.
  set (nr := rows (MatF F32F 1 rws)) in *.
  assert (int_of (Rect.x roi + Rect.width roi)
          = Ok (Rect.x roi + Rect.width roi)) as Hright
    by (apply int_of_ok; unfold INT_MIN, INT_MAX in *; lia).
  assert (int_of (Rect.y roi + Rect.height roi)
          = Ok (Rect.y roi + Rect.height roi)) as Hbottom
    by (apply int_of_ok; unfold INT_MIN, INT_MAX in *; lia).
  rewrite (proj2 (Z.leb_le _ _) Hx), (proj2 (Z.leb_le _ _) Hy). cbn [andb].
  rewrite Hright, bind_Ok, (proj2 (Z.leb_le _ _) Hxw).
  rewrite Hbottom, !bind_Ok, (proj2 (Z.leb_le _ _) Hyh). cbn [negb].
  assert (length (mask.filled nr nc 0) = length rws) as Hlen.
  { unfold mask.filled. rewrite length_replicate. unfold nr. cbn. lia. }
  assert (Z.of_nat (length (default [] (head (mask.filled nr nc 0)))) = nc)
    as Hhead.
  { destruct rws as [|row0 rws']; [done|].
    unfold mask.filled. rewrite head_replicate by (unfold nr; cbn; lia).
    cbn [from_option id]. rewrite length_replicate. lia. }
  unfold mask.set_roi.
  rewrite (proj2 (Z.leb_le _ _) Hx), (proj2 (Z.leb_le _ _) Hw). cbn [andb].
  rewrite Hright, bind_Ok, Hlen, Hhead, (proj2 (Z.leb_le _ _) Hxw).
  rewrite (proj2 (Z.leb_le _ _) Hy), (proj2 (Z.leb_le _ _) Hh). cbn [andb].
  rewrite Hbottom, bind_Ok.
  replace (Rect.y roi + Rect.height roi <=? Z.of_nat (length rws)) with true
    by (symmetry; apply Z.leb_le; unfold nr in *; cbn in *; lia).
  rewrite bind_Ok. unfold mask.setTo.
  rewrite bool_decide_true.
  2:{ unfold mask.bitwise_not. rewrite length_map, length_imap, Hlen.
      split; [done|]. fold nc. rewrite <- Hhead at 2.
      destruct (mask.filled nr nc 0) as [|m0 ms]; [done|].
      cbn. by rewrite length_map, length_imap. }
  cbn [negb]. do 2 f_equal. unfold keep_roi.
  apply imap_ext. intros r row Hr. apply imap_ext. intros c v Hv.
  change (Pos.to_nat 1) with 1%nat. rewrite Nat.div_1_r.
  assert (Z.of_nat (length row) = nc) as Hrow.
  { rewrite Forall_forall in Hall. apply Hall. by eapply list_elem_of_lookup_2. }
  unfold nr, nc in *. cbn [rows] in *. rewrite <- Hrow.
  rewrite (mask_selects roi rws r c row v Hr Hv).
  by destruct (mask.in_rect _ _ _).
Qed.

(** What a successful run says about the arguments. *)
Lemma zeroOutsideRoi_inv mat roi mat' :
  zeroOutsideRoi mat roi = Ok mat' →
  type mat = CV_32F ∧ roi_inside roi (rows mat) (cols mat).
Proof.
  unfold zeroOutsideRoi.
  destruct (Z.eqb_spec (type mat) CV_32F) as [Ht | ?]; [|done]. cbn [negb].
  intros (inside & Hin & Hrun)%bind_inv.
  destruct inside; [|done]. cbn [negb] in Hrun.
  apply bind_inv in Hrun as (m & Hm & _).
  destruct (0 <=? Rect.x roi) eqn:Hx; [|done].
  destruct (0 <=? Rect.y roi) eqn:Hy; [|done]. cbn [andb] in Hin.
  apply bind_inv in Hin as (right & [-> _]%int_of_inv & Hin).
  destruct (_ <=? cols mat) eqn:Hxw in Hin; [|done].
  apply bind_inv in Hin as (bottom & [-> _]%int_of_inv & [= Hyh]).
  unfold mask.set_roi in Hm. rewrite Hx in Hm.
  destruct (0 <=? Rect.width roi) eqn:Hw; [|done]. cbn [andb] in Hm.
  apply bind_inv in Hm as (right & _ & Hm).
  destruct (right <=? _); [|done]. rewrite Hy in Hm.
  destruct (0 <=? Rect.height roi) eqn:Hh; [|done].
  split; [done|]. unfold roi_inside. lia.
Qed.

Lemma head_imap_length {A B} (f : nat → list A → list B) rws :
  (∀ r row, length (f r row) = length row) →
  length (default [] (head (imap f rws))) = length (default [] (head rws)).
Proof. intros Hf. destruct rws; [done|]. cbn. apply Hf. Qed.

Lemma keep_roi_shape roi rws :
  wf_mat (MatF F32F 1 rws) = true →
  wf_mat (MatF F32F 1 (keep_roi roi rws)) = true
  ∧ rows (MatF F32F 1 (keep_roi roi rws)) = rows (MatF F32F 1 rws)
  ∧ cols (MatF F32F 1 (keep_roi roi rws)) = cols (MatF F32F 1 rws).
Proof.
  cbn [wf_mat rows cols]. unfold keep_roi, rectangular.
  intros [Hall Hmod]%andb_prop.
  rewrite !head_imap_length by (intros; apply length_imap).
  rewrite length_imap. split_and!; [|done..].
  apply andb_true_intro. split; [|exact Hmod]. apply forallb_forall.
  intros row' (r & row & -> & Hr)%list_elem_of_In%elem_of_lookup_imap_1.
  rewrite length_imap. rewrite forallb_forall in Hall.
  apply list_elem_of_lookup_2, list_elem_of_In in Hr. by apply Hall.
Qed.

Lemma keep_roi_idemp roi rws : keep_roi roi (keep_roi roi rws) = keep_roi roi rws.
Proof.
  unfold keep_roi. apply list_eq. intros r.
  rewrite !list_lookup_imap. destruct (rws !! r) as [row|]; [|done]. cbn.
  f_equal. apply list_eq. intros c.
  rewrite !list_lookup_imap. destruct (row !! c) as [v|]; [|done]. cbn.
  by destruct (mask.in_rect _ _ _).
Qed.

(** X18.  On a well-formed 32F matrix and a rectangle inside it,
    [zeroOutsideRoi] keeps every element of the rectangle and replaces
    every other element with 0. *)
Theorem zeroOutsideRoi_keeps_roi mat roi :
  type mat = CV_32F → wf_mat mat = true →
  rows mat ≤ INT_MAX → cols mat ≤ INT_MAX →
  roi_inside roi (rows mat) (cols mat) →
  zeroOutsideRoi mat roi = Ok (MatF F32F 1 (keep_roi roi (ptr_float mat))).
Proof.
  intros Ht. destruct (type_32F mat Ht) as [rws ->].
  apply zeroOutsideRoi_run.
Qed.

Lemma zeroOutsideRoi_keeps_roi_witness :
  let mat := MatF F32F 1 [[F32.of_Z 1; F32.of_Z 2; F32.of_Z 3];
                          [F32.of_Z 4; F32.of_Z 5; F32.of_Z 6]] in
  let roi := Rect.mk 1 0 2 1 in
  type mat = CV_32F ∧ wf_mat mat = true
  ∧ rows mat ≤ INT_MAX ∧ cols mat ≤ INT_MAX
  ∧ roi_inside roi (rows mat) (cols mat)
  ∧ zeroOutsideRoi mat roi
    = Ok (MatF F32F 1 [[F32.zero; F32.of_Z 2; F32.of_Z 3];
                       [F32.zero; F32.zero; F32.zero]]).
Proof.
  cbv zeta.
  assert (roi_inside (Rect.mk 1 0 2 1) 2 3) as Hroi
    by (unfold roi_inside; cbn; lia).
  split_and!; [reflexivity|reflexivity|vm_compute; discriminate
              |vm_compute; discriminate|exact Hroi|].
  apply (zeroOutsideRoi_keeps_roi
           (MatF F32F 1 [[F32.of_Z 1; F32.of_Z 2; F32.of_Z 3];
                         [F32.of_Z 4; F32.of_Z 5; F32.of_Z 6]])
           (Rect.mk 1 0 2 1));
    [reflexivity|reflexivity|vm_compute; discriminate
    |vm_compute; discriminate|exact Hroi].
Defined.

(** X19.  On a well-formed matrix, [zeroOutsideRoi] returns exactly when
    the matrix is 32F and the rectangle, of a width and a height that
    are not negative, lies inside it; every other call throws or is
    undefined.  The function's own assertion lets a negative width or
    height through; the mask's sub-matrix refuses it. *)
Theorem zeroOutsideRoi_returns_iff mat roi :
  wf_mat mat = true → rows mat ≤ INT_MAX → cols mat ≤ INT_MAX →
  returns (zeroOutsideRoi mat roi) = true
  ↔ type mat = CV_32F ∧ roi_inside roi (rows mat) (cols mat).
Proof.
  intros Hwf Hrows Hcols. split.
  - destruct (zeroOutsideRoi mat roi) as [mat'| | |] eqn:Hrun; [|done..].
    intros _. by eapply zeroOutsideRoi_inv.
  - intros [Ht Hroi]. destruct (type_32F mat Ht) as [rws ->].
    by rewrite zeroOutsideRoi_run.
Qed.

Lemma zeroOutsideRoi_returns_iff_witness :
  let mat := MatF F32F 1 [[F32.of_Z 1; F32.of_Z 2; F32.of_Z 3]] in
  wf_mat mat = true ∧ rows mat ≤ INT_MAX ∧ cols mat ≤ INT_MAX
  ∧ (returns (zeroOutsideRoi mat (Rect.mk 2 0 (-1) 1)) = true
     ↔ type mat = CV_32F ∧ roi_inside (Rect.mk 2 0 (-1) 1) (rows mat) (cols mat)).
Proof.
  cbv zeta. split_and!; [reflexivity|vm_compute; discriminate
                        |vm_compute; discriminate|].
  apply (zeroOutsideRoi_returns_iff
           (MatF F32F 1 [[F32.of_Z 1; F32.of_Z 2; F32.of_Z 3]])
           (Rect.mk 2 0 (-1) 1));
    [reflexivity|vm_compute; discriminate|vm_compute; discriminate].
Defined.

(** X20.  [zeroOutsideRoi] is idempotent: applied with the same
    rectangle to its own result, it returns that result. *)
Theorem zeroOutsideRoi_idempotent mat roi mat' :
  wf_mat mat = true → rows mat ≤ INT_MAX → cols mat ≤ INT_MAX →
  zeroOutsideRoi mat roi = Ok mat' →
  zeroOutsideRoi mat' roi = Ok mat'.
Proof.
  intros Hwf Hrows Hcols Hrun.
  destruct (zeroOutsideRoi_inv _ _ _ Hrun) as [Ht Hroi].
  destruct (type_32F mat Ht) as [rws ->].
  rewrite zeroOutsideRoi_run in Hrun by done. injection Hrun as <-.
  destruct (keep_roi_shape roi rws Hwf) as (Hwf' & Hr' & Hc').
  rewrite zeroOutsideRoi_run; [by rewrite keep_roi_idemp|done|lia|lia|].
  by rewrite Hr', Hc'.
Qed.

Lemma zeroOutsideRoi_idempotent_witness :
  let mat := MatF F32F 1 [[F32.of_Z 1; F32.of_Z 2]; [F32.of_Z 3; F32.of_Z 4]] in
  let mat' := MatF F32F 1 [[F32.zero; F32.zero]; [F32.of_Z 3; F32.zero]] in
  let roi := Rect.mk 0 1 1 1 in
  wf_mat mat = true ∧ rows mat ≤ INT_MAX ∧ cols mat ≤ INT_MAX
  ∧ zeroOutsideRoi mat roi = Ok mat'
  ∧ zeroOutsideRoi mat' roi = Ok mat'.
Proof.
  cbv zeta. split_and!; [reflexivity|vm_compute; discriminate
                        |vm_compute; discriminate|reflexivity|].
  apply (zeroOutsideRoi_idempotent
           (MatF F32F 1 [[F32.of_Z 1; F32.of_Z 2]; [F32.of_Z 3; F32.of_Z 4]])
           (Rect.mk 0 1 1 1));
    [reflexivity|vm_compute; discriminate|vm_compute; discriminate
    |reflexivity].
Defined.

(** ** [addKernelToImage] *)

Lemma added_ext {A K} (op : A → K → A) krows x y sel1 sel2
    (rws : list (list A)) :
  (∀ (r c : nat) row v,
      rws !! r = Some row → row !! c = Some v →
      is_Some (cell_at krows (Z.of_nat r - y) (Z.of_nat c - x)) →
      sel1 (Z.of_nat r - y) (Z.of_nat c - x)
      = sel2 (Z.of_nat r - y) (Z.of_nat c - x)) →
  added op krows x y sel1 rws = added op krows x y sel2 rws.
Proof.
  intros Hsel. unfold added. apply imap_ext. intros r row Hr.
  apply imap_ext. intros c v Hc. cbv zeta.
  destruct (cell_at krows _ _) as [k|] eqn:Hk; [|done].
  by rewrite (Hsel r c row v Hr Hc) by (by rewrite Hk).
Qed.

Lemma added_none {A K} (op : A → K → A) krows x y (rws : list (list A)) :
  added op krows x y (λ _ _, false) rws = rws.
Proof.
  unfold added. apply list_eq. intros r. rewrite list_lookup_imap.
  destruct (rws !! r) as [row|]; [|done]. cbn. f_equal.
  apply list_eq. intros c. rewrite list_lookup_imap.
  destruct (row !! c) as [v|]; [|done]. cbn. by destruct (cell_at _ _ _).
Qed.

Lemma length_added {A K} (op : A → K → A) krows x y sel (rws : list (list A)) :
  length (added op krows x y sel rws) = length rws
  ∧ length (default [] (head (added op krows x y sel rws)))
    = length (default [] (head rws)).
Proof.
  unfold added. split; [apply length_imap|].
  apply head_imap_length. intros. apply length_imap.
Qed.

Lemma cell_at_Some {K} (krows : list (list K)) j i k :
  cell_at krows j i = Some k →
  0 ≤ j < Z.of_nat (length krows)
  ∧ ∃ row, krows !! Z.to_nat j = Some row ∧ 0 ≤ i < Z.of_nat (length row).
Proof.
  unfold cell_at. case_bool_decide as Hji; [|done].
  destruct (krows !! Z.to_nat j) as [row|] eqn:Hrow; [|done]. cbn.
  intros Hi. apply lookup_lt_Some in Hrow, Hi.
  split; [lia|]. exists row. split; [done|lia].
Qed.

Lemma elem_at_added {A K} (op : A → K → A) krows x y sel
    (rws : list (list A)) yj xi row v :
  0 ≤ yj → 0 ≤ xi →
  rws !! Z.to_nat yj = Some row → row !! Z.to_nat xi = Some v →
  elem_at (added op krows x y sel rws) yj xi
  = Ok match cell_at krows (yj - y) (xi - x) with
       | Some k => if sel (yj - y) (xi - x) then op v k else v
       | None => v
       end.
Proof.
  intros Hy Hx Hrow Hv. unfold elem_at, added.
  rewrite bool_decide_true by lia.
  rewrite list_lookup_imap, Hrow. cbn [fmap option_fmap option_map mbind
    option_bind].
  rewrite list_lookup_imap, Hv. cbn [fmap option_fmap option_map].
  cbv zeta. by rewrite !Z2Nat.id by lia.
Qed.

Section add_cell.
Context {A K : Type} (conv : float32 → outcome K) (op : A → K → A).
Variables (kernel : Mat) (krows : list (list K)) (x y : Z).
Variables (rws0 : list (list A)) (nc : nat).
Hypothesis Hrect : Forall (λ row, length row = nc) rws0.
Hypothesis Hhead : length (default [] (head rws0)) = nc.
Hypothesis Hfit : kernel_fits kernel x y.
Hypothesis Hkrows : Z.of_nat (length krows) = rows kernel.
Hypothesis Hkcols :
  Forall (λ row, Z.of_nat (length row) = cols kernel) krows.
Hypothesis Hk : ∀ j i k',
  cell_at krows j i = Some k' →
  ∃ k, at_float kernel j i = Ok k ∧ conv k = Ok k'.

Lemma cell_at_is_Some j i :
  0 ≤ j < rows kernel → 0 ≤ i < cols kernel → is_Some (cell_at krows j i).
Proof.
  intros Hj Hi. unfold cell_at. rewrite bool_decide_true by lia.
  destruct (lookup_lt_is_Some_2 krows (Z.to_nat j) ltac:(lia)) as [row Hrow].
  rewrite Hrow. cbn. apply lookup_lt_is_Some_2.
  rewrite Forall_forall in Hkcols.
  pose proof (Hkcols row (list_elem_of_lookup_2 _ _ _ Hrow)). lia.
Qed.

Lemma cell_at_range j i :
  is_Some (cell_at krows j i) → 0 ≤ j < rows kernel ∧ 0 ≤ i < cols kernel.
Proof.
  intros [k (Hj & row & Hrow & Hi)%cell_at_Some].
  rewrite Forall_forall in Hkcols.
  pose proof (Hkcols row (list_elem_of_lookup_2 _ _ _ Hrow)). lia.
Qed.

Lemma add_cell_step j i :
  0 ≤ j < rows kernel → 0 ≤ i < cols kernel →
  add_cell conv op kernel x y j (added op krows x y (before j i) rws0) i
  = Ok (added op krows x y (before j (i + 1)) rws0).
Proof.
  intros Hj Hi. destruct Hfit as (Hx1 & Hx2 & Hy1 & Hy2).
  unfold INT_MIN, INT_MAX in *. unfold add_cell.
  destruct (length_added op krows x y (before j i) rws0) as [-> ->].
  rewrite Hhead.
  rewrite (int_of_ok (x + i)), bind_Ok by (unfold INT_MIN, INT_MAX; lia).
  assert (∀ r c : nat,
            (Z.of_nat r - y ≠ j ∨ Z.of_nat c - x ≠ i) →
            before j i (Z.of_nat r - y) (Z.of_nat c - x)
            = before j (i + 1) (Z.of_nat r - y) (Z.of_nat c - x)) as Hother.
  { intros r c Hne. unfold before.
    destruct (Z.ltb_spec (Z.of_nat r - y) j); [done|]. cbn [orb].
    destruct (Z.eqb_spec (Z.of_nat r - y) j); [|done]. cbn [andb].
    destruct (Z.ltb_spec (Z.of_nat c - x) i),
      (Z.ltb_spec (Z.of_nat c - x) (i + 1)); try done; lia. }
  destruct ((0 <=? x + i) && (x + i <? Z.of_nat nc)) eqn:Hxi.
  2:{ f_equal. apply added_ext. intros r c row v Hr Hc _. apply Hother.
      rewrite Forall_forall in Hrect.
      pose proof (Hrect row (list_elem_of_lookup_2 _ _ _ Hr)).
      apply lookup_lt_Some in Hc. apply andb_false_iff in Hxi as [?%Z.leb_gt | ?%Z.ltb_ge]; lia. }
  apply andb_prop in Hxi as [Hx0%Z.leb_le Hxn%Z.ltb_lt].
  rewrite (int_of_ok (y + j)), bind_Ok by (unfold INT_MIN, INT_MAX; lia).
  destruct ((0 <=? y + j) && (y + j <? Z.of_nat (length rws0))) eqn:Hyj.
  2:{ f_equal. apply added_ext. intros r c row v Hr Hc _. apply Hother.
      apply lookup_lt_Some in Hr.
      apply andb_false_iff in Hyj as [?%Z.leb_gt | ?%Z.ltb_ge]; lia. }
  apply andb_prop in Hyj as [Hy0%Z.leb_le Hyn%Z.ltb_lt].
  destruct (cell_at_is_Some j i Hj Hi) as [k' Hcell].
  destruct (Hk j i k' Hcell) as (k & -> & Hconv). rewrite bind_Ok, Hconv, bind_Ok.
  destruct (lookup_lt_is_Some_2 rws0 (Z.to_nat (y + j)) ltac:(lia))
    as [row Hrow].
  assert (length row = nc) as Hlen.
  { rewrite Forall_forall in Hrect. apply Hrect.
    by eapply list_elem_of_lookup_2. }
  destruct (lookup_lt_is_Some_2 row (Z.to_nat (x + i)) ltac:(lia)) as [v Hv].
  assert (Z.of_nat (Z.to_nat (y + j)) - y = j) as Hrj by lia.
  assert (Z.of_nat (Z.to_nat (x + i)) - x = i) as Hci by lia.
  assert (before j i j i = false) as Hnot.
  { unfold before. rewrite Z.ltb_irrefl, Z.eqb_refl, Z.ltb_irrefl. done. }
  assert (before j (i + 1) j i = true) as Hnow.
  { unfold before. rewrite Z.ltb_irrefl, Z.eqb_refl. cbn.
    apply Z.ltb_lt. lia. }
  rewrite (elem_at_added op krows x y _ rws0 _ _ row v) by (done || lia).
  replace (y + j - y) with j by lia. replace (x + i - x) with i by lia.
  rewrite Hcell, Hnot, bind_Ok. f_equal.
  unfold put. apply list_eq. intros r.
  destruct (decide (r = Z.to_nat (y + j))) as [-> | Hr].
  - rewrite list_lookup_alter_eq. unfold added.
    rewrite !list_lookup_imap, Hrow. cbn [fmap option_fmap option_map].
    f_equal. apply list_eq. intros c.
    destruct (decide (c = Z.to_nat (x + i))) as [-> | Hc].
    + rewrite list_lookup_insert_eq by (rewrite length_imap; lia).
      rewrite list_lookup_imap, Hv. cbn [fmap option_fmap option_map].
      cbv zeta. by rewrite Hrj, Hci, Hcell, Hnow.
    + rewrite list_lookup_insert_ne by done.
      rewrite !list_lookup_imap. destruct (row !! c) as [w|]; [|done].
      cbn [fmap option_fmap option_map]. cbv zeta.
      rewrite (Hother (Z.to_nat (y + j)) c) by (right; lia). done.
  - rewrite list_lookup_alter_ne by done. unfold added.
    rewrite !list_lookup_imap. destruct (rws0 !! r) as [row'|]; [|done].
    cbn [fmap option_fmap option_map]. f_equal.
    apply imap_ext. intros c w _. cbv zeta.
    rewrite (Hother r c) by (left; lia). done.
Qed.

Lemma add_cell_row j (n : nat) :
  0 ≤ j < rows kernel → Z.of_nat n ≤ cols kernel →
  for_each (add_cell conv op kernel x y j) (seqZ 0 (Z.of_nat n))
    (added op krows x y (before j 0) rws0)
  = Ok (added op krows x y (before j (Z.of_nat n)) rws0).
Proof.
  intros Hj. induction n as [|n IH]; intros Hn; [done|].
  rewrite seqZ_S, for_each_app, IH by lia. rewrite bind_Ok.
  cbn [for_each]. rewrite Z.add_0_l, add_cell_step, !bind_Ok by lia.
  do 3 f_equal. lia.
Qed.

Lemma add_cell_rows (n : nat) :
  Z.of_nat n ≤ rows kernel →
  for_each (λ rws j,
              for_each (add_cell conv op kernel x y j)
                (seqZ 0 (cols kernel)) rws)
    (seqZ 0 (Z.of_nat n)) rws0
  = Ok (added op krows x y (before (Z.of_nat n) 0) rws0).
Proof.
  induction n as [|n IH]; intros Hn.
  - cbn. f_equal. rewrite <- (added_none op krows x y rws0) at 1.
    apply added_ext. intros r c row v _ _ [? ?]%cell_at_range.
    unfold before. symmetry. apply orb_false_iff. split.
    + apply Z.ltb_ge. lia.
    + apply andb_false_iff. right. apply Z.ltb_ge. lia.
  - rewrite seqZ_S, for_each_app, IH by lia. rewrite bind_Ok.
    cbn [for_each]. rewrite Z.add_0_l.
    assert (0 ≤ cols kernel) as Hc.
    { destruct kernel; cbn; apply Z.div_pos; lia. }
    rewrite <- (Z2Nat.id (cols kernel)) at 1 by done.
    rewrite add_cell_row, bind_Ok by lia. f_equal.
    apply added_ext. intros r c row v _ _ [? ?]%cell_at_range.
    unfold before.
    destruct (Z.ltb_spec (Z.of_nat r - y) (Z.of_nat n)),
      (Z.ltb_spec (Z.of_nat r - y) (Z.of_nat (S n))),
      (Z.eqb_spec (Z.of_nat r - y) (Z.of_nat n)),
      (Z.eqb_spec (Z.of_nat r - y) (Z.of_nat (S n))),
      (Z.ltb_spec (Z.of_nat c - x) (Z.of_nat (Z.to_nat (cols kernel)))),
      (Z.ltb_spec (Z.of_nat c - x) 0); cbn; try done; lia.
Qed.

Lemma add_cell_all :
  for_each (λ rws j,
              for_each (add_cell conv op kernel x y j)
                (seqZ 0 (cols kernel)) rws)
    (seqZ 0 (rows kernel)) rws0
  = Ok (added op krows x y (λ _ _, true) rws0).
Proof.
  assert (0 ≤ rows kernel) as Hr by (destruct kernel; cbn; lia).
  rewrite <- (Z2Nat.id (rows kernel)) at 1 by done.
  rewrite add_cell_rows by lia. f_equal.
  apply added_ext. intros r c row v _ _ [? _]%cell_at_range.
  unfold before. apply orb_true_iff. left. apply Z.ltb_lt. lia.
Qed.
End add_cell.

Lemma for_each_wrap {A S T} (wrap : S → T) (f : T → A → outcome T)
    (g : S → A → outcome S) :
  (∀ s a, f (wrap s) a = (s' ← g s a; Ok (wrap s'))) →
  ∀ xs s, for_each f xs (wrap s) = (s' ← for_each g xs s; Ok (wrap s')).
Proof.
  intros Hfg. induction xs as [|a xs IH]; intros s; [done|].
  cbn [for_each]. rewrite Hfg.
  destruct (g s a) as [s1| | |]; [|done..]. rewrite !bind_Ok. apply IH.
Qed.

Lemma addKernelToImage_step_32F kernel x y j rws i :
  addKernelToImage_step kernel x y j (MatF F32F 1 rws) i
  = (s ← add_cell Ok F32.add kernel x y j rws i; Ok (MatF F32F 1 s)).
Proof.
  unfold addKernelToImage_step, add_cell. cbn [cols rows].
  rewrite Z.div_1_r.
  destruct (int_of (x + i)) as [xi| | |]; [|done..]. rewrite !bind_Ok.
  destruct (_ && _); [|done].
  destruct (int_of (y + j)) as [yj| | |]; [|done..]. rewrite !bind_Ok.
  destruct (_ && _); [|done].
  change (type (MatF F32F 1 rws) =? CV_32F) with true. cbv iota.
  destruct (at_float kernel j i) as [k| | |]; [|done..]. rewrite !bind_Ok.
  cbn [at_float]. unfold float32. destruct (elem_at rws yj xi); done.
Qed.

Lemma addKernelToImage_step_8U kernel x y j rws i :
  addKernelToImage_step kernel x y j (MatI I8U 1 rws) i
  = (s ← add_cell float_to_uint8 add_uint8 kernel x y j rws i;
     Ok (MatI I8U 1 s)).
Proof.
  unfold addKernelToImage_step, add_cell. cbn [cols rows].
  rewrite Z.div_1_r.
  destruct (int_of (x + i)) as [xi| | |]; [|done..]. rewrite !bind_Ok.
  destruct (_ && _); [|done].
  destruct (int_of (y + j)) as [yj| | |]; [|done..]. rewrite !bind_Ok.
  destruct (_ && _); [|done].
  change (type (MatI I8U 1 rws) =? CV_32F) with false.
  change (type (MatI I8U 1 rws) =? CV_8UC1) with true. cbv iota.
  destruct (at_float kernel j i) as [k| | |]; [|done..]. rewrite !bind_Ok.
  destruct (float_to_uint8 k) as [k8| | |]; [|done..]. rewrite !bind_Ok.
  cbn [at_uint8]. destruct (elem_at rws yj xi); done.
Qed.

Lemma addKernelToImage_wrap {A K} (wrap : list (list A) → Mat)
    (conv : float32 → outcome K) (op : A → K → A) kernel x y rws :
  (∀ j s i, addKernelToImage_step kernel x y j (wrap s) i
            = (s' ← add_cell conv op kernel x y j s i; Ok (wrap s'))) →
  addKernelToImage (wrap rws) kernel x y
  = (s ← for_each (λ rws j,
                     for_each (add_cell conv op kernel x y j)
                       (seqZ 0 (cols kernel)) rws)
           (seqZ 0 (rows kernel)) rws;
     Ok (wrap s)).
Proof.
  intros Hstep. unfold addKernelToImage.
  apply (for_each_wrap wrap). intros s j.
  apply (for_each_wrap wrap). intros s' i. apply Hstep.
Qed.

Lemma cell_at_elem_at {K} (krows : list (list K)) j i k :
  cell_at krows j i = Some k → elem_at krows j i = Ok k.
Proof.
  unfold cell_at, elem_at. case_bool_decide; [|done]. by intros ->.
Qed.

Lemma cell_at_fmap {K L} (f : K → L) (krows : list (list K)) j i :
  cell_at (map (map f) krows) j i = f <$> cell_at krows j i.
Proof.
  unfold cell_at. case_bool_decide; [|done].
  change (map (map f) krows) with (map f <$> krows).
  rewrite list_lookup_fmap. destruct (krows !! Z.to_nat j) as [row|]; [|done].
  cbn. change (map f row) with (f <$> row). by rewrite list_lookup_fmap.
Qed.

Lemma wf_mat_float d rws :
  wf_mat (MatF d 1 rws) = true →
  Forall (λ row, length row = length (default [] (head rws))) rws
  ∧ Forall (λ row, Z.of_nat (length row) = cols (MatF d 1 rws)) rws.
Proof.
  cbn [wf_mat cols]. rewrite Z.div_1_r. intros Hall%rectangular_rows.
  split; [done|]. eapply Forall_impl; [exact Hall|]. cbn. by intros ? ->.
Qed.

Lemma addKernelToImage_32F_run rws krows x y :
  wf_mat (MatF F32F 1 rws) = true → wf_mat (MatF F32F 1 krows) = true →
  kernel_fits (MatF F32F 1 krows) x y →
  addKernelToImage (MatF F32F 1 rws) (MatF F32F 1 krows) x y
  = Ok (MatF F32F 1 (with_kernel F32.add krows x y rws)).
Proof.
  intros [Hrect _]%wf_mat_float [_ Hkc]%wf_mat_float Hfit.
  rewrite (addKernelToImage_wrap (MatF F32F 1) Ok F32.add)
    by (intros; apply addKernelToImage_step_32F).
  assert (∀ j i k', cell_at krows j i = Some k' →
            ∃ k, at_float (MatF F32F 1 krows) j i = Ok k ∧ Ok k = Ok k')
    as Hk.
  { intros j i k' Hcell. exists k'. split; [|done]. by apply cell_at_elem_at. }
  pose proof (add_cell_all Ok F32.add (MatF F32F 1 krows) krows x y rws _
                Hrect eq_refl Hfit eq_refl Hkc Hk) as Hall.
  exact (f_equal (λ o, o ≫= λ s, Ok (MatF F32F 1 s)) Hall).
Qed.

(** X21.  On well-formed 32F matrices, [addKernelToImage] adds to the
    pixel in row [r] and column [c] the kernel element
    [(r - y, c - x)], in [float], when the kernel has such an element,
    and leaves every other pixel as it was; the parts of the kernel that
    fall outside the image are dropped. *)
Theorem addKernelToImage_32F image kernel x y :
  type image = CV_32F → wf_mat image = true →
  type kernel = CV_32F → wf_mat kernel = true →
  kernel_fits kernel x y →
  addKernelToImage image kernel x y
  = Ok (MatF F32F 1
          (with_kernel F32.add (ptr_float kernel) x y (ptr_float image))).
Proof.
  intros Ht Hwf Htk Hwfk Hfit.
  destruct (type_32F image Ht) as [rws ->].
  destruct (type_32F kernel Htk) as [krows ->].
  by apply addKernelToImage_32F_run.
Qed.

Lemma addKernelToImage_32F_witness :
  let image := MatF F32F 1 [[F32.of_Z 1; F32.of_Z 2; F32.of_Z 3];
                            [F32.of_Z 4; F32.of_Z 5; F32.of_Z 6]] in
  let kernel := MatF F32F 1 [[F32.of_Z 10; F32.of_Z 20];
                             [F32.of_Z 30; F32.of_Z 40]] in
  type image = CV_32F ∧ wf_mat image = true
  ∧ type kernel = CV_32F ∧ wf_mat kernel = true
  ∧ kernel_fits kernel 2 (-1)
  ∧ addKernelToImage image kernel 2 (-1)
    = Ok (MatF F32F 1 [[F32.of_Z 1; F32.of_Z 2; F32.of_Z 33];
                       [F32.of_Z 4; F32.of_Z 5; F32.of_Z 6]]).
Proof.
  cbv zeta.
  assert (kernel_fits (MatF F32F 1 [[F32.of_Z 10; F32.of_Z 20];
                                    [F32.of_Z 30; F32.of_Z 40]]) 2 (-1))
    as Hfit by (unfold kernel_fits; vm_compute; intuition discriminate).
  split_and!; [reflexivity..|exact Hfit|].
  etransitivity;
    [apply (addKernelToImage_32F
              (MatF F32F 1 [[F32.of_Z 1; F32.of_Z 2; F32.of_Z 3];
                            [F32.of_Z 4; F32.of_Z 5; F32.of_Z 6]])
              (MatF F32F 1 [[F32.of_Z 10; F32.of_Z 20];
                            [F32.of_Z 30; F32.of_Z 40]]) 2 (-1));
     [reflexivity|reflexivity|reflexivity|reflexivity|exact Hfit]
    |vm_compute; reflexivity].
Defined.

Lemma float_to_uint8_trunc8 k :
  returns (float_to_uint8 k) = true → float_to_uint8 k = Ok (trunc8 k).
Proof.
  unfold float_to_uint8, trunc8. destruct (trunc k) as [z|]; [|done].
  by case_bool_decide.
Qed.

Lemma wf_mat_int d rws :
  wf_mat (MatI d 1 rws) = true →
  Forall (λ row, length row = length (default [] (head rws))) rws.
Proof. cbn [wf_mat]. by intros [Hall%rectangular_rows _]%andb_prop. Qed.

Lemma addKernelToImage_8U_run rws krows x y :
  wf_mat (MatI I8U 1 rws) = true → wf_mat (MatF F32F 1 krows) = true →
  kernel_fits (MatF F32F 1 krows) x y →
  forallb (forallb (λ k, returns (float_to_uint8 k))) krows = true →
  addKernelToImage (MatI I8U 1 rws) (MatF F32F 1 krows) x y
  = Ok (MatI I8U 1 (with_kernel add_uint8 (map (map trunc8) krows) x y rws)).
Proof.
  intros Hrect%wf_mat_int [_ Hkc]%wf_mat_float Hfit Hconv.
  rewrite (addKernelToImage_wrap (MatI I8U 1) float_to_uint8 add_uint8)
    by (intros; apply addKernelToImage_step_8U).
  transitivity (Ok (with_kernel add_uint8 (map (map trunc8) krows) x y rws)
                ≫= λ s, Ok (MatI I8U 1 s)); [|done].
  apply (f_equal (λ o, o ≫= λ s, Ok (MatI I8U 1 s))).
  apply (add_cell_all float_to_uint8 add_uint8 (MatF F32F 1 krows)
           (map (map trunc8) krows) x y rws _ Hrect eq_refl Hfit).
  - cbn [rows]. by rewrite length_map.
  - apply Forall_forall. intros row' Hin.
    apply list_elem_of_fmap in Hin as (row & -> & Hin).
    rewrite length_map. rewrite Forall_forall in Hkc. exact (Hkc _ Hin).
  - intros j i k'. rewrite cell_at_fmap. unfold float32 in *.
    destruct (cell_at krows j i) as [k|] eqn:Hcell; cbn; [|discriminate].
    intros [= <-]. exists k. split; [by apply cell_at_elem_at|].
    apply float_to_uint8_trunc8.
    apply cell_at_Some in Hcell as Hc. destruct Hc as (_ & row & Hrow & _).
    unfold cell_at in Hcell. case_bool_decide; [|done].
    rewrite Hrow in Hcell. cbn in Hcell.
    rewrite forallb_forall in Hconv.
    apply list_elem_of_lookup_2, list_elem_of_In, Hconv in Hrow.
    rewrite forallb_forall in Hrow.
    by apply list_elem_of_lookup_2, list_elem_of_In, Hrow in Hcell.
Qed.

(** X22.  On a well-formed 8UC1 image, [addKernelToImage] adds to each
    pixel under the kernel the kernel element truncated to a byte, and
    the sum wraps around at 256 instead of saturating.  The kernel
    elements are taken to be in the range of [uint8_t] once truncated. *)
Theorem addKernelToImage_8U image kernel x y :
  type image = CV_8UC1 → wf_mat image = true →
  type kernel = CV_32F → wf_mat kernel = true →
  kernel_fits kernel x y →
  forallb (forallb (λ k, returns (float_to_uint8 k))) (ptr_float kernel)
  = true →
  addKernelToImage image kernel x y
  = Ok (MatI I8U 1
          (with_kernel add_uint8 (map (map trunc8) (ptr_float kernel)) x y
             (ptr_int image))).
Proof.
  intros Ht Hwf Htk Hwfk Hfit Hconv.
  destruct (type_8U image Ht) as [rws ->].
  destruct (type_32F kernel Htk) as [krows ->].
  by apply addKernelToImage_8U_run.
Qed.

Lemma addKernelToImage_8U_witness :
  let image := MatI I8U 1 [[250; 10]] in
  let kernel := MatF F32F 1 [[F32.div (F32.of_Z 15) (F32.of_Z 2)]] in
  type image = CV_8UC1 ∧ wf_mat image = true
  ∧ type kernel = CV_32F ∧ wf_mat kernel = true
  ∧ kernel_fits kernel 0 0
  ∧ forallb (forallb (λ k, returns (float_to_uint8 k))) (ptr_float kernel)
    = true
  ∧ addKernelToImage image kernel 0 0 = Ok (MatI I8U 1 [[1; 10]]).
Proof.
  cbv zeta.
  assert (kernel_fits (MatF F32F 1 [[F32.div (F32.of_Z 15) (F32.of_Z 2)]]) 0 0)
    as Hfit by (unfold kernel_fits; vm_compute; intuition discriminate).
  split_and!; [reflexivity..|exact Hfit|vm_compute; reflexivity|].
  etransitivity;
    [apply (addKernelToImage_8U (MatI I8U 1 [[250; 10]])
              (MatF F32F 1 [[F32.div (F32.of_Z 15) (F32.of_Z 2)]]) 0 0);
     [reflexivity|reflexivity|reflexivity|reflexivity|exact Hfit
     |vm_compute; reflexivity]
    |vm_compute; reflexivity].
Defined.

Lemma cell_at_elem {K} (krows : list (list K)) j i k :
  cell_at krows j i = Some k → ∃ row, row ∈ krows ∧ k ∈ row.
Proof.
  unfold cell_at. case_bool_decide; [|done].
  destruct (krows !! Z.to_nat j) as [row|] eqn:Hrow; [|done]. cbn.
  intros Hk. exists row.
  split; by eapply list_elem_of_lookup_2.
Qed.

Lemma imap_rows_id {A} (g : nat → nat → A → A) (rws : list (list A)) :
  (∀ r c row v, rws !! r = Some row → row !! c = Some v → g r c v = v) →
  imap (λ r row, imap (g r) row) rws = rws.
Proof.
  intros Hg. apply list_eq. intros r. rewrite list_lookup_imap.
  destruct (rws !! r) as [row|] eqn:Hrow; [|done]. cbn. f_equal.
  apply list_eq. intros c. rewrite list_lookup_imap.
  destruct (row !! c) as [v|] eqn:Hv; [|done]. cbn. f_equal.
  by eapply Hg.
Qed.

(** X23.  A kernel whose elements are all truncated to 0, such as a
    kernel of weights below 1, leaves a well-formed 8UC1 image as it
    is. *)
Theorem addKernelToImage_8U_small_kernel image kernel x y :
  type image = CV_8UC1 → wf_mat image = true →
  type kernel = CV_32F → wf_mat kernel = true →
  kernel_fits kernel x y →
  forallb (forallb (λ k, bool_decide (trunc k = Some 0))) (ptr_float kernel)
  = true →
  addKernelToImage image kernel x y = Ok image.
Proof.
  intros Ht Hwf Htk Hwfk Hfit Hsmall.
  destruct (type_8U image Ht) as [rws ->].
  destruct (type_32F kernel Htk) as [krows ->]. cbn [ptr_float] in Hsmall.
  assert (∀ row k, row ∈ krows → k ∈ row → trunc k = Some 0) as Hzero.
  { intros row k Hrow Hk. rewrite forallb_forall in Hsmall.
    apply list_elem_of_In, Hsmall in Hrow. rewrite forallb_forall in Hrow.
    apply list_elem_of_In, Hrow in Hk. by apply bool_decide_eq_true in Hk. }
  rewrite addKernelToImage_8U_run; [|done..|].
  2:{ apply forallb_forall. intros row Hrow%list_elem_of_In.
      apply forallb_forall. intros k Hk%list_elem_of_In.
      unfold float_to_uint8. by rewrite (Hzero row k Hrow Hk). }
  do 2 f_equal. unfold with_kernel, added.
  apply imap_rows_id. intros r c row v Hrow Hv. cbv zeta.
  rewrite cell_at_fmap. unfold float32 in *.
  destruct (cell_at krows _ _) as [k|] eqn:Hcell; [|done]. cbn.
  apply cell_at_elem in Hcell as (krow & Hkrow & Hk).
  unfold trunc8. rewrite (Hzero krow k Hkrow Hk). cbn. unfold add_uint8.
  cbn [wf_mat] in Hwf. apply andb_prop in Hwf as [_ Hrange].
  rewrite forallb_forall in Hrange.
  apply list_elem_of_lookup_2, list_elem_of_In, Hrange in Hrow.
  rewrite forallb_forall in Hrow.
  apply list_elem_of_lookup_2, list_elem_of_In, Hrow in Hv.
  unfold in_range in Hv. apply bool_decide_eq_true in Hv. cbn in Hv.
  rewrite Z.add_0_r. apply Z.mod_small. lia.
Qed.

Lemma addKernelToImage_8U_small_kernel_witness :
  let image := MatI I8U 1 [[250; 10]; [0; 255]] in
  let half := F32.div (F32.of_Z 1) (F32.of_Z 2) in
  let kernel := MatF F32F 1 [[half; half]; [half; SFopp half]] in
  type image = CV_8UC1 ∧ wf_mat image = true
  ∧ type kernel = CV_32F ∧ wf_mat kernel = true
  ∧ kernel_fits kernel 0 0
  ∧ forallb (forallb (λ k, bool_decide (trunc k = Some 0))) (ptr_float kernel)
    = true
  ∧ addKernelToImage image kernel 0 0 = Ok image.
Proof.
  cbv zeta.
  assert (kernel_fits
            (MatF F32F 1
               [[F32.div (F32.of_Z 1) (F32.of_Z 2);
                 F32.div (F32.of_Z 1) (F32.of_Z 2)];
                [F32.div (F32.of_Z 1) (F32.of_Z 2);
                 SFopp (F32.div (F32.of_Z 1) (F32.of_Z 2))]]) 0 0)
    as Hfit by (unfold kernel_fits; vm_compute; intuition discriminate).
  split_and!; [reflexivity..|exact Hfit|vm_compute; reflexivity|].
  apply (addKernelToImage_8U_small_kernel (MatI I8U 1 [[250; 10]; [0; 255]])
           (MatF F32F 1
              [[F32.div (F32.of_Z 1) (F32.of_Z 2);
                F32.div (F32.of_Z 1) (F32.of_Z 2)];
               [F32.div (F32.of_Z 1) (F32.of_Z 2);
                SFopp (F32.div (F32.of_Z 1) (F32.of_Z 2))]]) 0 0);
    [reflexivity|reflexivity|reflexivity|reflexivity|exact Hfit
    |vm_compute; reflexivity].
Defined.

Lemma for_each_throw {A S} (body : S → A → outcome S) (p : A → bool) msg s :
  ∀ xs,
    (∀ a, a ∈ xs → body s a = if p a then Thrown msg else Ok s) →
    for_each body xs s = if existsb p xs then Thrown msg else Ok s.
Proof.
  induction xs as [|a xs IH]; intros Hbody; [done|].
  cbn [for_each existsb]. rewrite Hbody by (apply elem_of_cons; by left).
  destruct (p a); [done|]. rewrite bind_Ok. apply IH.
  intros b Hb. apply Hbody, elem_of_cons. by right.
Qed.

Lemma existsb_and_const {A} (p : A → bool) b l :
  existsb (λ a, p a && b) l = b && existsb p l.
Proof.
  induction l as [|a l IH]; cbn [existsb]; [by rewrite andb_false_r|].
  rewrite IH. by destruct (p a), b.
Qed.

Lemma existsb_seqZ (p : Z → bool) n :
  existsb p (seqZ 0 n) = true ↔ ∃ i, 0 ≤ i < n ∧ p i = true.
Proof.
  rewrite existsb_exists. split.
  - intros (i & Hi%list_elem_of_In%elem_of_seqZ & Hp). exists i. split; [lia|done].
  - intros (i & Hi & Hp). exists i. split; [|done].
    apply list_elem_of_In, elem_of_seqZ. lia.
Qed.

(** X24.  On an image that is neither 32F nor 8UC1, [addKernelToImage]
    throws exactly when some kernel element falls on a pixel of the
    image; when the kernel lies outside the image, or is empty, the call
    returns and the image is as it was. *)
Theorem addKernelToImage_other_type image kernel x y :
  type image ≠ CV_32F → type image ≠ CV_8UC1 →
  kernel_fits kernel x y →
  addKernelToImage image kernel x y
  = if meets image kernel x y
    then Thrown "The specified image type is not implemented."
    else Ok image.
Proof.
  intros H32 H8 (Hx1 & Hx2 & Hy1 & Hy2). unfold INT_MIN, INT_MAX in *.
  set (hitx i := (0 <=? x + i) && (x + i <? cols image)).
  set (hity j := (0 <=? y + j) && (y + j <? rows image)).
  set (msg := "The specified image type is not implemented.").
  assert (∀ j i, 0 ≤ j < rows kernel → 0 ≤ i < cols kernel →
            addKernelToImage_step kernel x y j image i
            = if hitx i && hity j then Thrown msg else Ok image) as Hstep.
  { intros j i Hj Hi. unfold addKernelToImage_step.
    rewrite (int_of_ok (x + i)), bind_Ok by (unfold INT_MIN, INT_MAX; lia).
    fold (hitx i). destruct (hitx i); [|done].
    rewrite (int_of_ok (y + j)), bind_Ok by (unfold INT_MIN, INT_MAX; lia).
    fold (hity j). destruct (hity j); [|done].
    by rewrite (proj2 (Z.eqb_neq _ _) H32), (proj2 (Z.eqb_neq _ _) H8). }
  assert (∀ j, 0 ≤ j < rows kernel →
            for_each (addKernelToImage_step kernel x y j)
              (seqZ 0 (cols kernel)) image
            = if hity j && existsb hitx (seqZ 0 (cols kernel))
              then Thrown msg else Ok image) as Hrow.
  { intros j Hj.
    rewrite (for_each_throw _ (λ i, hitx i && hity j) msg).
    - by rewrite existsb_and_const.
    - intros i Hi%elem_of_seqZ. apply Hstep; lia. }
  unfold addKernelToImage.
  rewrite (for_each_throw _
             (λ j, hity j && existsb hitx (seqZ 0 (cols kernel))) msg)
    by (intros j Hj%elem_of_seqZ; apply Hrow; lia).
  assert (existsb (λ j, hity j && existsb hitx (seqZ 0 (cols kernel)))
            (seqZ 0 (rows kernel)) = meets image kernel x y) as ->; [|done].
  apply eq_true_iff_eq. rewrite existsb_seqZ. unfold meets.
  rewrite bool_decide_eq_true. split.
  - intros (j & Hj & [Hyj (i & Hi & Hxi)%existsb_seqZ]%andb_prop).
    unfold hitx, hity in *.
    apply andb_prop in Hyj as [?%Z.leb_le ?%Z.ltb_lt].
    apply andb_prop in Hxi as [?%Z.leb_le ?%Z.ltb_lt]. lia.
  - intros Hm. exists (Z.max 0 (- y)). split; [lia|].
    apply andb_true_intro. split.
    + unfold hity. apply andb_true_intro.
      split; [apply Z.leb_le|apply Z.ltb_lt]; lia.
    + apply existsb_seqZ. exists (Z.max 0 (- x)). split; [lia|].
      unfold hitx. apply andb_true_intro.
      split; [apply Z.leb_le|apply Z.ltb_lt]; lia.
Qed.

Lemma addKernelToImage_other_type_witness :
  let image := MatI I16U 1 [[1; 2]; [3; 4]] in
  let kernel := MatF F32F 1 [[F32.of_Z 1]] in
  type image ≠ CV_32F ∧ type image ≠ CV_8UC1
  ∧ kernel_fits kernel 5 0
  ∧ addKernelToImage image kernel 5 0 = Ok image.
Proof.
  cbv zeta.
  assert (kernel_fits (MatF F32F 1 [[F32.of_Z 1]]) 5 0) as Hfit
    by (unfold kernel_fits; vm_compute; intuition discriminate).
  split_and!; [vm_compute; discriminate|vm_compute; discriminate|exact Hfit|].
  etransitivity;
    [apply (addKernelToImage_other_type (MatI I16U 1 [[1; 2]; [3; 4]])
              (MatF F32F 1 [[F32.of_Z 1]]) 5 0);
     [vm_compute; discriminate|vm_compute; discriminate|exact Hfit]
    |reflexivity].
Defined.

(** ** The table of extensions *)

Lemma lookup_foldl_insert (f : string → string) l : ∀ (m : gmap string string) x,
  foldl (λ m k, <[k := f k]> m) m l !! x
  = if bool_decide (x ∈ l) then Some (f x) else m !! x.
Proof.
  induction l as [|a l IH]; intros m x; cbn [foldl].
  - rewrite bool_decide_false; [done|]. apply not_elem_of_nil.
  - rewrite IH. destruct (decide (x ∈ l)) as [Hin | Hnin].
    + rewrite !bool_decide_true; [done| |done]. apply elem_of_cons. by right.
    + rewrite (bool_decide_false (x ∈ l)) by done.
      destruct (decide (x = a)) as [-> | Hne].
      * rewrite lookup_insert_eq, bool_decide_true; [done|].
        apply elem_of_cons. by left.
      * rewrite lookup_insert_ne by done.
        rewrite bool_decide_false; [done|].
        intros [? | ?]%elem_of_cons; done.
Qed.

Lemma initImageExtensions_lookup ext :
  initImageExtensions ∅ !! ext
  = if bool_decide (ext ∈ allImageExtensions)
    then Some (filter_string ext) else None.
Proof.
  unfold initImageExtensions. rewrite bool_decide_true by done.
  rewrite lookup_foldl_insert. by rewrite lookup_empty.
Qed.

Lemma initImageExtensions_twice :
  initImageExtensions (initImageExtensions ∅) = initImageExtensions ∅.
Proof.
  unfold initImageExtensions at 1. rewrite bool_decide_false; [done|].
  intros Hempty.
  pose proof (initImageExtensions_lookup "jpg") as Hjpg.
  rewrite Hempty, lookup_empty in Hjpg. discriminate Hjpg.
Qed.

(** X25.  After the first call of [checkSupportedExtension], whatever
    its argument, the map of filter strings holds exactly the
    extensions of [getAllExtensions], each with the filter string
    [ext|*.ext]. *)
Theorem checkSupportedExtension_map `{E : Externals} inputExt ext :
  getAllExtensionsToFilterStrings (checkSupportedExtension ∅ inputExt).1 !! ext
  = if bool_decide (ext ∈ getAllExtensions)
    then Some (ext +:+ "|*." +:+ ext) else None.
Proof. apply initImageExtensions_lookup. Qed.

(** X26.  [checkSupportedExtension] answers true exactly for the
    extensions that have a filter string in the map, and a later call
    finds the map filled and leaves it as it is. *)
Theorem checkSupportedExtension_again `{E : Externals} first inputExt :
  let m := (checkSupportedExtension ∅ first).1 in
  (checkSupportedExtension m inputExt).1 = m
  ∧ ((checkSupportedExtension m inputExt).2 = true
     ↔ is_Some (getAllExtensionsToFilterStrings m !! getNormalizedExt inputExt)).
Proof.
  cbv zeta. unfold checkSupportedExtension, getAllExtensionsToFilterStrings.
  cbn [fst snd]. rewrite initImageExtensions_twice. split; [done|].
  rewrite initImageExtensions_lookup, bool_decide_eq_true.
  case_bool_decide; split; try done; try by intros [? ?].
  all: intros _; by eexists.
Qed.

(** ** The colour of a text *)

Lemma black_contrasts_more_threshold g :
  0 ≤ g ≤ 255 → black_contrasts_more g = (128 <=? g).
Proof.
  intros Hg.
  assert (forallb (λ g, Bool.eqb (black_contrasts_more g) (128 <=? g))
            (seqZ 0 256) = true) as Hall by (vm_compute; reflexivity).
  rewrite forallb_forall in Hall.
  apply Bool.eqb_prop, Hall, list_elem_of_In, elem_of_seqZ. lia.
Qed.

Lemma luma_int_range b g r :
  0 ≤ b ≤ 255 → 0 ≤ g ≤ 255 → 0 ≤ r ≤ 255 → 0 ≤ cv.luma_int b g r ≤ 255.
Proof.
  intros Hb Hg Hr. unfold cv.luma_int.
  change (1 ≪ 14) with 16384. rewrite Z.shiftr_div_pow2 by lia.
  change (2 ^ 15) with 32768.
  split.
  - apply Z.div_pos; lia.
  - apply Z.lt_succ_r, Z.div_lt_upper_bound; lia.
Qed.

Lemma at_Vec3b_range img y x p :
  wf_mat img = true → at_Vec3b img y x = Ok p →
  Forall (λ v, 0 ≤ v ≤ 255) p.
Proof.
  destruct img as [[] cn rws|]; cbn [at_Vec3b wf_mat]; try done.
  intros [_ Hrange]%andb_prop. case_bool_decide; [|done].
  destruct (rws !! Z.to_nat y) as [row|] eqn:Hrow; [|done].
  cbv zeta. case_bool_decide; [|done]. intros [= <-].
  rewrite forallb_forall in Hrange.
  apply list_elem_of_lookup_2, list_elem_of_In, Hrange in Hrow.
  rewrite forallb_forall in Hrow.
  apply Forall_forall. intros v Hv.
  apply elem_of_take in Hv as (i & Hv & _). rewrite lookup_drop in Hv.
  apply list_elem_of_lookup_2, list_elem_of_In, Hrow in Hv.
  unfold in_range in Hv.
  apply bool_decide_eq_true in Hv. cbn in Hv. lia.
Qed.

(** X27.  [computeTextColor] chooses black, [(0, 0, 0)], exactly when
    the gray level of the pixel, as [cvtColor] computes it from the three
    bytes read at the pixel, is 128 or more, and white,
    [(255, 255, 255)], otherwise. *)
Theorem computeTextColor_threshold img pixel b g r :
  wf_mat img = true →
  at_Vec3b img (Point.y pixel) (Point.x pixel) = Ok [b; g; r] →
  computeTextColor img pixel
  = Ok (if 128 <=? cv.luma_int b g r then Scalar3 0 0 0
        else Scalar3 255 255 255).
Proof.
  intros Hwf Hat. unfold computeTextColor. rewrite Hat, bind_Ok.
  apply at_Vec3b_range in Hat; [|done].
  apply Forall_cons in Hat as [Hb Hat]. apply Forall_cons in Hat as [Hg Hat].
  apply Forall_cons in Hat as [Hr _].
  change (cv.cvtColor (MatI I8U 3 [[b; g; r]]) cv.COLOR_BGR2GRAY 0)
    with (Ok (MatI I8U 1 [[cv.luma_int b g r]])).
  rewrite bind_Ok.
  change (at_uint8 (MatI I8U 1 [[cv.luma_int b g r]]) 0 0)
    with (Ok (cv.luma_int b g r)).
  rewrite bind_Ok, black_contrasts_more_threshold
    by (by apply luma_int_range).
  by destruct (128 <=? cv.luma_int b g r).
Qed.

Lemma computeTextColor_threshold_witness :
  let img := MatI I8U 3 [[10; 20; 30; 200; 220; 240]] in
  wf_mat img = true
  ∧ at_Vec3b img 0 1 = Ok [200; 220; 240]
  ∧ computeTextColor img (Point.mk 1 0) = Ok (Scalar3 0 0 0).
Proof.
  cbv zeta. split_and!; [reflexivity..|].
  etransitivity;
    [apply (computeTextColor_threshold
              (MatI I8U 3 [[10; 20; 30; 200; 220; 240]]) (Point.mk 1 0)
              200 220 240); reflexivity
    |reflexivity].
Defined.
